(** * node-lambda: the deployment pipeline of [lib/main.js]

    A shallow embedding of the parts of [lib/main.js] that build the
    archive, load the desired event sources, reconcile one region and
    fan a deployment out over several regions, with the properties the
    specification states about them.

    Conventions of the embedding.
    - JavaScript values are the inductive [value]; an object is an
      association list in insertion order, a property that is absent
      reads as [VUndefined].
    - Numbers are the integers of JSON documents ([Z]); nothing below
      does arithmetic on them, only truthiness and [===].
    - Asynchronous code is a [task]: started at an instant, it issues
      calls to the remote platform and settles (resolves or rejects) at a
      later instant. The platform is an oracle giving, for a call issued
      at some instant in some region, its latency and its outcome. Local
      computation takes no time.
    - The progress lines written with [console.log] are not modelled;
      the final report of [deploy] is. *)

From Stdlib Require Import Ascii String ZArith Lia.
From stdpp Require Import base option list strings gmap sets numbers.

Open Scope string_scope.
Open Scope list_scope.

(** ** JavaScript values *)

#[local] Set Warnings "-register-all".

Inductive value : Type :=
| VUndefined
| VNull
| VBool (b : bool)
| VNum (n : Z)
| VStr (s : string)
| VArr (items : list value)
| VObj (fields : list (string * value)).

(** [ToBoolean]: what [if (v)], [!v] and [v ? a : b] test. *)
Definition truthy (v : value) : bool :=
  match v with
  | VUndefined | VNull => false
  | VBool b => b
  | VNum n => negb (n =? 0)%Z
  | VStr s => negb (s =? "")%string
  | VArr _ | VObj _ => true
  end.

(** [v == null]. *)
Definition is_nullish (v : value) : bool :=
  match v with
  | VUndefined | VNull => true
  | _ => false
  end.

(** [a === b] for two values that come from different documents (the
    desired-state file and a platform response, a program option and a
    literal): primitives compare by content, arrays and objects by
    identity, and two values from different documents are never the same
    object. *)
Definition strict_eq (a b : value) : bool :=
  match a, b with
  | VUndefined, VUndefined => true
  | VNull, VNull => true
  | VBool x, VBool y => Bool.eqb x y
  | VNum x, VNum y => (x =? y)%Z
  | VStr x, VStr y => (x =? y)%string
  | _, _ => false
  end.

(** Property tables of objects. *)
Fixpoint assoc (k : string) (fs : list (string * value)) : value :=
  match fs with
  | [] => VUndefined
  | (k', v) :: fs' => if (k =? k')%string then v else assoc k fs'
  end.

(** [o[k] = v]: an existing property keeps its place, a new one is
    appended. *)
Fixpoint assoc_set (k : string) (v : value) (fs : list (string * value))
  : list (string * value) :=
  match fs with
  | [] => [(k, v)]
  | (k', v') :: fs' =>
      if (k =? k')%string then (k, v) :: fs' else (k', v') :: assoc_set k v fs'
  end.

Fixpoint assoc_del (k : string) (fs : list (string * value))
  : list (string * value) :=
  match fs with
  | [] => []
  | (k', v') :: fs' =>
      if (k =? k')%string then assoc_del k fs' else (k', v') :: assoc_del k fs'
  end.

(** [o[k]]. A primitive or an array has none of the properties read
    below, so that such a read gives [undefined]. Reading a property of
    [null] or [undefined] throws in JavaScript: the embedding is for
    documents and responses that hold an object wherever the code reads a
    property (the elements of the two collections, the data of a
    successful response), and gives [undefined] elsewhere. *)
Definition get (k : string) (o : value) : value :=
  match o with
  | VObj fs => assoc k fs
  | _ => VUndefined
  end.

(** [Object.assign(o, { k: v })], for an object [o]. ([Object.assign]
    throws on [null] and [undefined] and wraps a primitive; the embedding
    is for the schedules of a document, which are objects, and leaves
    anything else as it is.) *)
Definition set (k : string) (v : value) (o : value) : value :=
  match o with
  | VObj fs => VObj (assoc_set k v fs)
  | _ => o
  end.

(** [delete o[k]], for an object [o]. *)
Definition del (k : string) (o : value) : value :=
  match o with
  | VObj fs => VObj (assoc_del k fs)
  | _ => o
  end.

(** The values [v[i]] visited by [for (let i in v)]: the elements of an
    array, the characters of a string, the property values of an object
    (in insertion order, which is the enumeration order when no key is
    an array index); numbers and booleans have no enumerable key. *)
Fixpoint chars (s : string) : list value :=
  match s with
  | EmptyString => []
  | String c s' => VStr (String c EmptyString) :: chars s'
  end.

Definition for_in (v : value) : list value :=
  match v with
  | VArr l => l
  | VStr s => chars s
  | VObj fs => map snd fs
  | _ => []
  end.

(** ** Event sources: the operations of [_updateEventSources] *)

Definition arn (binding : value) : value := get "EventSourceArn" binding.

(** The inner loop of the first pass: the first existing mapping whose
    [EventSourceArn] is [===] to the desired one ([break] on a match). *)
Fixpoint find_existing (a : value) (existing : list value) : option value :=
  match existing with
  | [] => None
  | e :: rest => if strict_eq a (arn e) then Some e else find_existing a rest
  end.

Definition update_op (functionName d e : value) : value :=
  VObj [ ("type", VStr "update");
         ("FunctionName", functionName);
         ("Enabled", get "Enabled" d);
         ("BatchSize", get "BatchSize" d);
         ("UUID", get "UUID" e) ].

Definition create_op (functionName d : value) : value :=
  VObj [ ("type", VStr "create");
         ("FunctionName", functionName);
         ("EventSourceArn", get "EventSourceArn" d);
         ("Enabled", if truthy (get "Enabled" d) then get "Enabled" d
                     else VBool false);
         ("BatchSize", if truthy (get "BatchSize" d) then get "BatchSize" d
                       else VNum 100);
         ("StartingPosition",
           if truthy (get "StartingPosition" d) then get "StartingPosition" d
           else VStr "LATEST") ].

Definition delete_op (e : value) : value :=
  VObj [ ("type", VStr "delete"); ("UUID", get "UUID" e) ].

(** One turn of the first loop: an update when the inner loop found a
    match, a create when [isExisting] stayed false. *)
Definition classify (functionName : value) (existing : list value) (d : value)
  : value :=
  match find_existing (arn d) existing with
  | Some e => update_op functionName d e
  | None => create_op functionName d
  end.

(** Did the inner loop of the first pass find a match for [d]? *)
Definition matched (existing : list value) (d : value) : bool :=
  existsb (fun e => strict_eq (arn d) (arn e)) existing.

(** The inner loop of the second pass: is some desired binding's
    [EventSourceArn] [===] to this existing one? *)
Definition is_desired (desired : list value) (e : value) : bool :=
  existsb (fun d => strict_eq (arn d) (arn e)) desired.

(** [updateEventSourceList] as the two passes leave it: one entry per
    desired binding in order, then one delete per existing mapping that
    no desired binding names. *)
Definition updateEventSourceList
  (functionName : value) (existing desired : list value) : list value :=
  map (classify functionName existing) desired
  ++ map delete_op (List.filter (fun e => negb (is_desired desired e)) existing).

Definition has_type (t : string) (op : value) : bool :=
  strict_eq (get "type" op) (VStr t).

Definition count_type (t : string) (ops : list value) : nat :=
  length (List.filter (has_type t) ops).

(** ** The local machine and the command line *)

(** A function call that returns or throws. *)
Inductive completion (A : Type) : Type :=
| Returned (a : A)
| Thrown (err : value).
Arguments Returned {A} a.
Arguments Thrown {A} err.

(** How a promise or a Node-style callback ends: with a value, or with
    an error. *)
Inductive outcome (A : Type) : Type :=
| Resolved (a : A)
| Rejected (err : value).
Arguments Resolved {A} a.
Arguments Rejected {A} err.

(** What the local machine answers: [fs.readJsonSync(path)];
    [dotenv.parse(fs.readFileSync(path))]; the modules and documents that
    [require] loads; and what [_archive] (the build) hands to its
    callback, an error or the archive buffer. *)
Record host : Type := Host {
  readJsonSync : value -> completion value;
  readConfig : value -> completion value;
  require : string -> value;
  archive : outcome value
}.

(** The options of the command line, as [commander] delivers them. The
    options that the code concatenates or splits are strings, an unset
    one being the empty string (falsy like [undefined]); the others are
    arbitrary values. Credentials, proxy and time-out only configure the
    platform client and are left out. *)
Record program : Type := Program {
  functionName : string;
  environment : string;
  lambdaVersion : string;
  handler : string;
  role : value;
  runtime : value;
  description : value;
  memorySize : value;
  timeout : value;
  publish : value;
  vpcSubnets : string;
  vpcSecurityGroups : string;
  configFile : value;
  deadLetterConfigTargetArn : value;
  tracingConfig : value;
  eventSourceFile : value;
  eventFile : string;
  contextFile : string;
  region : string
}.

(** [s.split(sep)] for a one-character separator. *)
Fixpoint split_on (sep : ascii) (s : string) : list string :=
  match s with
  | EmptyString => [EmptyString]
  | String c s' =>
      if Ascii.eqb c sep then EmptyString :: split_on sep s'
      else match split_on sep s' with
           | piece :: pieces => String c piece :: pieces
           | [] => [String c EmptyString]
           end
  end.

(** [/[^a-zA-Z0-9-_]/g] replaced by ['_'] (function names are ASCII). *)
Definition allowed_in_name (c : ascii) : bool :=
  let n := nat_of_ascii c in
  ((97 <=? n) && (n <=? 122) || (65 <=? n) && (n <=? 90)
   || (48 <=? n) && (n <=? 57) || (n =? 45) || (n =? 95))%nat.

Fixpoint escape_name (s : string) : string :=
  match s with
  | EmptyString => EmptyString
  | String c s' =>
      String (if allowed_in_name c then c else "_"%char) (escape_name s')
  end.

(** *** [_params] *)

Definition _params (h : host) (p : program) (buffer : value) : completion value :=
  let FunctionName :=
    escape_name
      (functionName p
       ++ (if truthy (VStr (environment p)) then "-" ++ environment p else "")
       ++ (if truthy (VStr (lambdaVersion p)) then "-" ++ lambdaVersion p else "")) in
  let VpcConfig :=
    if truthy (VStr (vpcSubnets p)) && truthy (VStr (vpcSecurityGroups p))
    then VObj [ ("SubnetIds", VArr (map VStr (split_on "," (vpcSubnets p))));
                ("SecurityGroupIds",
                  VArr (map VStr (split_on "," (vpcSecurityGroups p)))) ]
    else VObj [ ("SubnetIds", VArr []); ("SecurityGroupIds", VArr []) ] in
  let DeadLetterConfig :=
    VObj [ ("TargetArn",
             if strict_eq (deadLetterConfigTargetArn p) VUndefined then VNull
             else deadLetterConfigTargetArn p) ] in
  let TracingConfig :=
    VObj [ ("Mode", if truthy (tracingConfig p) then tracingConfig p else VNull) ] in
  let with_environment (Environment : value) :=
    VObj [ ("FunctionName", VStr FunctionName);
           ("Code", VObj [ ("ZipFile", buffer) ]);
           ("Handler", VStr (handler p));
           ("Role", role p);
           ("Runtime", runtime p);
           ("Description", description p);
           ("MemorySize", memorySize p);
           ("Timeout", timeout p);
           ("Publish", publish p);
           ("VpcConfig", VpcConfig);
           ("Environment", Environment);
           ("DeadLetterConfig", DeadLetterConfig);
           ("TracingConfig", TracingConfig) ] in
  if truthy (configFile p) then
    match readConfig h (configFile p) with
    | Thrown err => Thrown err
    | Returned config => Returned (with_environment (VObj [ ("Variables", config) ]))
    end
  else Returned (with_environment (VObj [ ("Variables", VNull) ])).

(** *** [_eventSourceList] *)

(** The file is in strict mode: storing a property into a primitive, and
    reading one from [null], throw a [TypeError]. *)
Definition _eventSourceList (h : host) (p : program) : completion value :=
  if negb (truthy (eventSourceFile p)) then
    Returned (VObj [ ("EventSourceMappings", VNull); ("ScheduleEvents", VNull) ])
  else
    match readJsonSync h (eventSourceFile p) with
    | Thrown err => Thrown err
    | Returned (VArr items) =>
        (* backward-compatible *)
        Returned (VObj [ ("EventSourceMappings", VArr items);
                         ("ScheduleEvents", VArr []) ])
    | Returned (VObj fields) =>
        let list := VObj fields in
        let list :=
          if negb (truthy (get "EventSourceMappings" list))
          then set "EventSourceMappings" (VArr []) list else list in
        let list :=
          if negb (truthy (get "ScheduleEvents" list))
          then set "ScheduleEvents" (VArr []) list else list in
        Returned list
    | Returned _ => Thrown (VStr "TypeError")
    end.

(** A collection of a structured document, as the loader leaves it. *)
Definition or_empty (v : value) : value := if truthy v then v else VArr [].

(** *** [run] *)

(** What [run] does to the outside, in order. *)
Inductive effect : Type :=
| UnsupportedRuntime (runtime : value)
    (* console.error(`Runtime [${program.runtime}] is not supported.`) *)
| ProcessExit (code : Z)
| CreateSampleFile (file boilerplateName : string)
| SetRunTimeEnvironmentVars (configFile : value)
| RunHandler (handler event context : value)
| WriteTmpEvent (i : nat) (event : value)
| ExecSync (i : nat)
    (* one child [node-lambda run] on the i-th temporary event file *)
| UnlinkTmpEvent (i : nat).

Definition _runMultipleHandlers (events : list value) : list effect :=
  concat (imap (fun i event => [WriteTmpEvent i event; ExecSync i; UnlinkTmpEvent i])
            events).

Definition run (h : host) (p : program) : list effect :=
  if negb (existsb (strict_eq (runtime p)) [VStr "nodejs4.3"; VStr "nodejs6.10"])
  then [UnsupportedRuntime (runtime p); ProcessExit 254]
  else
    let splitHandler := split_on "." (handler p) in
    let filename := (hd "undefined" splitHandler ++ ".js")%string in
    let handlername := nth 1 splitHandler "undefined" in
    let handler := get handlername (require h filename) in
    let event := require h (eventFile p) in
    let context := require h (contextFile p) in
    [CreateSampleFile (eventFile p) "event.json"]
    ++ (if truthy (configFile p) then [SetRunTimeEnvironmentVars (configFile p)]
        else [])
    ++ match event with
       | VArr events => _runMultipleHandlers events
       | _ => [RunHandler handler event context]
       end.

(** *** [_zip] *)

(** One file or directory met by [fs.walk(codeDirectory)], with what
    [fs.readFileSync] reads there. *)
Record walk_item : Type := WalkItem {
  w_path : string;
  w_isDirectory : bool;
  w_content : string
}.

(** [s.replace(pat, '')] with a string pattern: the first occurrence of
    [pat] in [s] is removed. *)
Fixpoint strip_prefix (pat s : string) : option string :=
  match pat, s with
  | EmptyString, _ => Some s
  | String a pat', String b s' =>
      if Ascii.eqb a b then strip_prefix pat' s' else None
  | String _ _, EmptyString => None
  end.

Fixpoint remove_first (pat s : string) : string :=
  match strip_prefix pat s with
  | Some rest => rest
  | None =>
      match s with
      | EmptyString => EmptyString
      | String c s' => String c (remove_first pat s')
      end
  end.

(** The module-level [zip] object: its file entries by name.
    [zip.file(name, content)] stores or replaces the entry [name] (the
    directory entries that the library adds for the parents of a name
    are left out). The object is created once, when the module is
    loaded. *)
Definition zip_new : gmap string string := ∅.

(** The name a walked file is stored under:
    [file.path.replace(path.join(codeDirectory, path.sep), '')], where
    [path.join(codeDirectory, path.sep)] is [codeDirectory] followed by
    one separator (the POSIX one here). *)
Definition entry_name (codeDirectory : string) (file : walk_item) : string :=
  remove_first (codeDirectory ++ "/") (w_path file).

(** The handler of the walk's ['data'] event. *)
Definition add_file (codeDirectory : string)
  (zip : gmap string string) (file : walk_item) : gmap string string :=
  if w_isDirectory file then zip
  else <[ entry_name codeDirectory file := w_content file ]> zip.

(** [_zip] takes the [zip] object as it finds it and leaves it as the
    walk made it; the archive handed to the callback is what
    [zip.generate] serializes, every entry of the object. *)
Definition _zip (codeDirectory : string) (walk : list walk_item)
  (zip : gmap string string) : gmap string string * gmap string string :=
  let zip' := fold_left (add_file codeDirectory) walk zip in
  (zip', zip').

(** ** Promises, tasks and the remote platform *)

Definition time := nat.

Definition is_resolved {A} (o : outcome A) : bool :=
  match o with Resolved _ => true | Rejected _ => false end.

(** The operations of the platform clients that [lib/main.js] calls. *)
Inductive api : Type :=
| getFunction
| createFunction
| updateFunctionCode
| updateFunctionConfiguration
| listEventSourceMappings
| createEventSourceMapping
| updateEventSourceMapping
| deleteEventSourceMapping
| scheduleEventsAdd.

(** One call as the log keeps it: the client's region, the operation and
    its parameters, the instant it was issued, the instant its callback
    ran and what the callback received. *)
Record call : Type := Call {
  c_region : string;
  c_api : api;
  c_params : value;
  c_issued : time;
  c_settled : time;
  c_result : outcome value
}.

(** The remote platform: for a call issued at an instant by the client of
    a region, how long it takes and how it ends. The client's own retries
    are inside the platform: only the final outcome reaches the caller. *)
Definition platform := time -> string -> api -> value -> nat * outcome value.

(** A task that has run: the calls it issued (in program order, task by
    task for concurrent ones), the instant it settled and its outcome. *)
Record settled (A : Type) : Type := Settled {
  calls : list call;
  settled_at : time;
  result : outcome A
}.
Arguments Settled {A} calls settled_at result.
Arguments calls {A} _.
Arguments settled_at {A} _.
Arguments result {A} _.

(** A task is started at an instant. *)
Definition task (A : Type) : Type := time -> settled A.

(** [Promise.resolve(a)] and [Promise.reject(err)]. *)
Definition resolve {A} (a : A) : task A := fun t => Settled [] t (Resolved a).
Definition reject {A} (err : value) : task A := fun t => Settled [] t (Rejected err).

(** A Node-style continuation [(err, data) => ...]: [k] runs at the instant
    [m] settles and receives its outcome. *)
Definition callback {A B} (m : task A) (k : outcome A -> task B) : task B :=
  fun t =>
    let r := m t in
    let r' := k (result r) (settled_at r) in
    Settled (calls r ++ calls r') (settled_at r') (result r').

(** [m.then(f)], and also [(err, data) => { if (err) return reject(err); f(data) }]:
    a rejection skips [f] and is passed on. *)
Definition and_then {A B} (m : task A) (f : A -> task B) : task B :=
  callback m (fun o => match o with
                       | Resolved a => f a
                       | Rejected err => reject err
                       end).

#[global] Instance task_ret : MRet task := @resolve.
#[global] Instance task_bind : MBind task := fun A B f m => and_then m f.

(** Promise.all over settled inputs: the rejection that happens first
    wins (the leftmost one among simultaneous rejections, whose reaction
    is queued first); without a rejection the values are collected in the
    order of the inputs, once the last input has resolved. *)
Fixpoint earliest_rejection {A} (rs : list (settled A)) : option (time * value) :=
  match rs with
  | [] => None
  | r :: rs' =>
      match result r, earliest_rejection rs' with
      | Rejected err, Some (t', err') =>
          if (t' <? settled_at r)%nat then Some (t', err')
          else Some (settled_at r, err)
      | Rejected err, None => Some (settled_at r, err)
      | Resolved _, later => later
      end
  end.

Fixpoint resolved_values {A} (rs : list (settled A)) : list A :=
  match rs with
  | [] => []
  | r :: rs' =>
      match result r with
      | Resolved a => a :: resolved_values rs'
      | Rejected _ => resolved_values rs'
      end
  end.

Definition latest {A} (t : time) (rs : list (settled A)) : time :=
  foldr Nat.max t (map settled_at rs).

(** [Promise.all(ms)]: every input task is started at once, none is
    cancelled; the log holds the calls of all of them, whatever the
    outcome. *)
Definition Promise_all {A} (ms : list (task A)) : task (list A) :=
  fun t =>
    let rs := map (fun m => m t) ms in
    match earliest_rejection rs with
    | Some (t', err) => Settled (concat (map calls rs)) t' (Rejected err)
    | None => Settled (concat (map calls rs)) (latest t rs) (Resolved (resolved_values rs))
    end.

(** A log of calls made strictly one after the other from instant [t]:
    each call is issued at the instant the previous one completed, and
    only after it succeeded. *)
Fixpoint sequential (t : time) (cs : list call) : Prop :=
  match cs with
  | [] => True
  | c :: cs' =>
      c_issued c = t /\ t <= c_settled c
      /\ (cs' <> [] -> is_resolved (c_result c) = true)
      /\ sequential (c_settled c) cs'
  end.

(** A settled task reports failures when it cannot have resolved unless
    every call it made succeeded. *)
Definition reports_failures {A} (r : settled A) : Prop :=
  is_resolved (result r) = true ->
  Forall (fun c => is_resolved (c_result c) = true) (calls r).

Section Platform.

Variable P : platform.

(** [client.op(params, callback)] of a client bound to [region]. *)
Definition request (region : string) (op : api) (params : value) : task value :=
  fun t =>
    let '(latency, o) := P t region op params in
    Settled [Call region op params t (t + latency) o] (t + latency) o.

(** *** [_uploadExisting] and [_uploadNew] *)

Definition _uploadExisting (region : string) (params : value) : task value :=
  request region updateFunctionCode
    (VObj [ ("FunctionName", get "FunctionName" params);
            ("ZipFile", get "ZipFile" (get "Code" params));
            ("Publish", get "Publish" params) ]) ;;
  request region updateFunctionConfiguration
    (VObj [ ("FunctionName", get "FunctionName" params);
            ("Description", get "Description" params);
            ("Handler", get "Handler" params);
            ("MemorySize", get "MemorySize" params);
            ("Role", get "Role" params);
            ("Timeout", get "Timeout" params);
            ("Runtime", get "Runtime" params);
            ("VpcConfig", get "VpcConfig" params);
            ("Environment", get "Environment" params);
            ("DeadLetterConfig", get "DeadLetterConfig" params);
            ("TracingConfig", get "TracingConfig" params) ]).

Definition _uploadNew (region : string) (params : value) : task value :=
  request region createFunction params.

(** *** [_listEventSourceMappings] *)

(** The continuation receives the platform's error, if any; on success
    the mappings of the response, or [[]] when the response has none. *)
Definition existing_mappings (data : value) : value :=
  if truthy data && truthy (get "EventSourceMappings" data)
  then get "EventSourceMappings" data
  else VArr [].

Definition _listEventSourceMappings (region : string) (params : value)
  : task value :=
  data ← request region listEventSourceMappings params;
  resolve (existing_mappings data).

(** *** [_updateEventSources] *)

(** The [switch] inside [updateEventSourceList.map]: the entry, without
    its [type], is the parameter of the matching client call. *)
Definition apply_op (region : string) (updateEventSource : value) : task value :=
  match get "type" updateEventSource with
  | VStr "create" =>
      request region createEventSourceMapping (del "type" updateEventSource)
  | VStr "update" =>
      request region updateEventSourceMapping (del "type" updateEventSource)
  | VStr "delete" =>
      request region deleteEventSourceMapping (del "type" updateEventSource)
  | _ => resolve VUndefined
  end.

(** The call that [apply_op] makes for an entry, as the log keeps it when
    it is issued at [t]: the client method of the entry's type. *)
Definition binding_method (updateEventSource : value) : api :=
  match get "type" updateEventSource with
  | VStr "update" => updateEventSourceMapping
  | VStr "delete" => deleteEventSourceMapping
  | _ => createEventSourceMapping
  end.

Definition binding_call (region : string) (t : time) (updateEventSource : value)
  : call :=
  let method := binding_method updateEventSource in
  let params := del "type" updateEventSource in
  Call region method params t
    (t + fst (P t region method params)) (snd (P t region method params)).

Definition _updateEventSources
  (region : string) (functionName existingEventSourceList eventSourceList : value)
  : task (list value) :=
  if is_nullish eventSourceList then resolve []
  else
    Promise_all
      (map (apply_op region)
         (updateEventSourceList functionName
            (for_in existingEventSourceList) (for_in eventSourceList))).

(** *** [_updateScheduleEvents] *)

(** Modelled from the spec: [lib/schedule_events.js] is not among the
    sources. [scheduleEvents.add(params)] is the deferred upsert of one
    schedule binding: a continuation that, once the promise chain reaches
    it, upserts the rule named by [params] for the function
    [params.FunctionArn], as one interaction with the platform. This is
    the [add] of the specification, whose schedule upserts are strictly
    sequential; [_updateScheduleEvents_with] below takes [add] as a
    parameter instead. *)
Definition scheduleEvents_add (region : string) (params : value)
  : value -> task value :=
  fun _ => request region scheduleEventsAdd params.

Definition _updateScheduleEvents
  (region : string) (functionArn scheduleList : value) : task (list value) :=
  if is_nullish scheduleList then resolve []
  else
    match scheduleList with
    | VArr schedules =>
        let paramsList := map (set "FunctionArn" functionArn) schedules in
        fold_left (fun a b => and_then a b)
          (map (scheduleEvents_add region) paramsList)
          (resolve VUndefined) ;;
        resolve paramsList
    | _ => reject (VStr "TypeError: scheduleList.map is not a function")
    end.

(** The upserts one after the other, each started with the value the
    previous one resolved with: what the [reduce] above amounts to. *)
Fixpoint in_series (region : string) (paramsList : list value) (v : value)
  : task value :=
  match paramsList with
  | [] => resolve v
  | params :: rest =>
      and_then (scheduleEvents_add region params v) (in_series region rest)
  end.

(** *** [_deployToRegion] *)

(** The two branches of the probe's callback. *)
Definition function_does_not_exist (region : string) (params eventSourceList : value)
  : task (list (list value)) :=
  results ← _uploadNew region params;
  Promise_all
    [ _updateEventSources region (get "FunctionName" params)
        (VArr []) (get "EventSourceMappings" eventSourceList);
      _updateScheduleEvents region (get "FunctionArn" results)
        (get "ScheduleEvents" eventSourceList) ].

Definition function_exists (region : string) (params eventSourceList : value)
  : task (list (list value)) :=
  existingEventSourceList ←
    _listEventSourceMappings region
      (VObj [ ("FunctionName", get "FunctionName" params) ]);
  Promise_all
    [ (results ← _uploadExisting region params;
       _updateScheduleEvents region (get "FunctionArn" results)
         (get "ScheduleEvents" eventSourceList));
      _updateEventSources region (get "FunctionName" params)
        existingEventSourceList
        (get "EventSourceMappings" eventSourceList) ].

(** The promise that [_deployToRegion] makes: the probe, whose callback
    takes the first branch on any error of the probe. *)
Definition reconcile (region : string) (params eventSourceList : value)
  : task (list (list value)) :=
  callback
    (request region getFunction
       (VObj [ ("FunctionName", get "FunctionName" params) ]))
    (fun probe =>
       match probe with
       | Rejected _ => function_does_not_exist region params eventSourceList
       | Resolved _ => function_exists region params eventSourceList
       end).

(** The desired state is read before the promise is made: a loader that
    throws makes [_deployToRegion] itself throw. *)
Definition _deployToRegion (h : host) (p : program) (params : value)
  (region : string) : completion (task (list (list value))) :=
  match _eventSourceList h p with
  | Thrown err => Thrown err
  | Returned eventSourceList => Returned (reconcile region params eventSourceList)
  end.

(** *** [deploy] *)

(** [l.map(f)] with an [f] that may throw: the first throw ends the map. *)
Fixpoint map_throwing {A B} (f : A -> completion B) (l : list A)
  : completion (list B) :=
  match l with
  | [] => Returned []
  | a :: l' =>
      match f a with
      | Thrown err => Thrown err
      | Returned b =>
          match map_throwing f l' with
          | Thrown err => Thrown err
          | Returned bs => Returned (b :: bs)
          end
      end
  end.

Definition resultsIsEmpty (results : list (list (list value))) : bool :=
  (length
     (List.filter
        (fun result =>
           0 <? length (List.filter (fun res => 0 <? length res) result))
        results) =? 0)%nat.

(** How [deploy] ends. *)
Inductive report : Type :=
| Uncaught (err : value)
    (* an exception leaves the callback of [_archive] *)
| Results (results : list (list (list value)))
    (* '=> All tasks done. Results follow: ' and the results of all regions *)
| Nothing
    (* every region resolved and no region has a result to show *)
| Error (err : value).
    (* console.log(err), from the [catch] *)

Record deployment : Type := Deployment {
  d_calls : list call;
  d_report : report
}.

(** The regions are deployed to from instant 0, when the archive is
    ready. The desired-state file is the same for every region, so a
    loader that throws does so for the first region, before any call. *)
Definition deploy (h : host) (p : program) : deployment :=
  let regions := split_on "," (region p) in
  match archive h with
  | Rejected err => Deployment [] (Uncaught err)
  | Resolved buffer =>
      match _params h p buffer with
      | Thrown err => Deployment [] (Uncaught err)
      | Returned params =>
          match map_throwing (fun region => _deployToRegion h p params region)
                  regions with
          | Thrown err => Deployment [] (Uncaught err)
          | Returned tasks =>
              let all := Promise_all tasks 0 in
              Deployment (calls all)
                match result all with
                | Resolved results =>
                    if resultsIsEmpty results then Nothing else Results results
                | Rejected err => Error err
                end
          end
      end
  end.

End Platform.

(** ** [_updateScheduleEvents], whatever [scheduleEvents.add] returns *)

(** [_updateScheduleEvents] calls [scheduleEvents.add(params)] for every
    schedule inside [paramsList.map], before the chain is made, and hands
    what each call returned to [a.then(b)]. [then] calls [b] once [a] has
    resolved when [b] is a function; it ignores anything else, a promise
    included, and passes the value of [a] on. What the function does thus
    depends on what [add] returns, and [lib/schedule_events.js] is not
    among the sources: [add] is a parameter here, with the two forms its
    result can take. *)
Inductive added : Type :=
| Continuation (upsert : value -> task value)
    (* a function: nothing was done yet, the chain calls it *)
| Started (upsert : task value).
    (* a promise: the upsert was started when [add] was called *)

Definition _updateScheduleEvents_with (add : value -> added)
  (functionArn scheduleList : value) : task (list value) :=
  if is_nullish scheduleList then resolve []
  else
    match scheduleList with
    | VArr schedules =>
        let paramsList := map (set "FunctionArn" functionArn) schedules in
        fun t =>
          let results := map add paramsList in
          let started :=
            concat (map (fun b => match b with
                                  | Started upsert => calls (upsert t)
                                  | Continuation _ => []
                                  end) results) in
          let chain :=
            fold_left (fun a b => match b with
                                  | Continuation upsert => and_then a upsert
                                  | Started _ => a
                                  end)
              results (resolve VUndefined) in
          let r := (chain ;; resolve paramsList) t in
          Settled (started ++ calls r) (settled_at r) (result r)
    | _ => reject (VStr "TypeError: scheduleList.map is not a function")
    end.

(** [add] returning a continuation, which is what the chain needs to make
    the upserts in series: [scheduleEvents_add] above. *)
Definition deferred_add (P : platform) (region : string) (params : value)
  : added :=
  Continuation (scheduleEvents_add P region params).

(** Modelled from the spec: the upsert of one schedule is one interaction
    with the platform, as in [scheduleEvents_add]. [add] is here as the
    comment in [_updateScheduleEvents] has it ("returns only {} if it
    succeeds"): the upsert is made by the call, and what comes back is
    its promise. *)
Definition eager_add (P : platform) (region : string) (params : value)
  : added :=
  Started (request P region scheduleEventsAdd params).

(** ** The working directory and the build *)

(** *** [_setRunTimeEnvironmentVars] *)

(** The keys that [for (let k in config)] visits when [config] is the
    object returned by [dotenv.parse]; all of them are own properties. *)
Definition keys (o : value) : list string :=
  match o with
  | VObj fs => map fst fs
  | _ => []
  end.

(** [process.env] is the object [env]; the function returns it as it
    leaves it. *)
Definition _setRunTimeEnvironmentVars (h : host) (p : program) (env : value)
  : completion value :=
  match readConfig h (configFile p) with
  | Thrown err => Thrown err
  | Returned config =>
      Returned
        (fold_left (fun env k => set k (get k config) env) (keys config) env)
  end.

(** *** [_createSampleFile] and [setup] *)

(** What a path of the file system holds. *)
Inductive node : Type :=
| File (content : string)
| Directory.

Definition when_returned {A B} (c : completion A) (k : A -> completion B)
  : completion B :=
  match c with
  | Returned a => k a
  | Thrown err => Thrown err
  end.

Section WorkingDirectory.

(** [path.join] of two segments; [process.cwd()] and [__dirname]; and the
    error, if any, with which [fs.writeFileSync] refuses to write a path
    (a missing parent directory, a permission). *)
Variable path_join : string -> string -> string.
Variables cwd dirname : string.
Variable write_error : gmap string node -> string -> option value.

Definition existsSync (fs : gmap string node) (path : string) : bool :=
  bool_decide (is_Some (fs !! path)).

Definition readFileSync (fs : gmap string node) (path : string)
  : completion string :=
  match fs !! path with
  | Some (File content) => Returned content
  | Some Directory => Thrown (VStr "EISDIR")
  | None => Thrown (VStr "ENOENT")
  end.

Definition writeFileSync (fs : gmap string node) (path content : string)
  : completion (gmap string node) :=
  match write_error fs path with
  | Some err => Thrown err
  | None => Returned (<[ path := File content ]> fs)
  end.

Definition _createSampleFile (file boilerplateName : string)
  (fs : gmap string node) : completion (gmap string node) :=
  let exampleFile := path_join cwd file in
  let boilerplateFile :=
    path_join dirname
      ((if truthy (VStr boilerplateName) then boilerplateName else file)
       ++ ".example") in
  if negb (existsSync fs exampleFile) then
    when_returned (readFileSync fs boilerplateFile)
      (writeFileSync fs exampleFile)
  else Returned fs.

Definition setup (p : program) (fs : gmap string node)
  : completion (gmap string node) :=
  when_returned (_createSampleFile ".env" ".env" fs) (fun fs =>
  when_returned (_createSampleFile (eventFile p) "event.json" fs) (fun fs =>
  when_returned (_createSampleFile "deploy.env" "deploy.env" fs) (fun fs =>
  when_returned (_createSampleFile (contextFile p) "context.json" fs) (fun fs =>
  _createSampleFile "event_sources.json" "event_sources.json" fs)))).

(** The paths that [setup] makes sure exist. *)
Definition sample_files (p : program) : list string :=
  map (path_join cwd)
    [ ".env"; eventFile p; "deploy.env"; contextFile p; "event_sources.json" ].

(** *** The build: [_archive] and the steps it chains *)

(** The options of [program] that only the build reads: absent
    ([undefined]) or what the command line gave. *)
Record packaging : Type := Packaging {
  deployZipfile : value;
  prebuiltDirectory : value;
  sourceDirectory : value;
  dockerImage : value
}.

(** What the build does to the machine, one constructor per asynchronous
    operation: [fs.readFile], [fs.remove], [fs.mkdirs], a whole copy by
    [_fileCopy] or [_rsync] (named by [copyFunction]), [execFile], [exec]
    and a whole [_zip]. *)
Inductive action : Type :=
| ReadFile (file : value)
| Remove (dir : string)
| Mkdirs (dir : string)
| Copy (copyFunction : string) (src : value) (dest : string)
    (excludeNodeModules : bool)
| ExecFile (command : string) (options : list value)
| Exec (cmd cwd : string)
| Zip (codeDirectory : string).

(** The machine as the build meets it. What exists and how an operation
    ends depend on what was done before: the oracles take the actions
    made so far. An operation ends with data or with an error. A copy
    fails in two ways: [_fileCopy] and [_rsync] throw before they start
    when the source or an exclusion is not a string or an exclusion makes
    no regular expression, and they hand the error of [fs.mkdirs], of
    [fs.copy] or of [rsync] to their callback; [copy_throws] tells which
    way a failed copy went. *)
Record machine : Type := Machine {
  process_platform : string;
  NODE_LAMBDA_COPY_FUNCTION : value;
  exists_after : list action -> value -> bool;
  perform : list action -> action -> outcome value;
  copy_throws : list action -> action -> bool
}.

(** How a build ends: its callback is called, with an error or with the
    archive, or an exception escapes and the callback is never called. *)
Inductive ending : Type :=
| CalledBack (o : outcome value)
| Raised (err : value).

Record build : Type := Build {
  b_actions : list action;
  b_ending : ending
}.

(** A Node-style callback, called after the actions made so far. *)
Definition continuation : Type := outcome value -> list action -> build.

(** [path.resolve('.', '.lambda')]: the directory [.lambda] of the working
    directory. *)
Definition _codeDirectory : string := path_join cwd ".lambda".

(** The error [new Error('No such Zipfile [' + file + ']')], and the
    error that [_postInstallScript] makes of a failed script (its error
    and its outputs). *)
Definition no_such_zipfile (file : value) : value :=
  VObj [ ("message", VStr "No such Zipfile"); ("file", file) ].

Definition post_install_error (failure : value) : value :=
  VObj [ ("message", VStr "post install script failed"); ("cause", failure) ].

(** [_fileCopy] and [_rsync] call back with [true], or with the error of
    the copy; an exception that they throw before the copy starts escapes
    and the callback is never called. *)
Definition copying (m : machine) (copyFunction : string) (src : value)
  (dest : string) (excludeNodeModules : bool)
  (h : list action) (callback : continuation) : build :=
  let a := Copy copyFunction src dest excludeNodeModules in
  match perform m h a with
  | Rejected err =>
      if copy_throws m h a then Build (h ++ [a]) (Raised err)
      else callback (Rejected err) (h ++ [a])
  | Resolved _ => callback (Resolved (VBool true)) (h ++ [a])
  end.

(** [_zip] as a step: it only ever calls back with the archive; an
    exception of the walk or of a read escapes. *)
Definition zipping (m : machine) (codeDirectory : string)
  (h : list action) (callback : continuation) : build :=
  match perform m h (Zip codeDirectory) with
  | Rejected err => Build (h ++ [Zip codeDirectory]) (Raised err)
  | Resolved data => callback (Resolved data) (h ++ [Zip codeDirectory])
  end.

(** The command and the arguments that [_npmInstall] hands to
    [execFile]. *)
Definition npm_params (m : machine) (b : packaging) (codeDirectory : string)
  : string * list value :=
  let dockerBaseOptions :=
    [ VStr "run"; VStr "--rm"; VStr "-v"; VStr (codeDirectory ++ ":/var/task");
      dockerImage b;
      VStr "npm"; VStr "-s"; VStr "install"; VStr "--production" ] in
  let npmInstallBaseOptions :=
    [ VStr "-s"; VStr "install"; VStr "--production";
      VStr "--prefix"; VStr codeDirectory ] in
  if truthy (dockerImage b) then
    if (process_platform m =? "win32")%string then
      ("cmd.exe", [ VStr "/c"; VStr "docker" ] ++ dockerBaseOptions)
    else ("docker", dockerBaseOptions)
  else
    if (process_platform m =? "win32")%string then
      ("cmd.exe",
       ([ VStr "/c"; VStr "npm" ] ++ npmInstallBaseOptions)
       ++ [ VStr "--cwd"; VStr codeDirectory ])
    else ("npm", npmInstallBaseOptions).

Definition _npmInstall (m : machine) (b : packaging) (codeDirectory : string)
  (h : list action) (callback : continuation) : build :=
  let params := npm_params m b codeDirectory in
  let a := ExecFile (fst params) (snd params) in
  match perform m h a with
  | Rejected err => callback (Rejected err) (h ++ [a])
  | Resolved _ => callback (Resolved (VBool true)) (h ++ [a])
  end.

Definition _postInstallScript (m : machine) (p : program)
  (codeDirectory : string) (h : list action) (callback : continuation)
  : build :=
  let scriptFilename := "post_install.sh" in
  let cmd :=
    (path_join codeDirectory scriptFilename ++ " " ++ environment p)%string in
  let filePath := path_join codeDirectory scriptFilename in
  if negb (exists_after m h (VStr filePath)) then callback (Resolved VUndefined) h
  else
    let a := Exec cmd codeDirectory in
    match perform m h a with
    | Rejected failure =>
        callback (Rejected (post_install_error failure)) (h ++ [a])
    | Resolved _ => callback (Resolved VUndefined) (h ++ [a])
    end.

(** An error of [fs.remove] or [fs.mkdirs] is thrown from inside their
    callbacks. *)
Definition _cleanDirectory (m : machine) (codeDirectory : string)
  (h : list action) (callback : continuation) : build :=
  match perform m h (Remove codeDirectory) with
  | Rejected err => Build (h ++ [Remove codeDirectory]) (Raised err)
  | Resolved _ =>
      let h := h ++ [Remove codeDirectory] in
      match perform m h (Mkdirs codeDirectory) with
      | Rejected err => Build (h ++ [Mkdirs codeDirectory]) (Raised err)
      | Resolved _ => callback (Resolved (VBool true)) (h ++ [Mkdirs codeDirectory])
      end
  end.

Definition _readArchive (m : machine) (b : packaging)
  (h : list action) (archiveCallback : continuation) : build :=
  if negb (exists_after m h (deployZipfile b)) then
    archiveCallback (Rejected (no_such_zipfile (deployZipfile b))) h
  else
    archiveCallback (perform m h (ReadFile (deployZipfile b)))
      (h ++ [ReadFile (deployZipfile b)]).

Definition copyFunction (m : machine) : string :=
  if strict_eq (NODE_LAMBDA_COPY_FUNCTION m) (VStr "rsync") then "_rsync"
  else "_fileCopy".

Definition _archivePrebuilt (m : machine) (b : packaging)
  (h : list action) (archiveCallback : continuation) : build :=
  let codeDirectory := _codeDirectory in
  copying m (copyFunction m) (prebuiltDirectory b) codeDirectory false h
    (fun o h =>
       match o with
       | Rejected err => archiveCallback (Rejected err) h
       | Resolved _ => zipping m codeDirectory h archiveCallback
       end).

(** [s.replace(/\/$/, '')]. *)
Fixpoint strip_trailing_slash (s : string) : string :=
  match s with
  | EmptyString => EmptyString
  | String c EmptyString => if Ascii.eqb c "/" then EmptyString else s
  | String c s' => String c (strip_trailing_slash s')
  end.

(** [program.sourceDirectory ? program.sourceDirectory.replace(/\/$/, '')
    : '.']: a truthy value that is not a string has no [replace]. *)
Definition lambdaSrcDirectory (b : packaging) : completion string :=
  if truthy (sourceDirectory b) then
    match sourceDirectory b with
    | VStr s => Returned (strip_trailing_slash s)
    | _ => Thrown (VStr "TypeError")
    end
  else Returned ".".

Definition _buildAndArchive (m : machine) (p : program) (b : packaging)
  (h : list action) (archiveCallback : continuation) : build :=
  let codeDirectory := _codeDirectory in
  match lambdaSrcDirectory b with
  | Thrown err => Build h (Raised err)
  | Returned lambdaSrcDirectory =>
      _cleanDirectory m codeDirectory h (fun o h =>
        match o with
        | Rejected err => archiveCallback (Rejected err) h
        | Resolved _ =>
            copying m (copyFunction m) (VStr lambdaSrcDirectory) codeDirectory
              true h (fun o h =>
              match o with
              | Rejected err => archiveCallback (Rejected err) h
              | Resolved _ =>
                  _npmInstall m b codeDirectory h (fun o h =>
                    match o with
                    | Rejected err => archiveCallback (Rejected err) h
                    | Resolved _ =>
                        _postInstallScript m p codeDirectory h (fun o h =>
                          match o with
                          | Rejected err => archiveCallback (Rejected err) h
                          | Resolved _ =>
                              zipping m codeDirectory h archiveCallback
                          end)
                    end)
              end)
        end)
  end.

Definition _archive (m : machine) (p : program) (b : packaging)
  (h : list action) (archiveCallback : continuation) : build :=
  if truthy (deployZipfile b) && exists_after m h (deployZipfile b) then
    _readArchive m b h archiveCallback
  else if truthy (prebuiltDirectory b) then
    _archivePrebuilt m b h archiveCallback
  else _buildAndArchive m p b h archiveCallback.

(** [_archive] on a machine where nothing was done yet, with a callback
    that only takes what it is given. *)
Definition archived (m : machine) (p : program) (b : packaging) : build :=
  _archive m p b [] (fun o h => Build h (CalledBack o)).

End WorkingDirectory.


(** Every action of [actions], made after [h], succeeded, except possibly
    the last one. *)
Fixpoint stops_at_first_failure (m : machine) (h actions : list action)
  : bool :=
  match actions with
  | [] => true
  | a :: rest =>
      match rest with
      | [] => true
      | _ => is_resolved (perform m h a)
             && stops_at_first_failure m (h ++ [a]) rest
      end
  end.

(** ** Notions used to state further properties *)

(** How often a character occurs in a string. *)
Fixpoint occurrences (c : ascii) (s : string) : nat :=
  match s with
  | EmptyString => 0
  | String c' s' => (if Ascii.eqb c' c then 1 else 0) + occurrences c s'
  end.

(** A name made of the characters that the platform allows. *)
Fixpoint valid_name (s : string) : bool :=
  match s with
  | EmptyString => true
  | String c s' => allowed_in_name c && valid_name s'
  end.

(** Every call of a settled task started at [t] is made by the client of
    [region], for an operation and parameters that [Q] admits, not before
    [t], and the task does not settle before [t]. *)
Definition within {A} (region : string) (Q : api -> value -> Prop) (t : time)
  (r : settled A) : Prop :=
  t <= settled_at r
  /\ Forall (fun c => c_region c = region /\ Q (c_api c) (c_params c)
                     /\ t <= c_issued c /\ c_issued c <= c_settled c)
       (calls r).

(** What a reconciliation may send for a function with parameters
    [params]: the probe and the listing name the function; the create
    carries the parameters as they are; the code update names the function
    and carries the archive; the configuration update names the function
    and carries no code; a mapping create or update names the function, a
    mapping delete carries the UUID only, and none of the three carries the
    [type] of its entry. *)
Definition sent_for (params : value) (op : api) (q : value) : Prop :=
  match op with
  | getFunction | listEventSourceMappings =>
      q = VObj [ ("FunctionName", get "FunctionName" params) ]
  | createFunction => q = params
  | updateFunctionCode =>
      get "FunctionName" q = get "FunctionName" params
      /\ get "ZipFile" q = get "ZipFile" (get "Code" params)
  | updateFunctionConfiguration =>
      get "FunctionName" q = get "FunctionName" params
      /\ get "ZipFile" q = VUndefined /\ get "Code" q = VUndefined
  | createEventSourceMapping | updateEventSourceMapping =>
      get "FunctionName" q = get "FunctionName" params
      /\ get "type" q = VUndefined
  | deleteEventSourceMapping => q = VObj [ ("UUID", get "UUID" q) ]
  | scheduleEventsAdd => True
  end.

Definition is_probe (c : call) : bool :=
  match c_api c with getFunction => true | _ => false end.

Definition is_binding_call (c : call) : bool :=
  match c_api c with
  | createEventSourceMapping | updateEventSourceMapping
  | deleteEventSourceMapping => true
  | _ => false
  end.

(** The operations of the branch taken for a function that does not
    exist, and of the branch taken for one that exists. *)
Definition creating (op : api) : Prop :=
  op = createFunction \/ op = createEventSourceMapping \/ op = scheduleEventsAdd.

Definition updating (op : api) : Prop :=
  op <> getFunction /\ op <> createFunction.

(** The calls that define the function, [createFunction] and
    [updateFunctionConfiguration], carry [runtime] as its [Runtime]. *)
Definition forwards_runtime (runtime : value) (op : api) (q : value) : Prop :=
  match op with
  | createFunction | updateFunctionConfiguration => get "Runtime" q = runtime
  | _ => True
  end.

(** What [_updateScheduleEvents] resolves with, when it resolves. *)
Definition schedule_results (functionArn scheduleList : value) : list value :=
  match scheduleList with
  | VArr schedules => map (set "FunctionArn" functionArn) schedules
  | _ => []
  end.

(** ** Sets of bindings keyed by their source ARN *)

Definition arn_of (binding : value) : option string :=
  match arn binding with
  | VStr s => Some s
  | _ => None
  end.

(** The ARNs of a collection of bindings. *)
Definition arns (bindings : list value) : gset string :=
  list_to_set (omap arn_of bindings).

(** A collection is keyed by source ARN when every binding has a string
    ARN and no two bindings have the same one. *)
Definition keyed (bindings : list value) : Prop :=
  Forall (fun b => is_Some (arn_of b)) bindings /\ NoDup (map arn bindings).

(** ** Sample inputs *)

(** An event-source binding with the given ARN and further properties. *)
Definition binding (a : string) (more : list (string * value)) : value :=
  VObj (("EventSourceArn", VStr a) :: more).

(** The scenario of the specification: A is desired and exists (as u1),
    B exists only (as u2). *)
Definition desired_A : list value :=
  [ binding "A" [ ("Enabled", VBool true); ("BatchSize", VNum 10) ] ].

Definition existing_AB : list value :=
  [ binding "A" [ ("UUID", VStr "u1"); ("BatchSize", VNum 5) ];
    binding "B" [ ("UUID", VStr "u2") ] ].

Definition desired_AB : list value := [ binding "A" []; binding "B" [] ].

(** A local machine with a built archive, whose event-source file reads
    as [document]; nothing else is there to read. *)
Definition laptop (document : completion value) : host :=
  Host (fun _ => document)
       (fun _ => Thrown (VStr "ENOENT"))
       (fun _ => VUndefined)
       (Resolved (VStr "zip")).

Definition options (runtime eventSourceFile : value) (region : string) : program :=
  Program "fn" "" "" "index.handler" (VStr "role") runtime VUndefined
    (VNum 128) (VNum 3) (VBool false) "" "" VUndefined VUndefined VUndefined
    eventSourceFile "event.json" "context.json" region.

(** The parameters of the function, in the samples that start below
    [deploy]. *)
Definition fn_params : value :=
  VObj [ ("FunctionName", VStr "fn"); ("Code", VObj [ ("ZipFile", VStr "zip") ]) ].

(** An account where the function does not exist yet; the create is
    denied in us-west-2 and succeeds elsewhere. *)
Definition west_denied : platform :=
  fun t region op params =>
    match op with
    | getFunction => (1, Rejected (VStr "ResourceNotFoundException"))
    | createFunction =>
        if (region =? "us-west-2")%string
        then (2, Rejected (VStr "AccessDeniedException"))
        else (3, Resolved (VObj [ ("FunctionArn", VStr "arn:fn") ]))
    | _ => (1, Resolved (VObj []))
    end.

(** An account where the function does not exist yet and the source B
    cannot be subscribed to. *)
Definition source_B_invalid : platform :=
  fun t region op params =>
    match op with
    | getFunction => (1, Rejected (VStr "ResourceNotFoundException"))
    | createFunction => (3, Resolved (VObj [ ("FunctionArn", VStr "arn:fn") ]))
    | createEventSourceMapping =>
        if strict_eq (get "EventSourceArn" params) (VStr "B")
        then (1, Rejected (VStr "InvalidParameterValueException"))
        else (2, Resolved (VObj [ ("UUID", VStr "u1") ]))
    | _ => (1, Resolved (VObj []))
    end.

(** An account that cannot be probed (the probe is denied, which says
    nothing about the function), but where functions can be created. *)
Definition probe_denied : platform :=
  fun t region op params =>
    match op with
    | getFunction => (1, Rejected (VStr "AccessDeniedException"))
    | createFunction => (3, Resolved (VObj [ ("FunctionArn", VStr "arn:fn") ]))
    | _ => (1, Resolved (VObj []))
    end.

(** An account where the function exists, without mappings, and its code
    cannot be updated. *)
Definition update_denied : platform :=
  fun t region op params =>
    match op with
    | getFunction => (1, Resolved (VObj [ ("Configuration", VObj []) ]))
    | listEventSourceMappings =>
        (1, Resolved (VObj [ ("EventSourceMappings", VArr []) ]))
    | updateFunctionCode => (2, Rejected (VStr "AccessDeniedException"))
    | _ => (1, Resolved (VObj []))
    end.

(** An account where the function exists with the mappings of the
    scenario, and every call succeeds. *)
Definition established : platform :=
  fun t region op params =>
    match op with
    | listEventSourceMappings =>
        (1, Resolved (VObj [ ("EventSourceMappings", VArr existing_AB) ]))
    | updateFunctionConfiguration =>
        (2, Resolved (VObj [ ("FunctionArn", VStr "arn:fn") ]))
    | _ => (1, Resolved (VObj []))
    end.

(** Two builds in one process: the files walked below the code directory. *)
Definition first_walk : list walk_item :=
  [ WalkItem "/w/.lambda/lib" true "";
    WalkItem "/w/.lambda/lib/old.js" false "old";
    WalkItem "/w/.lambda/index.js" false "v1" ].

(** The first walk as [fs.walk] emits it, the code directory itself
    first. *)
Definition whole_walk : list walk_item :=
  WalkItem "/w/.lambda" true "" :: first_walk.

Definition second_walk : list walk_item :=
  [ WalkItem "/w/.lambda/index.js" false "v2" ].

(** An account where the rule of the nightly schedule cannot be set;
    every upsert takes five instants. *)
Definition rule_denied : platform :=
  fun t region op params =>
    match op with
    | scheduleEventsAdd =>
        (5, if strict_eq (get "ScheduleName" params) (VStr "nightly")
            then Rejected (VStr "AccessDeniedException")
            else Resolved (VObj []))
    | _ => (1, Resolved (VObj []))
    end.

Definition two_schedules : list value :=
  [ VObj [ ("ScheduleName", VStr "nightly") ];
    VObj [ ("ScheduleName", VStr "hourly") ] ].

(** A desired state with one schedule and no event source. *)
Definition nightly : value :=
  VObj [ ("ScheduleName", VStr "nightly");
         ("ScheduleExpression", VStr "rate(1 day)") ].

Definition nightly_only : value :=
  VObj [ ("EventSourceMappings", VArr []); ("ScheduleEvents", VArr [ nightly ]) ].

(** A local machine whose only configuration file, [deploy.env], sets
    one variable, and the options that name that file. *)
Definition configured : host :=
  Host (fun _ => Thrown (VStr "ENOENT"))
       (fun path => if strict_eq path (VStr "deploy.env")
                    then Returned (VObj [ ("STAGE", VStr "dev") ])
                    else Thrown (VStr "ENOENT"))
       (fun _ => VUndefined)
       (Resolved (VStr "zip")).

Definition options_with_config : program :=
  Program "fn" "" "" "index.handler" (VStr "role") (VStr "nodejs6.10") VUndefined
    (VNum 128) (VNum 3) (VBool false) "" "" (VStr "deploy.env") VUndefined
    VUndefined VUndefined "event.json" "context.json" "us-east-1".

(** [path.join] of a resolved directory and a relative name, on POSIX. *)
Definition posix_join (dir name : string) : string := (dir ++ "/" ++ name)%string.

(** A project in [/w] that has its own [.env], beside the boilerplates
    of the installed package in [/lib]. *)
Definition project_files : gmap string node :=
  list_to_map
    [ ("/w/.env", File "AWS_REGION=eu-west-1");
      ("/lib/.env.example", File "AWS_REGION=us-east-1");
      ("/lib/event.json.example", File "{}");
      ("/lib/deploy.env.example", File "");
      ("/lib/context.json.example", File "{}");
      ("/lib/event_sources.json.example", File "[]") ].

(** What [setup] adds to that project. *)
Definition project_after_setup : gmap string node :=
  <[ "/w/event_sources.json" := File "[]" ]>
    (<[ "/w/context.json" := File "{}" ]>
       (<[ "/w/deploy.env" := File "" ]>
          (<[ "/w/event.json" := File "{}" ]> project_files))).

(** A Linux machine where every action succeeds and the sources bring no
    post-install script. *)
Definition build_host : machine :=
  Machine "linux" VUndefined (fun _ _ => false)
    (fun _ _ => Resolved (VStr "done")) (fun _ _ => false).

(** * Properties *)

#[local] Set Warnings "-clear-no-such-hyp".

(** ** The binding operations *)

Lemma arn_of_Some b s : arn_of b = Some s <-> arn b = VStr s.
Proof.
  unfold arn_of. destruct (arn b); split; intros H; congruence.
Qed.

Lemma strict_eq_str s v : strict_eq (VStr s) v = true <-> v = VStr s.
Proof.
  destruct v; simpl; split; try congruence.
  - intros H. apply String.eqb_eq in H. congruence.
  - intros [= ->]. apply String.eqb_refl.
Qed.

Lemma strict_eq_str_sym s v : strict_eq v (VStr s) = strict_eq (VStr s) v.
Proof. destruct v; simpl; try reflexivity. apply String.eqb_sym. Qed.

Lemma elem_of_arns s l : s ∈ arns l <-> exists b, b ∈ l /\ arn b = VStr s.
Proof.
  unfold arns. rewrite elem_of_list_to_set, list_elem_of_omap.
  split; intros (b & Hb & H); exists b; split; try done; by apply arn_of_Some.
Qed.

Lemma arns_cons b l s : arn b = VStr s -> arns (b :: l) = ({[ s ]} ∪ arns l).
Proof.
  intros H. unfold arns. simpl. apply arn_of_Some in H. rewrite H. done.
Qed.

Lemma keyed_cons b l :
  keyed (b :: l) -> exists s, arn b = VStr s /\ (s ∉ arns l) /\ keyed l.
Proof.
  intros [Hs Hn]. inversion Hs as [|? ? [s Hb] Hl]; subst.
  apply list.NoDup_cons in Hn as [Hnotin Hn].
  exists s. apply arn_of_Some in Hb. split; [done|]. split; [|by split].
  intros (b' & Hb' & Harn)%elem_of_arns. apply Hnotin.
  rewrite Hb, <- Harn. by apply list_elem_of_fmap_2.
Qed.

(** Matching by [===] is membership of the ARN. *)
Lemma matches_arns s a l :
  a = VStr s ->
  existsb (fun e => strict_eq a (arn e)) l = bool_decide (s ∈ arns l).
Proof.
  intros ->. induction l as [|e l IH]; cbn [existsb].
  - symmetry. apply bool_decide_eq_false. unfold arns; simpl. set_solver.
  - rewrite IH. destruct (strict_eq (VStr s) (arn e)) eqn:He; simpl.
    + symmetry. apply bool_decide_eq_true. apply elem_of_arns.
      exists e. split; [left|]. by apply strict_eq_str.
    + apply bool_decide_ext. rewrite !elem_of_arns. split.
      * intros (b & Hb & H). exists b. split; [by right|done].
      * intros (b & Hb & H). exists b. split; [|done].
        apply elem_of_cons in Hb as [->|Hb]; [|done].
        apply strict_eq_str in H. congruence.
Qed.

Lemma find_existing_matches a l :
  is_Some (find_existing a l) <->
  existsb (fun e => strict_eq a (arn e)) l = true.
Proof.
  induction l as [|e l IH]; simpl.
  - split; [intros [? [=]]|discriminate].
  - destruct (strict_eq a (arn e)); simpl; [split; eauto|done].
Qed.

Lemma classify_matched E d e :
  find_existing (arn d) E = Some e -> matched E d = true.
Proof. intros H. apply find_existing_matches. by rewrite H. Qed.

Lemma classify_unmatched E d :
  find_existing (arn d) E = None -> matched E d = false.
Proof.
  intros H. destruct (matched E d) eqn:Hm; [|done].
  apply find_existing_matches in Hm as [? Hm]. congruence.
Qed.

Lemma has_type_classify fn E d :
  has_type "create" (classify fn E d) = negb (matched E d)
  /\ has_type "update" (classify fn E d) = matched E d
  /\ has_type "delete" (classify fn E d) = false.
Proof.
  unfold classify. destruct (find_existing (arn d) E) as [e|] eqn:Hf.
  - rewrite (classify_matched E d e Hf). done.
  - rewrite (classify_unmatched E d Hf). done.
Qed.

Lemma count_type_app t l1 l2 :
  count_type t (l1 ++ l2) = count_type t l1 + count_type t l2.
Proof. unfold count_type. by rewrite List.filter_app, length_app. Qed.

Lemma count_type_map t (g : value -> value) l :
  count_type t (map g l) = length (List.filter (fun a => has_type t (g a)) l).
Proof.
  unfold count_type. induction l as [|a l IH]; simpl; [done|].
  destruct (has_type t (g a)); simpl; by rewrite IH.
Qed.

Lemma length_filter_ext {A} (f g : A -> bool) l :
  (forall a, a ∈ l -> f a = g a) ->
  length (List.filter f l) = length (List.filter g l).
Proof.
  intros H. f_equal. apply List.filter_ext_in.
  intros a Ha. apply H. by apply list_elem_of_In.
Qed.

Lemma length_filter_true {A} (l : list A) :
  length (List.filter (fun _ => true) l) = length l.
Proof. induction l; simpl; congruence. Qed.

Lemma length_filter_false {A} (l : list A) :
  length (List.filter (fun _ => false) l) = 0.
Proof. induction l; simpl; congruence. Qed.

Lemma size_add_fresh (s : string) (A : gset string) :
  s ∉ A -> size ({[s]} ∪ A) = S (size A).
Proof.
  intros H. rewrite size_union; [|set_solver]. by rewrite size_singleton.
Qed.

(** Counting the bindings of a keyed collection whose ARN is in a set. *)
Lemma count_in_set l (X : gset string) (f : value -> bool) :
  keyed l ->
  (forall b s, b ∈ l -> arn b = VStr s -> f b = bool_decide (s ∈ X)) ->
  length (List.filter f l) = size (arns l ∩ X)
  /\ length (List.filter (fun b => negb (f b)) l) = size (arns l ∖ X).
Proof.
  induction l as [|b l IH]; intros Hk Hf.
  - unfold arns; simpl. split; symmetry; apply size_empty_iff; set_solver.
  - apply keyed_cons in Hk as (s & Hb & Hs & Hk).
    destruct IH as [IH1 IH2]; [done| |].
    { intros b' s' Hb'. apply Hf. by right. }
    rewrite (arns_cons b l s Hb). simpl.
    rewrite (Hf b s (list_elem_of_here _ _) Hb).
    destruct (bool_decide_reflect (s ∈ X)) as [Hin|Hout]; simpl.
    + rewrite IH1, IH2. split.
      * replace (({[s]} ∪ arns l) ∩ X) with ({[s]} ∪ (arns l ∩ X))
          by set_solver.
        symmetry. apply size_add_fresh. set_solver.
      * f_equal. set_solver.
    + rewrite IH1, IH2. split.
      * f_equal. set_solver.
      * replace (({[s]} ∪ arns l) ∖ X) with ({[s]} ∪ (arns l ∖ X))
          by set_solver.
        symmetry. apply size_add_fresh. set_solver.
Qed.

Lemma matched_arns E d s :
  arn d = VStr s -> matched E d = bool_decide (s ∈ arns E).
Proof. intros H. unfold matched. by apply matches_arns. Qed.

Lemma is_desired_arns D e s :
  arn e = VStr s -> is_desired D e = bool_decide (s ∈ arns D).
Proof.
  intros H. unfold is_desired.
  rewrite <- (matches_arns s (VStr s) D eq_refl).
  induction D as [|d D IH]; cbn [existsb]; [done|].
  by rewrite IH, H, strict_eq_str_sym.
Qed.

Lemma find_existing_keyed E e s :
  keyed E -> e ∈ E -> arn e = VStr s -> find_existing (VStr s) E = Some e.
Proof.
  induction E as [|e0 E IH]; intros Hk He Hs; [by apply elem_of_nil in He|].
  apply keyed_cons in Hk as (s0 & Hs0 & Hnotin & Hk). cbn [find_existing].
  destruct (strict_eq (VStr s) (arn e0)) eqn:Heq.
  - apply strict_eq_str in Heq.
    apply elem_of_cons in He as [->|He]; [done|].
    exfalso. apply Hnotin. apply elem_of_arns. exists e. split; [done|].
    congruence.
  - apply elem_of_cons in He as [->|He].
    + apply (proj2 (strict_eq_str s (arn e0))) in Hs. congruence.
    + by apply IH.
Qed.

Lemma length_filter_split {A} (f : A -> bool) l :
  length (List.filter f l) + length (List.filter (fun a => negb (f a)) l)
  = length l.
Proof.
  induction l as [|a l IH]; simpl; [done|].
  destruct (f a); simpl; lia.
Qed.

Lemma size_union_three (X Y : gset string) :
  size (X ∪ Y) = size (X ∖ Y) + size (X ∩ Y) + size (Y ∖ X).
Proof.
  rewrite <- !size_union by set_solver. f_equal.
  apply set_eq. intros x.
  destruct (decide (x ∈ X)), (decide (x ∈ Y)); set_solver.
Qed.

(** C2. For a desired collection D and an existing collection E, each
    keyed by source ARN, the operation list has exactly |D\E| creates,
    |D∩E| updates and |E\D| deletes and nothing else (one operation per
    ARN of D ∪ E); the update of an ARN in both carries the desired
    settings and the UUID of the existing mapping, an ARN only in D gets
    its create, an ARN only in E gets the delete of its UUID. The last
    three parts say what the operation holds, property by property: an
    update has the UUID of the existing mapping with the same ARN, a
    create names the new ARN and has no UUID, a delete has the UUID of
    the mapping that is no longer desired. *)
Theorem updateEventSourceList_partitions (functionName : value) (D E : list value) :
  keyed D -> keyed E ->
  let ops := updateEventSourceList functionName E D in
  count_type "create" ops = size (arns D ∖ arns E)
  /\ count_type "update" ops = size (arns D ∩ arns E)
  /\ count_type "delete" ops = size (arns E ∖ arns D)
  /\ length ops = size (arns D ∪ arns E)
  /\ (forall d e, d ∈ D -> e ∈ E -> arn d = arn e ->
      update_op functionName d e ∈ ops)
  /\ (forall d, d ∈ D -> (forall e, e ∈ E -> arn d <> arn e) ->
      create_op functionName d ∈ ops)
  /\ (forall e, e ∈ E -> (forall d, d ∈ D -> arn d <> arn e) ->
      delete_op e ∈ ops)
  /\ (forall d e, d ∈ D -> e ∈ E -> arn d = arn e ->
      exists op, op ∈ ops
        /\ has_type "update" op = true
        /\ get "UUID" op = get "UUID" e
        /\ get "FunctionName" op = functionName
        /\ get "Enabled" op = get "Enabled" d
        /\ get "BatchSize" op = get "BatchSize" d)
  /\ (forall d, d ∈ D -> (forall e, e ∈ E -> arn d <> arn e) ->
      exists op, op ∈ ops
        /\ has_type "create" op = true
        /\ get "EventSourceArn" op = arn d
        /\ get "FunctionName" op = functionName
        /\ get "UUID" op = VUndefined)
  /\ (forall e, e ∈ E -> (forall d, d ∈ D -> arn d <> arn e) ->
      exists op, op ∈ ops
        /\ has_type "delete" op = true
        /\ get "UUID" op = get "UUID" e).
Proof.
  intros HD HE ops.
  cut (count_type "create" ops = size (arns D ∖ arns E)
       /\ count_type "update" ops = size (arns D ∩ arns E)
       /\ count_type "delete" ops = size (arns E ∖ arns D)
       /\ length ops = size (arns D ∪ arns E)
       /\ (forall d e, d ∈ D -> e ∈ E -> arn d = arn e ->
           update_op functionName d e ∈ ops)
       /\ (forall d, d ∈ D -> (forall e, e ∈ E -> arn d <> arn e) ->
           create_op functionName d ∈ ops)
       /\ (forall e, e ∈ E -> (forall d, d ∈ D -> arn d <> arn e) ->
           delete_op e ∈ ops)).
  { intros (Hc & Hu & Hd & Hl & Hup & Hcr & Hde).
    split; [done|]. split; [done|]. split; [done|]. split; [done|].
    split; [done|]. split; [done|]. split; [done|]. split; [|split].
    - intros d e Hd' He' Harn. exists (update_op functionName d e).
      split; [by apply Hup|]. by cbn.
    - intros d Hd' Hno. exists (create_op functionName d).
      split; [by apply Hcr|]. by cbn.
    - intros e He' Hno. exists (delete_op e).
      split; [by apply Hde|]. by cbn. }
  destruct (count_in_set D (arns E) (matched E) HD) as [Hupd Hcre].
  { intros d s _ Hs. by apply matched_arns. }
  destruct (count_in_set E (arns D) (is_desired D) HE) as [_ Hdel].
  { intros e s _ Hs. by apply is_desired_arns. }
  assert (Hc : count_type "create" ops = size (arns D ∖ arns E)).
  { unfold ops, updateEventSourceList.
    rewrite count_type_app, !count_type_map.
    rewrite (length_filter_ext _ (fun d => negb (matched E d))) by
      (intros d _; apply (has_type_classify functionName E d)).
    rewrite (length_filter_ext (fun a => has_type "create" (delete_op a))
               (fun _ => false)) by (intros; reflexivity).
    rewrite length_filter_false. lia. }
  assert (Hu : count_type "update" ops = size (arns D ∩ arns E)).
  { unfold ops, updateEventSourceList.
    rewrite count_type_app, !count_type_map.
    rewrite (length_filter_ext _ (matched E)) by
      (intros d _; apply (has_type_classify functionName E d)).
    rewrite (length_filter_ext (fun a => has_type "update" (delete_op a))
               (fun _ => false)) by (intros; reflexivity).
    rewrite length_filter_false. lia. }
  assert (Hd : count_type "delete" ops = size (arns E ∖ arns D)).
  { unfold ops, updateEventSourceList.
    rewrite count_type_app, !count_type_map.
    rewrite (length_filter_ext _ (fun _ => false)) by
      (intros d _; apply (has_type_classify functionName E d)).
    rewrite (length_filter_ext (fun a => has_type "delete" (delete_op a))
               (fun _ => true)) by (intros; reflexivity).
    rewrite length_filter_false, length_filter_true. lia. }
  split; [done|]. split; [done|]. split; [done|]. split.
  { rewrite size_union_three, <- Hcre, <- Hupd, <- Hdel.
    unfold ops, updateEventSourceList.
    rewrite length_app, !length_map.
    pose proof (length_filter_split (matched E) D). lia. }
  split; [|split].
  - intros d e Hd' He' Harn. unfold ops, updateEventSourceList.
    apply elem_of_app. left.
    destruct HE as [HEs HEn].
    destruct (proj1 (list.Forall_forall _ _) HEs e He') as [s Hs].
    apply arn_of_Some in Hs.
    replace (update_op functionName d e) with (classify functionName E d).
    { by apply list_elem_of_fmap_2. }
    unfold classify. rewrite Harn, Hs.
    by rewrite (find_existing_keyed E e s (conj HEs HEn) He' Hs).
  - intros d Hd' Hno. unfold ops, updateEventSourceList.
    apply elem_of_app. left.
    replace (create_op functionName d) with (classify functionName E d).
    { by apply list_elem_of_fmap_2. }
    unfold classify.
    destruct (find_existing (arn d) E) as [e|] eqn:Hf; [|done].
    exfalso. clear -Hf Hno HD Hd'.
    destruct HD as [HDs _].
    destruct (proj1 (list.Forall_forall _ _) HDs d Hd') as [s Hs].
    apply arn_of_Some in Hs. rewrite Hs in Hf.
    induction E as [|e0 E IH]; [done|]. cbn [find_existing] in Hf.
    destruct (strict_eq (VStr s) (arn e0)) eqn:Heq.
    + apply strict_eq_str in Heq. apply (Hno e0); [left|congruence].
    + apply IH; [|done]. intros e' He'. apply Hno. by right.
  - intros e He' Hno. unfold ops, updateEventSourceList.
    apply elem_of_app. right. apply list_elem_of_fmap_2.
    apply list_elem_of_In, List.filter_In. split; [by apply list_elem_of_In|].
    destruct HE as [HEs _].
    destruct (proj1 (list.Forall_forall _ _) HEs e He') as [s Hs].
    apply arn_of_Some in Hs. rewrite (is_desired_arns D e s Hs).
    apply negb_true_iff, bool_decide_eq_false.
    intros (d & Hd' & Harn)%elem_of_arns. apply (Hno d Hd'). congruence.
Qed.

(** C8 as amended. A desired binding without a matching existing mapping
    gets a create in which an unspecified Enabled, BatchSize or
    StartingPosition takes the default false, 100 or "LATEST"; a desired
    binding with a matching existing mapping gets an update that forwards
    Enabled and BatchSize as they are declared (unspecified stays
    unspecified) and carries no StartingPosition. *)
Theorem classify_defaults (functionName : value) (E : list value) (d : value) :
  (matched E d = false ->
     has_type "create" (classify functionName E d) = true
     /\ (get "Enabled" d = VUndefined ->
         get "Enabled" (classify functionName E d) = VBool false)
     /\ (get "BatchSize" d = VUndefined ->
         get "BatchSize" (classify functionName E d) = VNum 100)
     /\ (get "StartingPosition" d = VUndefined ->
         get "StartingPosition" (classify functionName E d) = VStr "LATEST"))
  /\ (matched E d = true ->
     has_type "update" (classify functionName E d) = true
     /\ get "Enabled" (classify functionName E d) = get "Enabled" d
     /\ get "BatchSize" (classify functionName E d) = get "BatchSize" d
     /\ get "StartingPosition" (classify functionName E d) = VUndefined).
Proof.
  split; intros Hm.
  - unfold classify.
    destruct (find_existing (arn d) E) as [e|] eqn:Hf.
    { rewrite (classify_matched E d e Hf) in Hm. discriminate. }
    split; [reflexivity|].
    split; [|split]; intros H; cbn; by rewrite H.
  - unfold classify.
    destruct (find_existing (arn d) E) as [e|] eqn:Hf.
    + repeat split.
    + rewrite (classify_unmatched E d Hf) in Hm. discriminate.
Qed.

(** ** Tasks *)

Section TaskFacts.

Variable P : platform.

Lemma and_then_settled {A B} (m : task A) (f : A -> task B) (t : time) :
  and_then m f t =
  match result (m t) with
  | Resolved a =>
      let r' := f a (settled_at (m t)) in
      Settled (calls (m t) ++ calls r') (settled_at r') (result r')
  | Rejected err => Settled (calls (m t)) (settled_at (m t)) (Rejected err)
  end.
Proof.
  unfold and_then, callback. destruct (result (m t)); simpl; [done|].
  by rewrite app_nil_r.
Qed.

Lemma request_settled region op params t :
  request P region op params t =
  Settled [Call region op params t (t + fst (P t region op params))
             (snd (P t region op params))]
    (t + fst (P t region op params)) (snd (P t region op params)).
Proof. unfold request. by destruct (P t region op params). Qed.

(** C10. [_uploadExisting] first issues the code update. When it fails,
    the promise rejects with its error and nothing else is called. When
    it succeeds, the configuration update is issued at the instant the
    code update completed, and the promise settles as the configuration
    update does: rejected with its error, or resolved with its data. *)
Theorem _uploadExisting_order (region : string) (params : value) (t : time) :
  let r := _uploadExisting P region params t in
  exists code rest,
    calls r = code :: rest
    /\ c_api code = updateFunctionCode
    /\ c_issued code = t
    /\ match c_result code with
       | Rejected err => rest = [] /\ result r = Rejected err
       | Resolved _ =>
           exists config,
             rest = [config]
             /\ c_api config = updateFunctionConfiguration
             /\ c_issued config = c_settled code
             /\ c_region config = region
             /\ get "FunctionName" (c_params config) = get "FunctionName" params
             /\ result r = c_result config
             /\ settled_at r = c_settled config
       end.
Proof.
  intros r. unfold r, _uploadExisting, mbind, task_bind.
  rewrite and_then_settled, !request_settled. cbn [result calls settled_at].
  match goal with
  | |- context [P t region updateFunctionCode ?q] =>
      destruct (P t region updateFunctionCode q) as [l1 [data|err]]
  end; cbn [fst snd].
  - cbn. eexists _, _. split; [reflexivity|]. cbn.
    split; [done|]. split; [done|].
    eexists. split; [reflexivity|]. cbn. done.
  - eexists _, _. split; [reflexivity|]. cbn. done.
Qed.

Lemma and_then_assoc {A B C} (m : task A) (f : A -> task B) (g : B -> task C) t :
  and_then (and_then m f) g t = and_then m (fun a => and_then (f a) g) t.
Proof.
  rewrite !and_then_settled.
  destruct (result (m t)) as [a|err]; cbn [result calls settled_at]; [|done].
  rewrite and_then_settled.
  destruct (result (f a (settled_at (m t)))); cbn [result calls settled_at];
    by rewrite ?app_assoc.
Qed.

Lemma and_then_resolve {A} (m : task A) t : and_then m resolve t = m t.
Proof.
  rewrite and_then_settled. destruct (m t) as [cs t' [a|err]]; cbn; [|done].
  by rewrite app_nil_r.
Qed.

Lemma resolve_and_then {A B} (a : A) (f : A -> task B) t :
  and_then (resolve a) f t = f a t.
Proof. rewrite and_then_settled. cbn. by destruct (f a t). Qed.

(** The [reduce] of [_updateScheduleEvents] is the series of the upserts. *)
Lemma reduce_in_series region paramsList (a : task value) t :
  fold_left (fun a b => and_then a b)
    (map (scheduleEvents_add P region) paramsList) a t
  = and_then a (in_series P region paramsList) t.
Proof.
  revert a. induction paramsList as [|params rest IH]; intros a; simpl.
  - by rewrite and_then_resolve.
  - by rewrite IH, and_then_assoc.
Qed.

Lemma in_series_facts region paramsList (v : value) (t : time) :
  let r := in_series P region paramsList v t in
  sequential t (calls r)
  /\ Forall (fun c => c_api c = scheduleEventsAdd /\ c_region c = region) (calls r)
  /\ map c_params (calls r) = take (length (calls r)) paramsList
  /\ (Forall (fun c => is_resolved (c_result c) = true) (calls r) ->
      length (calls r) = length paramsList /\ is_resolved (result r) = true)
  /\ (forall c err, c ∈ calls r -> c_result c = Rejected err ->
      result r = Rejected err)
  /\ t <= settled_at r.
Proof.
  revert v t. induction paramsList as [|params rest IH]; intros v t r.
  - cbn. repeat split; try done. intros c err Hc. by apply elem_of_nil in Hc.
  - unfold r. cbn [in_series]. rewrite and_then_settled.
    unfold scheduleEvents_add. rewrite request_settled.
    cbn [result calls settled_at].
    destruct (P t region scheduleEventsAdd params) as [l [data|err]];
      cbn [fst snd].
    + specialize (IH data (t + l)).
      destruct IH as (Hseq & Hall & Hmap & Hres & Hrej & Hle).
      cbn [calls result settled_at app].
      split.
      { cbn. split; [done|]. split; [lia|]. split; [done|]. done. }
      split.
      { constructor; [done|done]. }
      split.
      { cbn. by rewrite Hmap at 1. }
      split.
      { intros Hr. apply list.Forall_cons in Hr as [_ Hr].
        destruct (Hres Hr) as [Hlen Hok]. cbn. split; [lia|done]. }
      split; [|lia].
      intros c err Hc Herr. apply elem_of_cons in Hc as [->|Hc]; [done|].
      by apply (Hrej c err).
    + cbn. split.
      { split; [done|]. split; [lia|]. done. }
      split.
      { constructor; [done|constructor]. }
      split; [done|].
      split.
      { intros Hr. apply list.Forall_cons in Hr as [Hr _]. discriminate. }
      split; [|lia].
      intros c err' Hc Herr. apply list_elem_of_singleton in Hc as ->.
      cbn in Herr. congruence.
Qed.

Lemma _updateScheduleEvents_settled region functionArn schedules t :
  let paramsList := map (set "FunctionArn" functionArn) schedules in
  let s := in_series P region paramsList VUndefined t in
  _updateScheduleEvents P region functionArn (VArr schedules) t =
  match result s with
  | Resolved _ => Settled (calls s) (settled_at s) (Resolved paramsList)
  | Rejected err => Settled (calls s) (settled_at s) (Rejected err)
  end.
Proof.
  intros paramsList s. unfold _updateScheduleEvents, mbind, task_bind.
  cbn [is_nullish]. rewrite and_then_settled.
  rewrite reduce_in_series, resolve_and_then. fold paramsList. fold s.
  destruct (result s); cbn; [|done]. by rewrite app_nil_r.
Qed.

(** With [scheduleEvents.add] deferred, the schedule upserts are made
    strictly one after the other, in
    the declared order: the first is issued when the operation starts,
    each next one at the instant the previous one completed, and only if
    it succeeded; every upsert carries its schedule with the function
    ARN. When all of them succeed, every declared schedule was upserted
    and the operation resolves with the list of those parameter sets in
    declared order; a failed upsert is the last one made and its error
    rejects the operation. *)
Theorem _updateScheduleEvents_sequential
  (region : string) (functionArn : value) (schedules : list value) (t : time) :
  let paramsList := map (set "FunctionArn" functionArn) schedules in
  let r := _updateScheduleEvents P region functionArn (VArr schedules) t in
  sequential t (calls r)
  /\ Forall (fun c => c_api c = scheduleEventsAdd /\ c_region c = region) (calls r)
  /\ map c_params (calls r) = take (length (calls r)) paramsList
  /\ (Forall (fun c => is_resolved (c_result c) = true) (calls r) ->
      map c_params (calls r) = paramsList /\ result r = Resolved paramsList)
  /\ (forall c err, c ∈ calls r -> c_result c = Rejected err ->
      result r = Rejected err).
Proof.
  intros paramsList r. unfold r. rewrite _updateScheduleEvents_settled.
  fold paramsList.
  destruct (in_series_facts region paramsList VUndefined t)
    as (Hseq & Hall & Hmap & Hres & Hrej & _).
  set (s := in_series P region paramsList VUndefined t) in *.
  assert (Hcalls :
    calls (match result s with
           | Resolved _ => Settled (calls s) (settled_at s) (Resolved paramsList)
           | Rejected err => Settled (calls s) (settled_at s) (Rejected err)
           end) = calls s) by (by destruct (result s)).
  rewrite Hcalls.
  split; [done|]. split; [done|]. split; [done|]. split.
  - intros Hr. destruct (Hres Hr) as [Hlen Hok]. split.
    + rewrite Hmap, Hlen. apply firstn_all.
    + destruct (result s); [done|discriminate].
  - intros c err Hc Herr. rewrite (Hrej c err Hc Herr). done.
Qed.

(** *** [Promise.all] *)

Lemma Promise_all_calls {A} (ms : list (task A)) t :
  calls (Promise_all ms t) = concat (map (fun m => calls (m t)) ms).
Proof.
  unfold Promise_all. rewrite <- (map_map (fun m => m t) calls).
  by destruct (earliest_rejection (map (fun m => m t) ms)) as [[t' err]|].
Qed.

Lemma earliest_rejection_None {A} (rs : list (settled A)) :
  earliest_rejection rs = None <->
  Forall (fun r => is_resolved (result r) = true) rs.
Proof.
  induction rs as [|r rs IH]; simpl.
  - split; [constructor|done].
  - rewrite list.Forall_cons.
    destruct (result r) as [a|err]; simpl.
    + rewrite IH. naive_solver.
    + destruct (earliest_rejection rs) as [[t' err']|];
        [destruct (t' <? settled_at r)%nat|]; naive_solver.
  Qed.

(** The rejection that [Promise.all] reports is that of an input, and no
    input is rejected earlier. *)
Lemma earliest_rejection_Some {A} (rs : list (settled A)) t' err :
  earliest_rejection rs = Some (t', err) ->
  exists r, r ∈ rs /\ result r = Rejected err /\ settled_at r = t'
    /\ forall r' err', r' ∈ rs -> result r' = Rejected err' ->
       t' <= settled_at r'.
Proof.
  revert t' err. induction rs as [|r rs IH]; intros t' err; simpl; [done|].
  destruct (result r) as [a|e] eqn:Hr.
  - intros H. destruct (IH _ _ H) as (r0 & Hin & Hres & Ht & Hmin).
    exists r0. split; [by right|]. split; [done|]. split; [done|].
    intros r' err' [->|Hin']%elem_of_cons Hr'; [congruence|by eapply Hmin].
  - destruct (earliest_rejection rs) as [[t1 e1]|] eqn:Hrest.
    + destruct (IH _ _ eq_refl) as (r0 & Hin & Hres & Ht & Hmin).
      destruct (t1 <? settled_at r)%nat eqn:Hlt; intros [= <- <-].
      * apply Nat.ltb_lt in Hlt.
        exists r0. split; [by right|]. split; [done|]. split; [done|].
        intros r' err' [->|Hin']%elem_of_cons Hr'; [lia|by eapply Hmin].
      * apply Nat.ltb_ge in Hlt.
        exists r. split; [by left|]. split; [done|]. split; [done|].
        intros r' err' [->|Hin']%elem_of_cons Hr'; [done|].
        specialize (Hmin r' err' Hin' Hr'). lia.
    + intros [= <- <-].
      exists r. split; [by left|]. split; [done|]. split; [done|].
      intros r' err' [->|Hin']%elem_of_cons Hr'; [done|].
      apply earliest_rejection_None in Hrest.
      rewrite list.Forall_forall in Hrest. specialize (Hrest r' Hin').
      rewrite Hr' in Hrest. discriminate.
Qed.

Lemma resolved_values_all {A} (rs : list (settled A)) :
  Forall (fun r => is_resolved (result r) = true) rs ->
  Forall2 (fun r a => result r = Resolved a) rs (resolved_values rs).
Proof.
  induction 1 as [|r rs Hr _ IH]; simpl; [constructor|].
  destruct (result r) as [a|err] eqn:Hres; [|discriminate].
  by constructor.
Qed.

(** [Promise.all] resolves exactly when every input resolves, with one
    value per input in the order of the inputs. *)
Lemma Promise_all_resolved {A} (ms : list (task A)) t :
  Forall (fun m => is_resolved (result (m t)) = true) ms ->
  exists values,
    result (Promise_all ms t) = Resolved values
    /\ Forall2 (fun m a => result (m t) = Resolved a) ms values.
Proof.
  intros H. unfold Promise_all.
  assert (H' : Forall (fun r => is_resolved (result r) = true)
                 (map (fun m => m t) ms)).
  { apply list.Forall_fmap. exact H. }
  rewrite (proj2 (earliest_rejection_None _) H').
  eexists. split; [reflexivity|].
  apply resolved_values_all in H'.
  by apply list.Forall2_fmap_l in H'.
Qed.

(** [Promise.all] rejects as soon as one input rejects, with the error of
    the input rejected first. *)
Lemma Promise_all_rejected {A} (ms : list (task A)) t m0 err0 :
  m0 ∈ ms -> result (m0 t) = Rejected err0 ->
  exists m err,
    m ∈ ms /\ result (m t) = Rejected err
    /\ result (Promise_all ms t) = Rejected err
    /\ settled_at (Promise_all ms t) = settled_at (m t)
    /\ forall m' err', m' ∈ ms -> result (m' t) = Rejected err' ->
       settled_at (m t) <= settled_at (m' t).
Proof.
  intros Hin Hrej. unfold Promise_all.
  destruct (earliest_rejection (map (fun m => m t) ms)) as [[t' err]|] eqn:He.
  - apply earliest_rejection_Some in He as (r & Hr & Hres & Ht & Hmin).
    apply list_elem_of_fmap in Hr as (m & -> & Hm).
    exists m, err. split; [done|]. split; [done|]. split; [done|].
    split; [done|].
    intros m' err' Hm' Hres'. rewrite Ht.
    apply (Hmin (m' t) err'); [|done].
    by apply (list_elem_of_fmap_2 (fun m => m t)).
  - apply earliest_rejection_None in He.
    rewrite list.Forall_forall in He.
    specialize (He (m0 t) (list_elem_of_fmap_2 (fun m => m t) _ _ Hin)).
    rewrite Hrej in He. discriminate.
Qed.

(** *** [_updateEventSources] *)

Lemma apply_op_settled region fn E D op t :
  op ∈ updateEventSourceList fn E D ->
  apply_op P region op t =
  Settled [binding_call P region t op]
    (c_settled (binding_call P region t op))
    (c_result (binding_call P region t op)).
Proof.
  unfold updateEventSourceList. rewrite elem_of_app, !list_elem_of_fmap.
  intros [(d & -> & _)|(e & -> & _)].
  - unfold classify. destruct (find_existing (arn d) E) as [e|];
      unfold apply_op; cbn; by rewrite request_settled.
  - unfold apply_op; cbn; by rewrite request_settled.
Qed.

Lemma binding_calls region fn E D t :
  let ops := updateEventSourceList fn E D in
  concat (map (fun m : task value => calls (m t)) (map (apply_op P region) ops))
  = map (binding_call P region t) ops.
Proof.
  intros ops.
  assert (H : forall op, op ∈ ops -> op ∈ updateEventSourceList fn E D) by done.
  induction ops as [|op ops IH]; [done|]. cbn [map concat].
  rewrite (apply_op_settled region fn E D op t) by (apply H; left).
  cbn. f_equal. apply IH. intros op' Hop'. apply H. by right.
Qed.

Lemma reports_failures_request region op params t :
  reports_failures (request P region op params t).
Proof.
  rewrite request_settled. intros H. cbn in *. by repeat constructor.
Qed.

Lemma reports_failures_resolve {A} (a : A) t : reports_failures (resolve a t).
Proof. intros _. constructor. Qed.

Lemma reports_failures_reject {A} err t : reports_failures (@reject A err t).
Proof. intros _. constructor. Qed.

Lemma reports_failures_and_then {A B} (m : task A) (f : A -> task B) t :
  reports_failures (m t) ->
  (forall a t', reports_failures (f a t')) ->
  reports_failures (and_then m f t).
Proof.
  intros Hm Hf. unfold reports_failures. rewrite and_then_settled.
  destruct (result (m t)) as [a|err] eqn:Hres; cbn; [|done].
  intros H. apply Forall_app. split.
  - apply Hm. by rewrite Hres.
  - by apply Hf.
Qed.

Lemma reports_failures_Promise_all {A} (ms : list (task A)) t :
  Forall (fun m => reports_failures (m t)) ms ->
  reports_failures (Promise_all ms t).
Proof.
  intros Hms H. rewrite Promise_all_calls.
  unfold Promise_all in H.
  destruct (earliest_rejection (map (fun m => m t) ms)) as [[t' err]|] eqn:He;
    [discriminate|].
  apply earliest_rejection_None in He. apply list.Forall_fmap in He.
  clear H. induction ms as [|m ms IH]; [constructor|]. cbn.
  apply list.Forall_cons in Hms as [Hm Hms].
  apply list.Forall_cons in He as [He1 He].
  apply Forall_app. split; [by apply Hm|by apply IH].
Qed.

Lemma reports_failures__updateScheduleEvents region functionArn scheduleList t :
  reports_failures (_updateScheduleEvents P region functionArn scheduleList t).
Proof.
  unfold _updateScheduleEvents.
  destruct (is_nullish scheduleList); [apply reports_failures_resolve|].
  destruct scheduleList; try apply reports_failures_reject.
  pose proof (_updateScheduleEvents_settled region functionArn items t) as Hs.
  cbn zeta in Hs. unfold _updateScheduleEvents in Hs. cbn [is_nullish] in Hs.
  rewrite Hs. clear Hs.
  destruct (in_series_facts region (map (set "FunctionArn" functionArn) items)
              VUndefined t) as (_ & _ & _ & _ & Hrej & _).
  intros H. apply list.Forall_forall. intros c Hc.
  destruct (c_result c) as [a|err] eqn:Hres; [done|].
  destruct (result (in_series P region _ VUndefined t)) as [v|err'] eqn:Hr;
    cbn in *; [|discriminate].
  specialize (Hrej c err Hc Hres). congruence.
Qed.

Lemma _updateEventSources_calls region fn existing desired t :
  is_nullish desired = false ->
  calls (_updateEventSources P region fn existing desired t)
  = map (binding_call P region t)
      (updateEventSourceList fn (for_in existing) (for_in desired)).
Proof.
  intros H. unfold _updateEventSources. rewrite H.
  rewrite Promise_all_calls. apply binding_calls.
Qed.

Lemma reports_failures__updateEventSources region fn existing desired t :
  reports_failures (_updateEventSources P region fn existing desired t).
Proof.
  unfold _updateEventSources.
  destruct (is_nullish desired); [apply reports_failures_resolve|].
  apply reports_failures_Promise_all.
  apply list.Forall_forall. intros m (op & -> & Hop)%list_elem_of_fmap.
  rewrite (apply_op_settled _ _ _ _ _ _ Hop). intros H. cbn in *.
  by repeat constructor.
Qed.

Lemma reports_failures__uploadExisting region params t :
  reports_failures (_uploadExisting P region params t).
Proof.
  apply reports_failures_and_then; intros; apply reports_failures_request.
Qed.

Lemma reports_failures_function_does_not_exist region params eventSourceList t :
  reports_failures (function_does_not_exist P region params eventSourceList t).
Proof.
  apply reports_failures_and_then; [apply reports_failures_request|].
  intros results t'. apply reports_failures_Promise_all.
  repeat constructor.
  - apply reports_failures__updateEventSources.
  - apply reports_failures__updateScheduleEvents.
Qed.

Lemma reports_failures_function_exists region params eventSourceList t :
  reports_failures (function_exists P region params eventSourceList t).
Proof.
  apply reports_failures_and_then.
  { apply reports_failures_and_then; [apply reports_failures_request|].
    intros; apply reports_failures_resolve. }
  intros existing t'. apply reports_failures_Promise_all.
  repeat constructor.
  - apply reports_failures_and_then; [apply reports_failures__uploadExisting|].
    intros; apply reports_failures__updateScheduleEvents.
  - apply reports_failures__updateEventSources.
Qed.

(** The log of a region: the probe, then the branch its outcome selects,
    started when the probe completes. *)
Lemma _deployToRegion_settled h p params region eventSourceList :
  _eventSourceList h p = Returned eventSourceList ->
  exists task,
    _deployToRegion P h p params region = Returned task
    /\ forall t,
      let probe :=
        Call region getFunction
          (VObj [ ("FunctionName", get "FunctionName" params) ]) t
          (t + fst (P t region getFunction
                      (VObj [ ("FunctionName", get "FunctionName" params) ])))
          (snd (P t region getFunction
                  (VObj [ ("FunctionName", get "FunctionName" params) ]))) in
      let branch :=
        match c_result probe with
        | Rejected _ => function_does_not_exist P region params eventSourceList
        | Resolved _ => function_exists P region params eventSourceList
        end (c_settled probe) in
      task t = Settled (probe :: calls branch) (settled_at branch) (result branch).
Proof.
  intros H. unfold _deployToRegion. rewrite H. eexists. split; [reflexivity|].
  intros t. unfold reconcile, callback. rewrite request_settled. reflexivity.
Qed.

(** A region cannot resolve unless every call after the probe succeeded. *)
Lemma _deployToRegion_reports_failures h p params region task t c :
  _deployToRegion P h p params region = Returned task ->
  is_resolved (result (task t)) = true ->
  c ∈ calls (task t) -> c_api c <> getFunction ->
  is_resolved (c_result c) = true.
Proof.
  intros Htask. unfold _deployToRegion in Htask.
  destruct (_eventSourceList h p) as [eventSourceList|err] eqn:HES;
    [|discriminate].
  destruct (_deployToRegion_settled h p params region eventSourceList HES)
    as (task' & Htask' & Hsettled).
  unfold _deployToRegion in Htask'. rewrite HES in Htask'.
  rewrite Htask' in Htask. injection Htask as <-.
  rewrite Hsettled. cbn [calls result].
  intros Hres [->|Hc]%elem_of_cons Hapi; [done|]. clear Hapi.
  revert Hres c Hc. rewrite <- list.Forall_forall.
  match goal with |- context [P t region getFunction ?q] =>
    destruct (snd (P t region getFunction q)) end; cbn [c_result c_settled].
  - apply reports_failures_function_exists.
  - apply reports_failures_function_does_not_exist.
Qed.

Lemma binding_outcomes region t (ops : list value) (outcomes : list value) :
  Forall (fun op => result (apply_op P region op t)
                    = c_result (binding_call P region t op)) ops ->
  Forall2 (fun (m : task value) a => result (m t) = Resolved a)
    (map (apply_op P region) ops) outcomes ->
  Forall2 (fun c o => c_result c = Resolved o)
    (map (binding_call P region t) ops) outcomes.
Proof.
  intros Hops. revert outcomes.
  induction Hops as [|op ops Hop _ IH]; intros outcomes H; cbn [map] in *.
  - inversion H. constructor.
  - inversion H as [|m a ms os Hm Hms]; subst.
    constructor; [by rewrite <- Hop|]. by apply IH.
Qed.

(** C3 as amended. For a desired collection that is not null, every
    operation of the list gets its call, all issued at the same instant,
    whatever becomes of the others, and each call ends as the platform
    answers it. The outcomes are collected only when every operation
    succeeds: then there is one outcome per operation, in the order of
    the list. When some operation fails, [_updateEventSources] as a whole
    rejects with the error of the operation that failed first, and a
    region in which an event-source operation failed rejects too. *)
Theorem _updateEventSources_all_or_nothing
  (region : string) (functionName existing desired : value) (t : time) :
  is_nullish desired = false ->
  let ops := updateEventSourceList functionName (for_in existing) (for_in desired) in
  let r := _updateEventSources P region functionName existing desired t in
  calls r = map (binding_call P region t) ops
  /\ Forall (fun c => c_issued c = t) (calls r)
  /\ (Forall (fun c => is_resolved (c_result c) = true) (calls r) ->
      exists outcomes,
        result r = Resolved outcomes
        /\ Forall2 (fun c o => c_result c = Resolved o) (calls r) outcomes)
  /\ (forall c0 err0, c0 ∈ calls r -> c_result c0 = Rejected err0 ->
      exists c err,
        c ∈ calls r /\ c_result c = Rejected err
        /\ result r = Rejected err /\ settled_at r = c_settled c
        /\ forall c' err', c' ∈ calls r -> c_result c' = Rejected err' ->
           c_settled c <= c_settled c')
  /\ (forall h p params task t0 c err,
      _deployToRegion P h p params region = Returned task ->
      c ∈ calls (task t0) ->
      c_api c = createEventSourceMapping \/ c_api c = updateEventSourceMapping
      \/ c_api c = deleteEventSourceMapping ->
      c_result c = Rejected err ->
      is_resolved (result (task t0)) = false).
Proof.
  intros Hnn ops r.
  pose proof (_updateEventSources_calls region functionName existing desired t Hnn)
    as Hcalls. fold ops in Hcalls. fold r in Hcalls.
  assert (Hsettled : forall op, op ∈ ops ->
            apply_op P region op t =
            Settled [binding_call P region t op]
              (c_settled (binding_call P region t op))
              (c_result (binding_call P region t op))).
  { intros op Hop. by eapply apply_op_settled. }
  assert (Hr : r = Promise_all (map (apply_op P region) ops) t).
  { unfold r, _updateEventSources. by rewrite Hnn. }
  split; [done|]. split; [|split; [|split]].
  - rewrite Hcalls. apply list.Forall_fmap. by apply list.Forall_forall.
  - intros Hall. rewrite Hcalls in Hall |- *.
    destruct (Promise_all_resolved (map (apply_op P region) ops) t)
      as (outcomes & Hres & Hvals).
    { apply list.Forall_fmap. apply list.Forall_fmap in Hall.
      rewrite list.Forall_forall in Hall |- *. intros op Hop. cbn.
      rewrite (Hsettled op Hop). cbn. by apply Hall. }
    exists outcomes. split; [by rewrite Hr|].
    apply binding_outcomes; [|done].
    apply list.Forall_forall. intros op Hop. by rewrite (Hsettled op Hop).
  - intros c0 err0 Hc0 Hrej0. rewrite Hcalls in Hc0.
    apply list_elem_of_fmap in Hc0 as (op0 & -> & Hop0).
    destruct (Promise_all_rejected (map (apply_op P region) ops) t
                (apply_op P region op0) err0)
      as (m & err & Hm & Hres & Hall & Hat & Hmin).
    { by apply list_elem_of_fmap_2. }
    { by rewrite (Hsettled op0 Hop0). }
    apply list_elem_of_fmap in Hm as (op & -> & Hop).
    rewrite (Hsettled op Hop) in Hres, Hat, Hmin. cbn in Hres, Hat, Hmin.
    exists (binding_call P region t op), err.
    split; [rewrite Hcalls; by apply list_elem_of_fmap_2|].
    split; [done|]. split; [by rewrite Hr|]. split; [by rewrite Hr|].
    intros c' err' Hc' Hrej'. rewrite Hcalls in Hc'.
    apply list_elem_of_fmap in Hc' as (op' & -> & Hop').
    specialize (Hmin (apply_op P region op') err'
                  (list_elem_of_fmap_2 _ _ _ Hop')).
    rewrite (Hsettled op' Hop') in Hmin. cbn in Hmin. by apply Hmin.
  - intros h p params task t0 c err Htask Hc Hapi Hrej.
    destruct (is_resolved (result (task t0))) eqn:Hres; [|done].
    assert (Hne : c_api c <> getFunction) by (destruct Hapi as [?|[?|?]]; congruence).
    pose proof (_deployToRegion_reports_failures h p params region task t0 c
                  Htask Hres Hc Hne) as Hok.
    rewrite Hrej in Hok. discriminate.
Qed.

Lemma _uploadExisting_apis region params t :
  Forall (fun c => c_api c = updateFunctionCode
                   \/ c_api c = updateFunctionConfiguration)
    (calls (_uploadExisting P region params t)).
Proof.
  unfold _uploadExisting, mbind, task_bind.
  rewrite and_then_settled, !request_settled. cbn [result calls settled_at].
  match goal with
  | |- context [P t region updateFunctionCode ?q] =>
      destruct (snd (P t region updateFunctionCode q))
  end; cbn [calls app result settled_at];
    repeat (constructor; [cbn; auto|]); constructor.
Qed.

Lemma _updateEventSources_apis region fn existing desired t :
  Forall (fun c => c_api c = createEventSourceMapping
                   \/ c_api c = updateEventSourceMapping
                   \/ c_api c = deleteEventSourceMapping)
    (calls (_updateEventSources P region fn existing desired t)).
Proof.
  destruct (is_nullish desired) eqn:Hnull.
  - unfold _updateEventSources. rewrite Hnull. constructor.
  - rewrite (_updateEventSources_calls region fn existing desired t Hnull).
    apply list.Forall_fmap, list.Forall_forall. intros op Hop.
    unfold updateEventSourceList in Hop.
    rewrite elem_of_app, !list_elem_of_fmap in Hop.
    destruct Hop as [(d & -> & _)|(e & -> & _)]; cbn.
    + unfold classify.
      destruct (find_existing (arn d) (for_in existing)); cbn; auto.
    + auto.
Qed.

(** C5 as amended. The reconciliation of a region starts with the probe.
    When the probe fails, with whatever error, the function is created;
    when it succeeds, the existing mappings are listed and then the
    function is updated. A failed create, and a failed listing, reject the
    region with that error and nothing more is called. A failed function
    update rejects the region and no schedule is upserted, but the
    event-source operations are issued all the same, at the instant the
    update starts. *)
Theorem _deployToRegion_paths
  (h : host) (p : program) (params : value) (region : string)
  (eventSourceList : value) (task : task (list (list value))) (t : time) :
  _eventSourceList h p = Returned eventSourceList ->
  _deployToRegion P h p params region = Returned task ->
  let r := task t in
  exists probe second,
    c_api probe = getFunction /\ c_issued probe = t
    /\ c_issued second = c_settled probe
    /\ match c_result probe with
       | Rejected _ =>
           c_api second = createFunction /\ c_params second = params
           /\ match c_result second with
              | Rejected err =>
                  calls r = [probe; second] /\ result r = Rejected err
              | Resolved results =>
                  calls r =
                    [probe; second]
                    ++ calls (_updateEventSources P region
                                (get "FunctionName" params) (VArr [])
                                (get "EventSourceMappings" eventSourceList)
                                (c_settled second))
                    ++ calls (_updateScheduleEvents P region
                                (get "FunctionArn" results)
                                (get "ScheduleEvents" eventSourceList)
                                (c_settled second))
              end
       | Resolved _ =>
           c_api second = listEventSourceMappings
           /\ match c_result second with
              | Rejected err =>
                  calls r = [probe; second] /\ result r = Rejected err
              | Resolved data =>
                  let update := _uploadExisting P region params (c_settled second) in
                  let bindings :=
                    _updateEventSources P region (get "FunctionName" params)
                      (existing_mappings data)
                      (get "EventSourceMappings" eventSourceList)
                      (c_settled second) in
                  match result update with
                  | Rejected _ =>
                      calls r = [probe; second] ++ calls update ++ calls bindings
                      /\ Forall (fun c => c_api c <> scheduleEventsAdd) (calls r)
                      /\ is_resolved (result r) = false
                  | Resolved results =>
                      calls r =
                        [probe; second] ++ calls update
                        ++ calls (_updateScheduleEvents P region
                                    (get "FunctionArn" results)
                                    (get "ScheduleEvents" eventSourceList)
                                    (settled_at update))
                        ++ calls bindings
                  end
              end
       end.
Proof.
  intros HES Htask r.
  destruct (_deployToRegion_settled h p params region eventSourceList HES)
    as (task' & Htask' & Hsettled).
  rewrite Htask' in Htask. injection Htask as <-.
  unfold r. rewrite Hsettled. clear Hsettled Htask' r.
  set (q := VObj [("FunctionName", get "FunctionName" params)]).
  exists (Call region getFunction q t (t + fst (P t region getFunction q))
            (snd (P t region getFunction q))).
  destruct (P t region getFunction q) as [l0 [found|notfound]]; cbn [fst snd].
  - (* Function exists *)
    eexists (Call region listEventSourceMappings q (t + l0)
               (t + l0 + fst (P (t + l0) region listEventSourceMappings q))
               (snd (P (t + l0) region listEventSourceMappings q))).
    cbn [c_api c_issued c_settled c_result c_params].
    split; [done|]. split; [done|]. split; [done|]. split; [done|].
    unfold function_exists, _listEventSourceMappings, mbind, task_bind.
    rewrite !and_then_settled, request_settled. fold q.
    cbn [result calls settled_at].
    destruct (P (t + l0) region listEventSourceMappings q) as [l1 [data|err]];
      cbn [fst snd]; [|done].
    cbn [resolve result calls settled_at app].
    rewrite Promise_all_calls. cbn [map concat].
    rewrite and_then_settled.
    destruct (result (_uploadExisting P region params (t + l0 + l1)))
      as [results|err] eqn:Hupdate; cbn [calls result].
    + by rewrite app_nil_r, <- !app_assoc.
    + split; [by rewrite app_nil_r|]. split.
      { rewrite app_nil_r. cbn [app].
        constructor; [done|]. constructor; [done|].
        apply Forall_app. split.
        - eapply list.Forall_impl; [apply _uploadExisting_apis|].
          intros c [Hc|Hc]; rewrite Hc; done.
        - eapply list.Forall_impl; [apply _updateEventSources_apis|].
          intros c [Hc|[Hc|Hc]]; rewrite Hc; done. }
      match goal with |- context [Promise_all ?ms ?t0] =>
        destruct (Promise_all_rejected ms t0 (hd (resolve []) ms) err)
          as (m & err' & _ & _ & Hrej & _) end.
      { left. }
      { cbn [hd]. rewrite and_then_settled, Hupdate. done. }
      by rewrite Hrej.
  - (* Function does not exist *)
    eexists (Call region createFunction params (t + l0)
               (t + l0 + fst (P (t + l0) region createFunction params))
               (snd (P (t + l0) region createFunction params))).
    cbn [c_api c_issued c_settled c_result c_params].
    split; [done|]. split; [done|]. split; [done|].
    split; [done|]. split; [done|].
    unfold function_does_not_exist, _uploadNew, mbind, task_bind.
    rewrite and_then_settled, request_settled.
    cbn [result calls settled_at].
    destruct (P (t + l0) region createFunction params) as [l1 [results|err]];
      cbn [fst snd]; [|done].
    rewrite Promise_all_calls. cbn [map concat calls app].
    by rewrite app_nil_r.
Qed.

(** *** [deploy] *)

Lemma map_throwing_Returned {A B} (f : A -> completion B) (g : A -> B) l :
  (forall a, f a = Returned (g a)) -> map_throwing f l = Returned (map g l).
Proof.
  intros H. induction l as [|a l IH]; simpl; [done|]. by rewrite H, IH.
Qed.

Lemma deploy_regions_settled h p buffer params eventSourceList :
  archive h = Resolved buffer ->
  _params h p buffer = Returned params ->
  _eventSourceList h p = Returned eventSourceList ->
  let all :=
    Promise_all
      (map (fun region => reconcile P region params eventSourceList)
         (split_on "," (region p))) 0 in
  deploy P h p =
  Deployment (calls all)
    match result all with
    | Resolved results =>
        if resultsIsEmpty results then Nothing else Results results
    | Rejected err => Error err
    end.
Proof.
  intros Ha Hp HES all. unfold deploy. rewrite Ha, Hp.
  rewrite (map_throwing_Returned _
             (fun region => reconcile P region params eventSourceList)).
  - done.
  - intros region. unfold _deployToRegion. by rewrite HES.
Qed.

(** C1 as amended. When the archive, the parameters and the desired
    state are ready, every region of the list is reconciled from the
    same instant and in full: the log of the deployment is the log of
    each region's own reconciliation, one after the other, whatever
    happens in the other regions. When every region succeeds, the report
    has one result per region, in the order of the list (or nothing is
    printed when all results are empty). When some region fails, the
    report is the single error of the region that failed first, and no
    per-region results. *)
Theorem deploy_regions
  (h : host) (p : program) (buffer params eventSourceList : value) :
  archive h = Resolved buffer ->
  _params h p buffer = Returned params ->
  _eventSourceList h p = Returned eventSourceList ->
  let regions := split_on "," (region p) in
  let runs :=
    map (fun region => reconcile P region params eventSourceList 0) regions in
  d_calls (deploy P h p) = concat (map calls runs)
  /\ (Forall (fun r => is_resolved (result r) = true) runs ->
      exists results,
        Forall2 (fun r res => result r = Resolved res) runs results
        /\ d_report (deploy P h p) =
           if resultsIsEmpty results then Nothing else Results results)
  /\ (forall r0 err0, r0 ∈ runs -> result r0 = Rejected err0 ->
      exists r err,
        r ∈ runs /\ result r = Rejected err
        /\ d_report (deploy P h p) = Error err
        /\ forall r' err', r' ∈ runs -> result r' = Rejected err' ->
           settled_at r <= settled_at r').
Proof.
  intros Ha Hp HES regions runs.
  rewrite (deploy_regions_settled h p buffer params eventSourceList Ha Hp HES).
  fold regions. cbn [d_calls d_report].
  set (tasks := map (fun region => reconcile P region params eventSourceList)
                  regions).
  assert (Hruns : runs = map (fun m : task _ => m 0) tasks).
  { unfold runs, tasks. by rewrite map_map. }
  split; [|split].
  - rewrite Promise_all_calls, Hruns. by rewrite map_map.
  - intros Hall.
    destruct (Promise_all_resolved tasks 0) as (results & Hres & Hvals).
    { rewrite Hruns in Hall. by apply list.Forall_fmap in Hall. }
    exists results. rewrite Hres. split; [|done].
    rewrite Hruns. by apply list.Forall2_fmap_l.
  - intros r0 err0 Hr0 Hrej0. rewrite Hruns in Hr0.
    apply list_elem_of_fmap in Hr0 as (m0 & -> & Hm0).
    destruct (Promise_all_rejected tasks 0 m0 err0 Hm0 Hrej0)
      as (m & err & Hm & Hrej & Hall & _ & Hmin).
    exists (m 0), err. rewrite Hall.
    split; [rewrite Hruns; by apply (list_elem_of_fmap_2 (fun m => m 0))|].
    split; [done|]. split; [done|].
    intros r' err' Hr' Hrej'. rewrite Hruns in Hr'.
    apply list_elem_of_fmap in Hr' as (m' & -> & Hm'). by eapply Hmin.
Qed.

End TaskFacts.

(** ** The runtime check *)

Lemma strict_eq_to_str v s : strict_eq v (VStr s) = true <-> v = VStr s.
Proof. rewrite strict_eq_str_sym. apply strict_eq_str. Qed.

(** ** The desired-state loader *)

Lemma assoc_set_eq k v fs : assoc k (assoc_set k v fs) = v.
Proof.
  induction fs as [|[k' v'] fs IH]; simpl.
  - by rewrite String.eqb_refl.
  - destruct (k =? k')%string eqn:E; simpl; rewrite ?String.eqb_refl, ?E; done.
Qed.

Lemma assoc_set_ne k k' v fs :
  k <> k' -> assoc k' (assoc_set k v fs) = assoc k' fs.
Proof.
  intros Hne. induction fs as [|[k0 v0] fs IH]; simpl.
  - destruct (k' =? k)%string eqn:E; [|done].
    apply String.eqb_eq in E. congruence.
  - destruct (k =? k0)%string eqn:E; simpl.
    + apply String.eqb_eq in E. subst k0.
      destruct (k' =? k)%string eqn:E'; [|done].
      apply String.eqb_eq in E'. congruence.
    + by rewrite IH.
Qed.

Lemma _eventSourceList_structured h p fields :
  truthy (eventSourceFile p) = true ->
  readJsonSync h (eventSourceFile p) = Returned (VObj fields) ->
  exists fields',
    _eventSourceList h p = Returned (VObj fields')
    /\ assoc "EventSourceMappings" fields'
       = or_empty (assoc "EventSourceMappings" fields)
    /\ assoc "ScheduleEvents" fields' = or_empty (assoc "ScheduleEvents" fields)
    /\ forall k, k <> "EventSourceMappings" -> k <> "ScheduleEvents" ->
       assoc k fields' = assoc k fields.
Proof.
  intros Hpath Hread. unfold _eventSourceList. rewrite Hpath, Hread.
  cbn [negb get]. unfold or_empty.
  destruct (truthy (assoc "EventSourceMappings" fields)) eqn:E1; cbn [negb].
  - cbn [get].
    destruct (truthy (assoc "ScheduleEvents" fields)) eqn:E2; cbn [negb].
    + by exists fields.
    + eexists. split; [reflexivity|].
      split; [by rewrite assoc_set_ne|]. split; [by rewrite assoc_set_eq|].
      intros k _ Hk. by rewrite assoc_set_ne.
  - cbn [set get]. rewrite assoc_set_ne by done.
    destruct (truthy (assoc "ScheduleEvents" fields)) eqn:E2; cbn [negb].
    + eexists. split; [reflexivity|].
      split; [by rewrite assoc_set_eq|]. split; [by rewrite assoc_set_ne|].
      intros k Hk _. by rewrite assoc_set_ne.
    + eexists. split; [reflexivity|].
      split; [rewrite assoc_set_ne by done; by rewrite assoc_set_eq|].
      split; [by rewrite assoc_set_eq|].
      intros k Hk1 Hk2. by rewrite !assoc_set_ne.
Qed.

(** C7 as amended. Without a declared path the loader returns [null] for
    both collections (not empty collections), and for [null] neither
    reconciliation calls the platform: both resolve at once with no
    outcome. With a declared path: a read or parse error is thrown on; a
    bare sequence becomes the event-source collection, with an empty
    schedule collection; in a structured document a collection that is
    missing (or falsy) becomes the empty one and everything else is kept. *)
Theorem _eventSourceList_cases (h : host) (p : program) :
  (truthy (eventSourceFile p) = false ->
     _eventSourceList h p
     = Returned (VObj [ ("EventSourceMappings", VNull); ("ScheduleEvents", VNull) ])
     /\ forall P region functionName existing functionArn t,
          _updateEventSources P region functionName existing VNull t
          = Settled [] t (Resolved [])
          /\ _updateScheduleEvents P region functionArn VNull t
             = Settled [] t (Resolved []))
  /\ (truthy (eventSourceFile p) = true ->
      (forall err, readJsonSync h (eventSourceFile p) = Thrown err ->
         _eventSourceList h p = Thrown err)
      /\ (forall items, readJsonSync h (eventSourceFile p) = Returned (VArr items) ->
          _eventSourceList h p
          = Returned (VObj [ ("EventSourceMappings", VArr items);
                             ("ScheduleEvents", VArr []) ]))
      /\ (forall fields,
          readJsonSync h (eventSourceFile p) = Returned (VObj fields) ->
          exists fields',
            _eventSourceList h p = Returned (VObj fields')
            /\ assoc "EventSourceMappings" fields'
               = or_empty (assoc "EventSourceMappings" fields)
            /\ assoc "ScheduleEvents" fields'
               = or_empty (assoc "ScheduleEvents" fields)
            /\ forall k, k <> "EventSourceMappings" -> k <> "ScheduleEvents" ->
               assoc k fields' = assoc k fields)).
Proof.
  split; intros Hpath.
  - split; [unfold _eventSourceList; by rewrite Hpath|]. done.
  - split; [|split].
    + intros err Hread. unfold _eventSourceList. by rewrite Hpath, Hread.
    + intros items Hread. unfold _eventSourceList. by rewrite Hpath, Hread.
    + intros fields Hread. by apply _eventSourceList_structured.
Qed.

(** ** The archive *)

Lemma strip_prefix_app pat rest : strip_prefix pat (pat ++ rest) = Some rest.
Proof.
  induction pat as [|a pat IH]; simpl; [by destruct rest|].
  by rewrite Ascii.eqb_refl.
Qed.

Lemma append_assoc (a b c : string) :
  ((a ++ b) ++ c)%string = (a ++ b ++ c)%string.
Proof.
  induction a as [|x a IH]; [done|].
  change (String x ((a ++ b) ++ c) = String x (a ++ b ++ c))%string.
  by rewrite IH.
Qed.

(** A path below the code directory is stored under its relative path. *)
Lemma remove_first_prefix pat rest : remove_first pat (pat ++ rest) = rest.
Proof.
  destruct (pat ++ rest)%string eqn:E; simpl.
  - rewrite <- E, strip_prefix_app. done.
  - rewrite <- E, strip_prefix_app. done.
Qed.

Lemma walk_keeps codeDirectory walk (zip : gmap string string) name :
  (forall file, file ∈ walk -> w_isDirectory file = false ->
     entry_name codeDirectory file <> name) ->
  fold_left (add_file codeDirectory) walk zip !! name = zip !! name.
Proof.
  revert zip. induction walk as [|file walk IH]; intros zip H; simpl; [done|].
  rewrite IH by (intros f Hf; apply H; by right).
  unfold add_file. destruct (w_isDirectory file) eqn:Hd; [done|].
  apply lookup_insert_ne. apply H; [left|done].
Qed.

Lemma walk_grows codeDirectory walk (zip : gmap string string) name :
  is_Some (zip !! name) ->
  is_Some (fold_left (add_file codeDirectory) walk zip !! name).
Proof.
  revert zip. induction walk as [|file walk IH]; intros zip H; simpl; [done|].
  apply IH. unfold add_file. destruct (w_isDirectory file); [done|].
  rewrite lookup_insert. case_decide; [by eexists|done].
Qed.

Lemma walk_adds codeDirectory walk (zip : gmap string string) file :
  file ∈ walk -> w_isDirectory file = false ->
  is_Some (fold_left (add_file codeDirectory) walk zip
             !! entry_name codeDirectory file).
Proof.
  revert zip. induction walk as [|f walk IH]; intros zip Hin Hd; simpl.
  - by apply elem_of_nil in Hin.
  - apply elem_of_cons in Hin as [<-|Hin]; [|by apply IH].
    apply walk_grows. unfold add_file. rewrite Hd.
    rewrite lookup_insert_eq. by eexists.
Qed.

(** When no two files of the walk get the same name, each is stored with
    its own content. *)
Lemma walk_stores codeDirectory walk (zip : gmap string string) file :
  NoDup (map (entry_name codeDirectory)
           (List.filter (fun f => negb (w_isDirectory f)) walk)) ->
  file ∈ walk -> w_isDirectory file = false ->
  fold_left (add_file codeDirectory) walk zip !! entry_name codeDirectory file
  = Some (w_content file).
Proof.
  revert zip. induction walk as [|f walk IH]; intros zip Hnd Hin Hd.
  - by apply elem_of_nil in Hin.
  - cbn [fold_left]. cbn [List.filter] in Hnd.
    apply elem_of_cons in Hin as [<-|Hin].
    + rewrite Hd in Hnd. cbn in Hnd. apply list.NoDup_cons in Hnd as [Hfresh _].
      rewrite walk_keeps.
      * unfold add_file. rewrite Hd. apply lookup_insert_eq.
      * intros f' Hf' Hd' Heq. apply Hfresh. rewrite <- Heq.
        apply (list_elem_of_fmap_2 (entry_name codeDirectory)).
        apply list_elem_of_In, List.filter_In.
        split; [by apply list_elem_of_In|by rewrite Hd'].
    + apply IH; [|done|done].
      destruct (w_isDirectory f); cbn in Hnd; [done|].
      by apply list.NoDup_cons in Hnd as [_ Hnd].
Qed.

(** C9. The [zip] object outlives a build. An archival stores every file
    of its walk that is not a directory, a file below the code directory
    under its path relative to it (with its own content when the walk
    gives no two files the same name); and it removes nothing: the
    archive of a later build in the same process still holds every entry
    name of the earlier archive, with the earlier content unless the
    later walk stored a file under that name. *)
Theorem _zip_accumulates
  (dir1 dir2 : string) (walk1 walk2 : list walk_item) (zip0 : gmap string string) :
  let '(zip1, archive1) := _zip dir1 walk1 zip0 in
  let '(zip2, archive2) := _zip dir2 walk2 zip1 in
  (forall file rel, file ∈ walk2 -> w_isDirectory file = false ->
     w_path file = (dir2 ++ "/" ++ rel)%string ->
     is_Some (archive2 !! rel)
     /\ (NoDup (map (entry_name dir2)
                  (List.filter (fun f => negb (w_isDirectory f)) walk2)) ->
         archive2 !! rel = Some (w_content file)))
  /\ (forall file, file ∈ walk1 -> w_isDirectory file = false ->
      is_Some (archive2 !! entry_name dir1 file))
  /\ dom archive1 ⊆ dom archive2
  /\ (forall name,
      (forall file, file ∈ walk2 -> w_isDirectory file = false ->
         entry_name dir2 file <> name) ->
      archive2 !! name = archive1 !! name).
Proof.
  unfold _zip.
  split; [|split; [|split]].
  - intros file rel Hin Hd Hpath.
    assert (Hname : entry_name dir2 file = rel).
    { unfold entry_name. rewrite Hpath, <- append_assoc.
      apply remove_first_prefix. }
    rewrite <- Hname. split.
    + by apply walk_adds.
    + intros Hnd. by apply walk_stores.
  - intros file Hin Hd. apply walk_grows. by apply walk_adds.
  - intros name Hname. apply elem_of_dom. apply elem_of_dom in Hname.
    by apply walk_grows.
  - intros name H. by apply walk_keeps.
Qed.

(** * The properties on the sample inputs *)

(** ** Event sources *)

(** The collections of the scenario are keyed by their ARNs. *)
Lemma keyed_desired_A : keyed desired_A.
Proof.
  split.
  - repeat constructor; by eexists.
  - repeat constructor; set_solver.
Defined.

Lemma keyed_existing_AB : keyed existing_AB.
Proof.
  split.
  - repeat constructor; by eexists.
  - repeat constructor; set_solver.
Defined.

(** The scenario of the specification: one update (A, with u1 and batch
    size 10), one delete (u2), no create. *)
Example scenario_operations :
  updateEventSourceList (VStr "fn") existing_AB desired_A
  = [ VObj [ ("type", VStr "update"); ("FunctionName", VStr "fn");
             ("Enabled", VBool true); ("BatchSize", VNum 10);
             ("UUID", VStr "u1") ];
      VObj [ ("type", VStr "delete"); ("UUID", VStr "u2") ] ].
Proof. reflexivity. Qed.

(** A function that is new has no mapping: a desired C is one create,
    with the defaults. *)
Example new_function_operations :
  updateEventSourceList (VStr "fn") [] [ binding "C" [] ]
  = [ VObj [ ("type", VStr "create"); ("FunctionName", VStr "fn");
             ("EventSourceArn", VStr "C"); ("Enabled", VBool false);
             ("BatchSize", VNum 100); ("StartingPosition", VStr "LATEST") ] ].
Proof. reflexivity. Qed.

(** The partition of the operations, on the scenario, and the handles:
    the update of A has the UUID u1 of the existing mapping of A and the
    desired batch size, the delete has the UUID u2 of the mapping of B. *)
Lemma updateEventSourceList_partitions_scenario :
  keyed desired_A /\ keyed existing_AB
  /\ count_type "create" (updateEventSourceList (VStr "fn") existing_AB desired_A)
     = size (arns desired_A ∖ arns existing_AB)
  /\ count_type "update" (updateEventSourceList (VStr "fn") existing_AB desired_A)
     = size (arns desired_A ∩ arns existing_AB)
  /\ count_type "delete" (updateEventSourceList (VStr "fn") existing_AB desired_A)
     = size (arns existing_AB ∖ arns desired_A)
  /\ (exists op,
        op ∈ updateEventSourceList (VStr "fn") existing_AB desired_A
        /\ has_type "update" op = true
        /\ get "UUID" op = VStr "u1"
        /\ get "FunctionName" op = VStr "fn"
        /\ get "Enabled" op = VBool true
        /\ get "BatchSize" op = VNum 10)
  /\ (exists op,
        op ∈ updateEventSourceList (VStr "fn") existing_AB desired_A
        /\ has_type "delete" op = true
        /\ get "UUID" op = VStr "u2").
Proof.
  split; [exact keyed_desired_A|]. split; [exact keyed_existing_AB|].
  destruct (updateEventSourceList_partitions (VStr "fn") desired_A existing_AB
              keyed_desired_A keyed_existing_AB)
    as (Hc & Hu & Hd & _ & _ & _ & _ & Hupdate & _ & Hdelete).
  split; [exact Hc|]. split; [exact Hu|]. split; [exact Hd|]. split.
  - refine (Hupdate
              (binding "A" [ ("Enabled", VBool true); ("BatchSize", VNum 10) ])
              (binding "A" [ ("UUID", VStr "u1"); ("BatchSize", VNum 5) ])
              _ _ eq_refl); [left|left].
  - refine (Hdelete (binding "B" [ ("UUID", VStr "u2") ]) _ _); [right; left|].
    intros d Hd'. apply list_elem_of_singleton in Hd' as ->. discriminate.
Defined.

(** The defaults of a create (C is new) and the forwarding of an update
    (A exists), against the mappings of the scenario. *)
Lemma classify_defaults_sample :
  (matched existing_AB (binding "C" []) = false
   /\ get "Enabled" (classify (VStr "fn") existing_AB (binding "C" [])) = VBool false
   /\ get "BatchSize" (classify (VStr "fn") existing_AB (binding "C" [])) = VNum 100
   /\ get "StartingPosition" (classify (VStr "fn") existing_AB (binding "C" []))
      = VStr "LATEST")
  /\ (matched existing_AB (binding "A" []) = true
      /\ get "Enabled" (classify (VStr "fn") existing_AB (binding "A" []))
         = get "Enabled" (binding "A" [])).
Proof.
  split.
  - destruct (classify_defaults (VStr "fn") existing_AB (binding "C" []))
      as [Hcreate _].
    destruct (Hcreate eq_refl) as (_ & He & Hb & Hs).
    split; [reflexivity|]. split; [exact (He eq_refl)|].
    split; [exact (Hb eq_refl)|exact (Hs eq_refl)].
  - destruct (classify_defaults (VStr "fn") existing_AB (binding "A" []))
      as [_ Hupdate].
    destruct (Hupdate eq_refl) as (_ & He & _).
    split; [reflexivity|exact He].
Defined.

(** C8 as stated fails on an update: a desired binding that matches an
    existing mapping and leaves Enabled, BatchSize and StartingPosition
    unspecified is applied with Enabled and BatchSize undefined and
    without StartingPosition. *)
Lemma update_keeps_unspecified_fields :
  get "Enabled" (binding "A" []) = VUndefined
  /\ get "BatchSize" (binding "A" []) = VUndefined
  /\ get "StartingPosition" (binding "A" []) = VUndefined
  /\ classify (VStr "fn") existing_AB (binding "A" [])
     = VObj [ ("type", VStr "update"); ("FunctionName", VStr "fn");
              ("Enabled", VUndefined); ("BatchSize", VUndefined);
              ("UUID", VStr "u1") ]
  /\ get "Enabled" (classify (VStr "fn") existing_AB (binding "A" [])) <> VBool false
  /\ get "BatchSize" (classify (VStr "fn") existing_AB (binding "A" [])) <> VNum 100
  /\ get "StartingPosition" (classify (VStr "fn") existing_AB (binding "A" []))
     <> VStr "LATEST".
Proof. repeat split; try reflexivity; discriminate. Qed.

(** The operations of the scenario, applied where every call succeeds. *)
Lemma _updateEventSources_all_or_nothing_sample :
  is_nullish (VArr desired_A) = false
  /\ calls (_updateEventSources established "us-east-1" (VStr "fn")
             (VArr existing_AB) (VArr desired_A) 2)
     = map (binding_call established "us-east-1" 2)
         (updateEventSourceList (VStr "fn") existing_AB desired_A).
Proof.
  split; [reflexivity|].
  exact (proj1 (_updateEventSources_all_or_nothing established "us-east-1"
                  (VStr "fn") (VArr existing_AB) (VArr desired_A) 2 eq_refl)).
Defined.

(** C3 as stated fails: of two creates, the one for A succeeds and the
    one for B fails. Both were applied, but no outcome is collected:
    [_updateEventSources] rejects with B's error, the region rejects with
    it, and [deploy] reports only that error. *)
Lemma binding_failure_fails_region :
  map c_result
    (calls (_updateEventSources source_B_invalid "us-east-1" (VStr "fn")
              (VArr []) (VArr desired_AB) 0))
  = [ Resolved (VObj [ ("UUID", VStr "u1") ]);
      Rejected (VStr "InvalidParameterValueException") ]
  /\ result (_updateEventSources source_B_invalid "us-east-1" (VStr "fn")
              (VArr []) (VArr desired_AB) 0)
     = Rejected (VStr "InvalidParameterValueException")
  /\ result (reconcile source_B_invalid "us-east-1" fn_params
              (VObj [ ("EventSourceMappings", VArr desired_AB);
                      ("ScheduleEvents", VArr []) ]) 0)
     = Rejected (VStr "InvalidParameterValueException")
  /\ d_report (deploy source_B_invalid (laptop (Returned (VArr desired_AB)))
                (options (VStr "nodejs6.10") (VStr "event_sources.json")
                   "us-east-1"))
     = Error (VStr "InvalidParameterValueException").
Proof. repeat split; vm_compute; reflexivity. Qed.

(** ** Schedules *)

(** Two schedules, upserted where every call succeeds. *)
Lemma _updateScheduleEvents_sequential_sample :
  Forall (fun c => is_resolved (c_result c) = true)
    (calls (_updateScheduleEvents established "us-east-1" (VStr "arn:fn")
              (VArr [ VObj [ ("ScheduleName", VStr "nightly") ];
                      VObj [ ("ScheduleName", VStr "hourly") ] ]) 5))
  /\ result (_updateScheduleEvents established "us-east-1" (VStr "arn:fn")
              (VArr [ VObj [ ("ScheduleName", VStr "nightly") ];
                      VObj [ ("ScheduleName", VStr "hourly") ] ]) 5)
     = Resolved [ VObj [ ("ScheduleName", VStr "nightly");
                         ("FunctionArn", VStr "arn:fn") ];
                  VObj [ ("ScheduleName", VStr "hourly");
                         ("FunctionArn", VStr "arn:fn") ] ].
Proof.
  assert (H : Forall (fun c => is_resolved (c_result c) = true)
    (calls (_updateScheduleEvents established "us-east-1" (VStr "arn:fn")
              (VArr [ VObj [ ("ScheduleName", VStr "nightly") ];
                      VObj [ ("ScheduleName", VStr "hourly") ] ]) 5))).
  { vm_compute. repeat constructor. }
  split; [exact H|].
  destruct (_updateScheduleEvents_sequential established "us-east-1"
              (VStr "arn:fn")
              [ VObj [ ("ScheduleName", VStr "nightly") ];
                VObj [ ("ScheduleName", VStr "hourly") ] ] 5)
    as (_ & _ & _ & Hok & _).
  exact (proj2 (Hok H)).
Defined.

(** ** One region *)

(** A region whose function exists and cannot be updated. *)
Lemma _deployToRegion_paths_sample :
  _eventSourceList (laptop (Returned (VArr desired_AB)))
    (options (VStr "nodejs6.10") (VStr "event_sources.json") "us-east-1")
  = Returned (VObj [ ("EventSourceMappings", VArr desired_AB);
                     ("ScheduleEvents", VArr []) ])
  /\ exists probe second : call,
       c_api probe = getFunction /\ c_issued probe = 0
       /\ c_issued second = c_settled probe.
Proof.
  split; [reflexivity|].
  destruct (_deployToRegion_paths update_denied
              (laptop (Returned (VArr desired_AB)))
              (options (VStr "nodejs6.10") (VStr "event_sources.json") "us-east-1")
              fn_params "us-east-1"
              (VObj [ ("EventSourceMappings", VArr desired_AB);
                      ("ScheduleEvents", VArr []) ])
              (reconcile update_denied "us-east-1" fn_params
                 (VObj [ ("EventSourceMappings", VArr desired_AB);
                         ("ScheduleEvents", VArr []) ]))
              0 eq_refl eq_refl)
    as (probe & second & Hapi & Hissued & Hnext & _).
  exists probe, second. split; [exact Hapi|]. split; [exact Hissued|exact Hnext].
Defined.

(** C5 as stated fails twice. A probe that is denied, which is a failure
    and not the answer that the function is missing, does not fail the
    region: the function is created and the region resolves. And when the
    code update is denied, the two event-source creates have been issued
    all the same, at the instant the update was. *)
Lemma probe_failure_and_update_failure :
  (let r := reconcile probe_denied "us-east-1" fn_params
              (VObj [ ("EventSourceMappings", VNull); ("ScheduleEvents", VNull) ])
              0 in
   map (fun c => (c_api c, c_result c)) (calls r)
   = [ (getFunction, Rejected (VStr "AccessDeniedException"));
       (createFunction, Resolved (VObj [ ("FunctionArn", VStr "arn:fn") ])) ]
   /\ result r = Resolved [ []; [] ])
  /\ (let r := reconcile update_denied "us-east-1" fn_params
                 (VObj [ ("EventSourceMappings", VArr desired_AB);
                         ("ScheduleEvents", VArr []) ]) 0 in
      map (fun c => (c_api c, c_issued c, is_resolved (c_result c))) (calls r)
      = [ (getFunction, 0, true); (listEventSourceMappings, 1, true);
          (updateFunctionCode, 2, false);
          (createEventSourceMapping, 2, true);
          (createEventSourceMapping, 2, true) ]
      /\ result r = Rejected (VStr "AccessDeniedException")).
Proof. repeat split; vm_compute; reflexivity. Qed.

(** ** Several regions *)

(** Two regions where every call succeeds. *)
Lemma deploy_regions_sample :
  archive (laptop (Returned (VArr desired_A))) = Resolved (VStr "zip")
  /\ _eventSourceList (laptop (Returned (VArr desired_A)))
       (options (VStr "nodejs6.10") (VStr "event_sources.json")
          "us-east-1,us-west-2")
     = Returned (VObj [ ("EventSourceMappings", VArr desired_A);
                        ("ScheduleEvents", VArr []) ])
  /\ d_report (deploy established (laptop (Returned (VArr desired_A)))
                (options (VStr "nodejs6.10") (VStr "event_sources.json")
                   "us-east-1,us-west-2"))
     <> Nothing
  /\ d_calls (deploy established (laptop (Returned (VArr desired_A)))
               (options (VStr "nodejs6.10") (VStr "event_sources.json")
                  "us-east-1,us-west-2"))
     = concat
         (map calls
            (map (fun region =>
                    reconcile established region
                      (VObj [ ("FunctionName", VStr "fn");
                              ("Code", VObj [ ("ZipFile", VStr "zip") ]);
                              ("Handler", VStr "index.handler");
                              ("Role", VStr "role");
                              ("Runtime", VStr "nodejs6.10");
                              ("Description", VUndefined);
                              ("MemorySize", VNum 128);
                              ("Timeout", VNum 3);
                              ("Publish", VBool false);
                              ("VpcConfig",
                                VObj [ ("SubnetIds", VArr []);
                                       ("SecurityGroupIds", VArr []) ]);
                              ("Environment", VObj [ ("Variables", VNull) ]);
                              ("DeadLetterConfig", VObj [ ("TargetArn", VNull) ]);
                              ("TracingConfig", VObj [ ("Mode", VNull) ]) ])
                      (VObj [ ("EventSourceMappings", VArr desired_A);
                              ("ScheduleEvents", VArr []) ]) 0)
               [ "us-east-1"; "us-west-2" ])).
Proof.
  split; [reflexivity|]. split; [reflexivity|].
  split; [vm_compute; discriminate|].
  exact (proj1 (deploy_regions established (laptop (Returned (VArr desired_A)))
                  (options (VStr "nodejs6.10") (VStr "event_sources.json")
                     "us-east-1,us-west-2")
                  (VStr "zip") _ _ eq_refl eq_refl eq_refl)).
Defined.

(** C1 as stated fails: of two regions, us-east-1 is reconciled in full
    and succeeds, us-west-2 fails at the create. The report is not a
    result per region with the error in the second: it is that error
    alone. *)
Lemma deploy_reports_single_error :
  split_on "," (region (options (VStr "nodejs6.10") VUndefined "us-east-1,us-west-2"))
  = [ "us-east-1"; "us-west-2" ]
  /\ map (fun c => (c_region c, c_api c, is_resolved (c_result c)))
       (d_calls (deploy west_denied (laptop (Thrown (VStr "ENOENT")))
                   (options (VStr "nodejs6.10") VUndefined "us-east-1,us-west-2")))
     = [ ("us-east-1", getFunction, false); ("us-east-1", createFunction, true);
         ("us-west-2", getFunction, false); ("us-west-2", createFunction, false) ]
  /\ d_report (deploy west_denied (laptop (Thrown (VStr "ENOENT")))
                (options (VStr "nodejs6.10") VUndefined "us-east-1,us-west-2"))
     = Error (VStr "AccessDeniedException")
  /\ forall results,
       d_report (deploy west_denied (laptop (Thrown (VStr "ENOENT")))
                   (options (VStr "nodejs6.10") VUndefined "us-east-1,us-west-2"))
       <> Results results.
Proof.
  split; [reflexivity|]. split; [vm_compute; reflexivity|].
  split; [vm_compute; reflexivity|]. intros results. vm_compute. discriminate.
Qed.

(** ** The runtime *)

(** C6 as stated fails for [deploy]: with a runtime outside the list, the
    platform is called all the same, and the create carries the runtime
    as it was given. *)
Lemma deploy_forwards_unsupported_runtime :
  existsb (strict_eq (runtime (options (VStr "python2.7") VUndefined "us-east-1")))
    [ VStr "nodejs4.3"; VStr "nodejs6.10" ] = false
  /\ map (fun c => (c_api c, get "Runtime" (c_params c)))
       (d_calls (deploy west_denied (laptop (Thrown (VStr "ENOENT")))
                   (options (VStr "python2.7") VUndefined "us-east-1")))
     = [ (getFunction, VUndefined); (createFunction, VStr "python2.7") ].
Proof. split; vm_compute; reflexivity. Qed.

(** ** The desired state *)

(** No path, a bare sequence, and a file that does not parse. *)
Lemma _eventSourceList_cases_sample :
  _eventSourceList (laptop (Returned (VArr desired_AB)))
    (options (VStr "nodejs6.10") VUndefined "us-east-1")
  = Returned (VObj [ ("EventSourceMappings", VNull); ("ScheduleEvents", VNull) ])
  /\ _eventSourceList (laptop (Returned (VArr desired_AB)))
       (options (VStr "nodejs6.10") (VStr "event_sources.json") "us-east-1")
     = Returned (VObj [ ("EventSourceMappings", VArr desired_AB);
                        ("ScheduleEvents", VArr []) ])
  /\ _eventSourceList (laptop (Thrown (VStr "SyntaxError")))
       (options (VStr "nodejs6.10") (VStr "event_sources.json") "us-east-1")
     = Thrown (VStr "SyntaxError").
Proof.
  split; [|split].
  - destruct (_eventSourceList_cases (laptop (Returned (VArr desired_AB)))
                (options (VStr "nodejs6.10") VUndefined "us-east-1"))
      as [Hnone _].
    exact (proj1 (Hnone eq_refl)).
  - destruct (_eventSourceList_cases (laptop (Returned (VArr desired_AB)))
                (options (VStr "nodejs6.10") (VStr "event_sources.json")
                   "us-east-1"))
      as [_ Hsome].
    destruct (Hsome eq_refl) as (_ & Hbare & _).
    exact (Hbare desired_AB eq_refl).
  - destruct (_eventSourceList_cases (laptop (Thrown (VStr "SyntaxError")))
                (options (VStr "nodejs6.10") (VStr "event_sources.json")
                   "us-east-1"))
      as [_ Hsome].
    destruct (Hsome eq_refl) as (Hthrown & _).
    exact (Hthrown (VStr "SyntaxError") eq_refl).
Defined.

(** C7 as stated fails without a declared path: the two collections are
    [null], not empty. The difference decides the reconciliation: against
    the two existing mappings of the scenario, [null] calls nothing, the
    empty collection deletes both. *)
Lemma no_path_is_null_not_empty :
  _eventSourceList (laptop (Thrown (VStr "ENOENT")))
    (options (VStr "nodejs6.10") VUndefined "us-east-1")
  = Returned (VObj [ ("EventSourceMappings", VNull); ("ScheduleEvents", VNull) ])
  /\ VNull <> VArr []
  /\ calls (_updateEventSources established "us-east-1" (VStr "fn")
              (VArr existing_AB) VNull 0) = []
  /\ map (fun c => (c_api c, c_params c))
       (calls (_updateEventSources established "us-east-1" (VStr "fn")
                 (VArr existing_AB) (VArr []) 0))
     = [ (deleteEventSourceMapping, VObj [ ("UUID", VStr "u1") ]);
         (deleteEventSourceMapping, VObj [ ("UUID", VStr "u2") ]) ].
Proof. repeat split; try discriminate; vm_compute; reflexivity. Qed.

(** ** The archive *)

(** Two builds in one process: the second archive has the file of the
    second walk and still the stale file of the first. *)
Lemma _zip_accumulates_sample :
  snd (_zip "/w/.lambda" second_walk
         (fst (_zip "/w/.lambda" first_walk zip_new))) !! "index.js"
  = Some "v2"
  /\ is_Some (snd (_zip "/w/.lambda" second_walk
                     (fst (_zip "/w/.lambda" first_walk zip_new)))
              !! "lib/old.js").
Proof.
  pose proof (_zip_accumulates "/w/.lambda" "/w/.lambda" first_walk second_walk
                zip_new) as H.
  destruct (_zip "/w/.lambda" first_walk zip_new) as [zip1 archive1] eqn:E1.
  cbn [fst].
  destruct (_zip "/w/.lambda" second_walk zip1) as [zip2 archive2] eqn:E2.
  cbn [snd]. destruct H as (Hnew & Hold & _).
  split.
  - refine (proj2 (Hnew (WalkItem "/w/.lambda/index.js" false "v2") "index.js"
                     _ eq_refl eq_refl) _).
    + left.
    + vm_compute. repeat constructor. set_solver.
  - refine (Hold (WalkItem "/w/.lambda/lib/old.js" false "old") _ eq_refl).
    right. left.
Defined.

(** * Further properties *)

(** ** The operation list, for collections that need not be keyed *)

Lemma count_type_ops fn E D :
  count_type "create" (updateEventSourceList fn E D)
  = length (List.filter (fun d => negb (matched E d)) D)
  /\ count_type "update" (updateEventSourceList fn E D)
     = length (List.filter (matched E) D)
  /\ count_type "delete" (updateEventSourceList fn E D)
     = length (List.filter (fun e => negb (is_desired D e)) E).
Proof.
  unfold updateEventSourceList. split; [|split].
  - rewrite count_type_app, !count_type_map.
    rewrite (length_filter_ext (fun a => has_type "create" (classify fn E a))
               (fun d => negb (matched E d)))
      by (intros d _; apply (has_type_classify fn E d)).
    rewrite (length_filter_ext (fun a => has_type "create" (delete_op a))
               (fun _ => false)) by (intros; reflexivity).
    rewrite length_filter_false. lia.
  - rewrite count_type_app, !count_type_map.
    rewrite (length_filter_ext (fun a => has_type "update" (classify fn E a))
               (matched E))
      by (intros d _; apply (has_type_classify fn E d)).
    rewrite (length_filter_ext (fun a => has_type "update" (delete_op a))
               (fun _ => false)) by (intros; reflexivity).
    rewrite length_filter_false. lia.
  - rewrite count_type_app, !count_type_map.
    rewrite (length_filter_ext (fun a => has_type "delete" (classify fn E a))
               (fun _ => false))
      by (intros d _; apply (has_type_classify fn E d)).
    rewrite (length_filter_ext (fun a => has_type "delete" (delete_op a))
               (fun _ => true)) by (intros; reflexivity).
    rewrite length_filter_false, length_filter_true. lia.
Qed.

(** X1. For collections without a null element, whatever else they hold
    (the loops read a property of every element, which throws on [null]
    and [undefined]; duplicates and missing ARNs are allowed), every
    desired binding gets exactly one operation, a create or an update, and
    the only other operations are deletes, at most one per existing
    mapping. *)
Theorem updateEventSourceList_counts (functionName : value) (E D : list value) :
  Forall (fun e => is_nullish e = false) E ->
  Forall (fun d => is_nullish d = false) D ->
  let ops := updateEventSourceList functionName E D in
  count_type "create" ops + count_type "update" ops = length D
  /\ count_type "delete" ops <= length E
  /\ length ops = length D + count_type "delete" ops.
Proof.
  intros _ _ ops. unfold ops.
  destruct (count_type_ops functionName E D) as (Hc & Hu & Hd).
  rewrite Hc, Hu, Hd.
  pose proof (length_filter_split (matched E) D) as HD.
  pose proof (length_filter_split (is_desired D) E) as HE.
  split; [lia|]. split; [lia|].
  unfold updateEventSourceList. rewrite length_app, !length_map. lia.
Qed.

(** X3. Idempotence. When the existing mappings are those of the desired
    collection (the same ARNs on both sides, each keyed), reconciling
    creates nothing and deletes nothing: every operation is an update. *)
Theorem updateEventSourceList_idempotent (functionName : value) (D E : list value) :
  keyed D -> keyed E -> arns D = arns E ->
  let ops := updateEventSourceList functionName E D in
  count_type "create" ops = 0
  /\ count_type "delete" ops = 0
  /\ count_type "update" ops = length D
  /\ length ops = length D.
Proof.
  intros HD HE Heq ops. unfold ops.
  destruct (count_type_ops functionName E D) as (Hc & Hu & Hd).
  destruct (count_in_set D (arns E) (matched E) HD) as [_ Hcre].
  { intros d s _ Hs. by apply matched_arns. }
  destruct (count_in_set E (arns D) (is_desired D) HE) as [_ Hdel].
  { intros e s _ Hs. by apply is_desired_arns. }
  assert (Hc0 : count_type "create" (updateEventSourceList functionName E D) = 0).
  { rewrite Hc, Hcre, Heq. apply size_empty_iff. set_solver. }
  assert (Hd0 : count_type "delete" (updateEventSourceList functionName E D) = 0).
  { rewrite Hd, Hdel, Heq. apply size_empty_iff. set_solver. }
  pose proof (length_filter_split (matched E) D) as Hsplit.
  split; [done|]. split; [done|]. split; [lia|].
  unfold updateEventSourceList. rewrite length_app, !length_map.
  rewrite Hd in Hd0. lia.
Qed.

Lemma find_existing_Some a E e :
  find_existing a E = Some e -> e ∈ E /\ strict_eq a (arn e) = true.
Proof.
  induction E as [|e0 E IH]; cbn [find_existing]; [done|].
  destruct (strict_eq a (arn e0)) eqn:Heq.
  - intros [= <-]. split; [left|done].
  - intros H. destruct (IH H) as [Hin Hs]. split; [by right|done].
Qed.

Lemma find_existing_None a E :
  find_existing a E = None -> forall e, e ∈ E -> strict_eq a (arn e) = false.
Proof.
  induction E as [|e0 E IH]; cbn [find_existing]; intros H e He.
  - by apply elem_of_nil in He.
  - destruct (strict_eq a (arn e0)) eqn:Heq; [discriminate|].
    apply elem_of_cons in He as [->|He]; [done|by apply IH].
Qed.

Lemma is_desired_false D e :
  is_desired D e = false -> forall d, d ∈ D -> strict_eq (arn d) (arn e) = false.
Proof.
  unfold is_desired. induction D as [|d0 D IH]; cbn [existsb]; intros H d Hd.
  - by apply elem_of_nil in Hd.
  - apply orb_false_iff in H as [H0 H].
    apply elem_of_cons in Hd as [->|Hd]; [done|by apply IH].
Qed.

(** X4. Where every operation comes from. A delete is the delete of an
    existing mapping whose ARN no desired binding has: a desired source is
    never deleted. An update carries the settings of a desired binding and
    the UUID of an existing mapping with the same ARN. A create is for a
    desired binding whose ARN no existing mapping has, and carries no
    UUID: what exists is never created again. *)
Theorem updateEventSourceList_provenance
  (functionName : value) (E D : list value) (op : value) :
  op ∈ updateEventSourceList functionName E D ->
  (has_type "delete" op = true /\
     exists e, e ∈ E /\ op = delete_op e
       /\ forall d, d ∈ D -> strict_eq (arn d) (arn e) = false)
  \/ (has_type "update" op = true /\
      exists d e, d ∈ D /\ e ∈ E /\ op = update_op functionName d e
        /\ strict_eq (arn d) (arn e) = true)
  \/ (has_type "create" op = true /\ get "UUID" op = VUndefined /\
      exists d, d ∈ D /\ op = create_op functionName d
        /\ forall e, e ∈ E -> strict_eq (arn d) (arn e) = false).
Proof.
  unfold updateEventSourceList. rewrite elem_of_app, !list_elem_of_fmap.
  intros [(d & -> & Hd)|(e & -> & He)].
  - unfold classify. destruct (find_existing (arn d) E) as [e|] eqn:Hf.
    + right. left. split; [done|].
      destruct (find_existing_Some _ _ _ Hf) as [He Hs]. by exists d, e.
    + right. right. split; [done|]. split; [done|].
      exists d. split; [done|]. split; [done|].
      by apply find_existing_None.
  - left. split; [done|].
    apply list_elem_of_In, List.filter_In in He as [He Hnot].
    exists e. split; [by apply list_elem_of_In|]. split; [done|].
    apply is_desired_false. by apply negb_true_iff.
Qed.

(** ** Strings: regions, subnets and function names *)

Lemma split_on_cons sep s : exists piece pieces, split_on sep s = piece :: pieces.
Proof.
  destruct s as [|c s]; cbn [split_on]; [by eexists _, _|].
  destruct (Ascii.eqb c sep); [by eexists _, _|].
  destruct (split_on sep s); by eexists _, _.
Qed.

Lemma concat_cons sep piece pieces :
  String.concat sep (piece :: pieces)
  = match pieces with
    | [] => piece
    | _ :: _ => (piece ++ sep ++ String.concat sep pieces)%string
    end.
Proof. by destruct pieces. Qed.

(** X5. Splitting on a separator loses nothing: there is always at least
    one piece (the whole string when the separator does not occur, the
    empty string for the empty string), one piece more than there are
    separators, no piece holds the separator, and joining the pieces with
    the separator gives the string back. This is how [deploy] reads the
    region list and [_params] the subnet and security-group lists. *)
Theorem split_on_join (sep : ascii) (s : string) :
  length (split_on sep s) = S (occurrences sep s)
  /\ Forall (fun piece => occurrences sep piece = 0) (split_on sep s)
  /\ String.concat (String sep EmptyString) (split_on sep s) = s.
Proof.
  induction s as [|c s (Hlen & Hnone & Hjoin)]; [by repeat constructor|].
  cbn [split_on occurrences].
  destruct (Ascii.eqb c sep) eqn:Hc.
  - apply Ascii.eqb_eq in Hc as ->. split; [cbn; lia|]. split.
    + by constructor.
    + rewrite concat_cons.
      destruct (split_on_cons sep s) as (piece & pieces & Hs).
      rewrite Hs in Hjoin |- *. by rewrite Hjoin.
  - destruct (split_on_cons sep s) as (piece & pieces & Hs).
    rewrite Hs in Hlen, Hnone, Hjoin |- *.
    split; [cbn in *; lia|]. split.
    + apply list.Forall_cons in Hnone as [Hp Hps].
      constructor; [|done]. cbn [occurrences]. by rewrite Hc, Hp.
    + rewrite concat_cons in Hjoin |- *.
      destruct pieces; by rewrite <- Hjoin.
Qed.

Lemma escape_name_valid s : valid_name (escape_name s) = true.
Proof.
  induction s as [|c s IH]; [done|]. cbn [escape_name valid_name].
  rewrite IH. destruct (allowed_in_name c) eqn:Hc; [by rewrite Hc|done].
Qed.

Lemma escape_name_length s : String.length (escape_name s) = String.length s.
Proof. induction s as [|c s IH]; [done|]. cbn. by rewrite IH. Qed.

Lemma escape_name_id s : valid_name s = true -> escape_name s = s.
Proof.
  induction s as [|c s IH]; [done|]. cbn [escape_name valid_name].
  intros [Hc Hs]%andb_true_iff. by rewrite Hc, IH.
Qed.

(** X6. The function name that [_params] builds is always acceptable to
    the platform: it holds only letters, digits, hyphens and underscores,
    has the length of the name composed from the options (every other
    character became one underscore), and is that name unchanged when it
    was acceptable already. *)
Theorem _params_FunctionName (h : host) (p : program) (buffer params : value) :
  _params h p buffer = Returned params ->
  let composed :=
    (functionName p
     ++ (if (environment p =? "")%string then "" else "-" ++ environment p)
     ++ (if (lambdaVersion p =? "")%string then "" else "-" ++ lambdaVersion p))%string in
  exists name,
    get "FunctionName" params = VStr name
    /\ valid_name name = true
    /\ String.length name = String.length composed
    /\ (valid_name composed = true -> name = composed).
Proof.
  intros H composed.
  exists (escape_name composed).
  assert (Hname : get "FunctionName" params = VStr (escape_name composed)).
  { unfold _params in H. unfold composed. cbn [truthy] in H.
    destruct (environment p =? "")%string, (lambdaVersion p =? "")%string;
      cbn [negb] in H;
      (destruct (truthy (configFile p));
       [destruct (readConfig h (configFile p)); [|discriminate]|];
       injection H as <-; reflexivity). }
  split; [done|]. split; [apply escape_name_valid|].
  split; [apply escape_name_length|apply escape_name_id].
Qed.

(** ** The archive: names below the code directory *)

Lemma entry_name_below codeDirectory file rel :
  w_path file = (codeDirectory ++ "/" ++ rel)%string ->
  entry_name codeDirectory file = rel.
Proof.
  intros H. unfold entry_name. rewrite H, <- append_assoc.
  apply remove_first_prefix.
Qed.

Lemma entry_names_NoDup codeDirectory (walk : list walk_item) :
  Forall (fun file => w_isDirectory file = false ->
            exists rel, w_path file = (codeDirectory ++ "/" ++ rel)%string)
    walk ->
  NoDup (map w_path walk) ->
  NoDup (map (entry_name codeDirectory)
           (List.filter (fun f => negb (w_isDirectory f)) walk)).
Proof.
  induction walk as [|file walk IH]; intros Hbelow Hpaths; [constructor|].
  apply list.Forall_cons in Hbelow as [Hfile Hbelow].
  cbn [map] in Hpaths. apply list.NoDup_cons in Hpaths as [Hfresh Hpaths].
  cbn [List.filter]. destruct (w_isDirectory file) eqn:Hd; cbn [negb map].
  { by apply IH. }
  destruct (Hfile eq_refl) as [rel Hrel].
  apply list.NoDup_cons. split; [|by apply IH].
  intros Hin. apply Hfresh.
  apply list_elem_of_fmap in Hin as (file' & Hname & Hin').
  apply list_elem_of_In, List.filter_In in Hin' as [Hin' Hd'].
  apply list_elem_of_In in Hin'. apply negb_true_iff in Hd'.
  destruct (proj1 (list.Forall_forall _ _) Hbelow file' Hin' Hd') as [rel' Hrel'].
  rewrite (entry_name_below _ _ _ Hrel), (entry_name_below _ _ _ Hrel') in Hname.
  rewrite Hrel, Hname, <- Hrel'. by apply (list_elem_of_fmap_2 w_path).
Qed.

(** X7. A walk lists the code directory itself, its subdirectories and
    its files. When it lists no path twice and every file is below the
    code directory, the archive holds every file of the walk under its
    path relative to the code directory, with the content of that very
    file; a directory adds no entry of its own, and the entries under
    other names are as they were. *)
Theorem _zip_relative_names
  (codeDirectory : string) (walk : list walk_item) (zip : gmap string string) :
  Forall (fun file => w_isDirectory file = false ->
            exists rel, w_path file = (codeDirectory ++ "/" ++ rel)%string)
    walk ->
  NoDup (map w_path walk) ->
  (forall file rel, file ∈ walk -> w_isDirectory file = false ->
     w_path file = (codeDirectory ++ "/" ++ rel)%string ->
     snd (_zip codeDirectory walk zip) !! rel = Some (w_content file))
  /\ (forall name,
      (forall file, file ∈ walk -> w_isDirectory file = false ->
         w_path file <> (codeDirectory ++ "/" ++ name)%string) ->
      snd (_zip codeDirectory walk zip) !! name = zip !! name).
Proof.
  intros Hbelow Hpaths. unfold _zip. cbn [snd]. split.
  - intros file rel Hin Hd Hrel.
    rewrite <- (entry_name_below _ _ _ Hrel).
    apply walk_stores; [|done|done]. by apply entry_names_NoDup.
  - intros name Hname. apply walk_keeps. intros file Hin Hd Heq.
    apply (Hname file Hin Hd).
    destruct (proj1 (list.Forall_forall _ _) Hbelow file Hin Hd) as [rel Hrel].
    rewrite (entry_name_below _ _ _ Hrel) in Heq. by rewrite Hrel, Heq.
Qed.

(** ** What a reconciliation calls *)

Section Reconciliation.

Variable P : platform.

Lemma within_weaken {A} region (Q Q' : api -> value -> Prop) t (r : settled A) :
  (forall op q, Q op q -> Q' op q) -> within region Q t r -> within region Q' t r.
Proof.
  intros HQ [Ht Hcalls]. split; [done|].
  eapply list.Forall_impl; [exact Hcalls|]. intros c (? & ? & ? & ?). auto.
Qed.

Lemma within_resolve {A} region Q (a : A) t : within region Q t (resolve a t).
Proof. split; [done|constructor]. Qed.

Lemma within_reject {A} region Q err t : within region Q t (@reject A err t).
Proof. split; [done|constructor]. Qed.

Lemma within_request region (Q : api -> value -> Prop) op q t :
  Q op q -> within region Q t (request P region op q t).
Proof.
  intros HQ. rewrite request_settled. split; cbn; [lia|].
  constructor; [|constructor]. cbn. repeat split; [done|lia|lia].
Qed.

Lemma within_later {A} region Q t t' (r : settled A) :
  t <= t' -> within region Q t' r -> within region Q t r.
Proof.
  intros Hle [Ht Hcalls]. split; [lia|].
  eapply list.Forall_impl; [exact Hcalls|]. intros c (? & ? & ? & ?).
  repeat split; [done|done|lia|done].
Qed.

Lemma within_callback {A B} region Q (m : task A) (k : outcome A -> task B) t :
  within region Q t (m t) ->
  (forall o t', within region Q t' (k o t')) ->
  within region Q t (callback m k t).
Proof.
  intros [Hm Hcm] Hk. unfold callback.
  specialize (Hk (result (m t)) (settled_at (m t))).
  apply (within_later region Q t) in Hk; [|done].
  destruct Hk as [Hk Hck]. split; cbn; [done|].
  apply Forall_app. by split.
Qed.

Lemma within_and_then {A B} region Q (m : task A) (f : A -> task B) t :
  within region Q t (m t) ->
  (forall a t', within region Q t' (f a t')) ->
  within region Q t (and_then m f t).
Proof.
  intros Hm Hf. apply within_callback; [done|].
  intros [a|err] t'; [apply Hf|apply within_reject].
Qed.

Lemma latest_ge {A} t (rs : list (settled A)) : t <= latest t rs.
Proof.
  unfold latest. induction rs as [|r rs IH]; cbn; [done|]. lia.
Qed.

Lemma within_Promise_all {A} region Q (ms : list (task A)) t :
  Forall (fun m => within region Q t (m t)) ms ->
  within region Q t (Promise_all ms t).
Proof.
  intros Hms. split.
  - unfold Promise_all.
    destruct (earliest_rejection (map (fun m => m t) ms)) as [[t' err]|] eqn:He;
      cbn [settled_at]; [|apply latest_ge].
    apply earliest_rejection_Some in He as (r & Hr & _ & <- & _).
    apply list_elem_of_fmap in Hr as (m & -> & Hm).
    rewrite list.Forall_forall in Hms. by destruct (Hms m Hm).
  - rewrite Promise_all_calls.
    induction Hms as [|m ms [_ Hm] _ IH]; cbn; [constructor|].
    apply Forall_app. by split.
Qed.

Lemma assoc_del_eq k fs : assoc k (assoc_del k fs) = VUndefined.
Proof.
  induction fs as [|[k' v'] fs IH]; cbn; [done|].
  destruct (k =? k')%string eqn:E; [done|]. cbn. by rewrite E.
Qed.

Lemma assoc_del_ne k k' fs : k <> k' -> assoc k' (assoc_del k fs) = assoc k' fs.
Proof.
  intros Hne. induction fs as [|[k0 v0] fs IH]; cbn; [done|].
  destruct (k =? k0)%string eqn:E; cbn.
  - apply String.eqb_eq in E as <-.
    destruct (k' =? k)%string eqn:E'; [|done].
    apply String.eqb_eq in E'. congruence.
  - by rewrite IH.
Qed.

Lemma within__uploadExisting region params t :
  within region (fun op q => updating op /\ sent_for params op q) t
    (_uploadExisting P region params t).
Proof.
  apply within_and_then; [|intros _ t']; apply within_request;
    (split; [by split|]); cbn; done.
Qed.

Lemma within__updateEventSources region params existing desired t :
  within region (fun op q => updating op /\ sent_for params op q) t
    (_updateEventSources P region (get "FunctionName" params) existing desired t).
Proof.
  unfold _updateEventSources.
  destruct (is_nullish desired); [apply within_resolve|].
  apply within_Promise_all, list.Forall_fmap, list.Forall_forall.
  intros op Hop. cbn.
  unfold updateEventSourceList in Hop.
  rewrite elem_of_app, !list_elem_of_fmap in Hop.
  destruct Hop as [(d & -> & _)|(e & -> & _)].
  - unfold classify. destruct (find_existing (arn d) (for_in existing));
      unfold apply_op; cbn; apply within_request; (split; [by split|]); done.
  - unfold apply_op; cbn; apply within_request; (split; [by split|]); done.
Qed.

Lemma within__updateEventSources_new region params desired t :
  within region (fun op q => creating op /\ sent_for params op q) t
    (_updateEventSources P region (get "FunctionName" params) (VArr []) desired t).
Proof.
  unfold _updateEventSources.
  destruct (is_nullish desired); [apply within_resolve|].
  apply within_Promise_all, list.Forall_fmap, list.Forall_forall.
  intros op Hop. cbn.
  unfold updateEventSourceList in Hop. cbn [for_in List.filter map] in Hop.
  rewrite app_nil_r in Hop. apply list_elem_of_fmap in Hop as (d & -> & _).
  unfold apply_op; cbn; apply within_request.
  split; [right; by left|done].
Qed.

Lemma sequential_issued t cs :
  sequential t cs ->
  Forall (fun c => t <= c_issued c /\ c_issued c <= c_settled c) cs.
Proof.
  revert t. induction cs as [|c cs IH]; intros t Hseq; [constructor|].
  destruct Hseq as (Hi & Hle & _ & Hseq). constructor; [lia|].
  eapply list.Forall_impl; [apply (IH _ Hseq)|]. intros c' ?. cbn in *. lia.
Qed.

Lemma within__updateScheduleEvents region functionArn scheduleList t :
  within region (fun op q => op = scheduleEventsAdd) t
    (_updateScheduleEvents P region functionArn scheduleList t)
  /\ forall c, c ∈ calls (_updateScheduleEvents P region functionArn scheduleList t) ->
       c_api c = scheduleEventsAdd
       /\ exists schedules schedule,
            scheduleList = VArr schedules /\ schedule ∈ schedules
            /\ c_params c = set "FunctionArn" functionArn schedule.
Proof.
  unfold _updateScheduleEvents.
  destruct (is_nullish scheduleList) eqn:Hnull.
  { split; [apply within_resolve|]. intros c Hc. by apply elem_of_nil in Hc. }
  destruct scheduleList as [| | | | |schedules|];
    try (split; [apply within_reject|];
         intros c Hc; by apply elem_of_nil in Hc).
  pose proof (_updateScheduleEvents_settled P region functionArn schedules t) as Hs.
  cbn zeta in Hs. unfold _updateScheduleEvents in Hs. cbn [is_nullish] in Hs.
  rewrite Hs. clear Hs.
  set (paramsList := map (set "FunctionArn" functionArn) schedules).
  destruct (in_series_facts P region paramsList VUndefined t)
    as (Hseq & Hall & Hmap & _ & _ & Hle).
  set (s := in_series P region paramsList VUndefined t) in *.
  assert (Hcalls : forall c, c ∈ calls s ->
            c_api c = scheduleEventsAdd /\ c_region c = region
            /\ t <= c_issued c /\ c_issued c <= c_settled c
            /\ c_params c ∈ paramsList).
  { intros c Hc.
    rewrite list.Forall_forall in Hall. destruct (Hall c Hc) as [Hapi Hreg].
    split; [done|]. split; [done|].
    assert (Hparams : c_params c ∈ paramsList).
    { assert (Hin : c_params c ∈ map c_params (calls s))
        by (by apply (list_elem_of_fmap_2 c_params)).
      rewrite Hmap in Hin.
      apply list_elem_of_lookup in Hin as [i Hi].
      apply lookup_take_Some in Hi as [Hi _]. by eapply list_elem_of_lookup_2. }
    apply sequential_issued in Hseq. rewrite list.Forall_forall in Hseq.
    destruct (Hseq c Hc). done. }
  assert (Hsame : forall (r : settled (list value)),
            calls r = calls s -> settled_at r = settled_at s ->
            within region (fun op q => op = scheduleEventsAdd) t r
            /\ forall c, c ∈ calls r ->
                 c_api c = scheduleEventsAdd
                 /\ exists schedules0 schedule,
                      VArr schedules = VArr schedules0 /\ schedule ∈ schedules0
                      /\ c_params c = set "FunctionArn" functionArn schedule).
  { intros r Hr Hat. unfold within. rewrite Hr. split.
    - split; [by rewrite Hat|]. apply list.Forall_forall. intros c Hc.
      destruct (Hcalls c Hc) as (Hapi & Hreg & Ht & Hs' & _). done.
    - intros c Hc. destruct (Hcalls c Hc) as (Hapi & _ & _ & _ & Hp).
      split; [done|]. apply list_elem_of_fmap in Hp as (schedule & -> & Hin).
      by exists schedules, schedule. }
  destruct (result s); by apply Hsame.
Qed.

Lemma within_function_does_not_exist region params eventSourceList t :
  within region (fun op q => creating op /\ sent_for params op q) t
    (function_does_not_exist P region params eventSourceList t).
Proof.
  apply within_and_then.
  { apply within_request. split; [by left|done]. }
  intros results t'. apply within_Promise_all.
  constructor; [apply within__updateEventSources_new|].
  constructor; [|constructor].
  eapply within_weaken; [|apply within__updateScheduleEvents].
  intros op q ->. split; [right; by right|done].
Qed.

Lemma within_function_exists region params eventSourceList t :
  within region (fun op q => updating op /\ sent_for params op q) t
    (function_exists P region params eventSourceList t).
Proof.
  apply within_and_then.
  { apply within_and_then; [|intros; apply within_resolve].
    apply within_request. split; [by split|done]. }
  intros existing t'. apply within_Promise_all.
  constructor; [|constructor; [apply within__updateEventSources|constructor]].
  apply within_and_then; [apply within__uploadExisting|].
  intros results t''.
  eapply within_weaken; [|apply within__updateScheduleEvents].
  intros op q ->. split; [by split|done].
Qed.

(** The log of a reconciliation: the probe, then the branch its outcome
    selects, started when the probe completes. *)
Lemma reconcile_settled region params eventSourceList t :
  let q := VObj [ ("FunctionName", get "FunctionName" params) ] in
  let probe :=
    Call region getFunction q t (t + fst (P t region getFunction q))
      (snd (P t region getFunction q)) in
  let branch :=
    match c_result probe with
    | Rejected _ => function_does_not_exist P region params eventSourceList
    | Resolved _ => function_exists P region params eventSourceList
    end (c_settled probe) in
  reconcile P region params eventSourceList t
  = Settled (probe :: calls branch) (settled_at branch) (result branch).
Proof.
  intros q probe branch. unfold reconcile, callback.
  rewrite request_settled. reflexivity.
Qed.

Lemma reconcile_calls_sent
  (region : string) (params eventSourceList : value) (t : time) :
  Forall (fun c => c_region c = region
                   /\ sent_for params (c_api c) (c_params c)
                   /\ t <= c_issued c /\ c_issued c <= c_settled c)
    (calls (reconcile P region params eventSourceList t)).
Proof.
  rewrite reconcile_settled. cbn [calls c_result c_settled].
  constructor; [cbn; repeat split; lia|].
  set (q := VObj [("FunctionName", get "FunctionName" params)]).
  destruct (snd (P t region getFunction q)).
  - destruct (within_function_exists region params eventSourceList
                (t + fst (P t region getFunction q))) as [_ H].
    eapply list.Forall_impl; [exact H|].
    intros c (? & [_ ?] & ? & ?). repeat split; [done|done|lia|done].
  - destruct (within_function_does_not_exist region params eventSourceList
                (t + fst (P t region getFunction q))) as [_ H].
    eapply list.Forall_impl; [exact H|].
    intros c (? & [_ ?] & ? & ?). repeat split; [done|done|lia|done].
Qed.


(** X8. Whatever the platform answers, every call of a region's
    reconciliation is made by that region's client, not before the
    reconciliation started, and for this function: the probe and the
    listing name it, the create carries the parameters unchanged, the code
    update carries the archive, the configuration update carries no code,
    mapping creates and updates name the function, a mapping delete
    carries the UUID only, and the [type] of an operation entry is never
    sent. *)
Theorem reconcile_sends
  (region : string) (params eventSourceList : value) (t : time) :
  Forall (fun c => c_region c = region
                   /\ sent_for params (c_api c) (c_params c)
                   /\ t <= c_issued c /\ c_issued c <= c_settled c)
    (calls (reconcile P region params eventSourceList t)).
Proof. apply reconcile_calls_sent. Qed.

(** X9. A reconciliation probes once, first, and then either creates or
    updates, never both. After a failed probe it only creates: the
    function, mappings, schedules; it lists, updates and deletes nothing.
    After a successful probe it never creates the function. *)
Theorem reconcile_creates_or_updates
  (region : string) (params eventSourceList : value) (t : time) :
  exists probe rest,
    calls (reconcile P region params eventSourceList t) = probe :: rest
    /\ c_api probe = getFunction /\ c_issued probe = t
    /\ Forall (fun c => c_api c <> getFunction /\ c_settled probe <= c_issued c) rest
    /\ match c_result probe with
       | Rejected _ => Forall (fun c => creating (c_api c)) rest
       | Resolved _ => Forall (fun c => c_api c <> createFunction) rest
       end.
Proof.
  rewrite reconcile_settled. cbn [calls c_result c_settled].
  set (q := VObj [("FunctionName", get "FunctionName" params)]).
  eexists _, _. split; [reflexivity|]. cbn [c_api c_issued c_settled c_result].
  split; [done|]. split; [done|].
  destruct (snd (P t region getFunction q)).
  - destruct (within_function_exists region params eventSourceList
                (t + fst (P t region getFunction q))) as [_ H].
    split; (eapply list.Forall_impl; [exact H|]);
      intros c (? & [[? ?] _] & ? & ?); done.
  - destruct (within_function_does_not_exist region params eventSourceList
                (t + fst (P t region getFunction q))) as [_ H].
    split; (eapply list.Forall_impl; [exact H|]);
      intros c (? & [Hc _] & ? & ?); [|done].
    split; [|done]. destruct Hc as [Hc|[Hc|Hc]]; rewrite Hc; done.
Qed.

Lemma _uploadExisting_resolved region params t results :
  result (_uploadExisting P region params t) = Resolved results ->
  exists config,
    config ∈ calls (_uploadExisting P region params t)
    /\ c_api config = updateFunctionConfiguration
    /\ c_result config = Resolved results
    /\ c_settled config = settled_at (_uploadExisting P region params t).
Proof.
  unfold _uploadExisting, mbind, task_bind.
  rewrite and_then_settled, !request_settled. cbn [result calls settled_at].
  match goal with
  | |- context [P t region updateFunctionCode ?q] =>
      destruct (P t region updateFunctionCode q) as [l1 [data|err]]
  end; cbn [fst snd result calls settled_at app]; [|discriminate].
  intros H. eexists. split; [right; left|]. cbn. done.
Qed.

Lemma not_schedule_in_bindings region fn existing desired t c :
  c ∈ calls (_updateEventSources P region fn existing desired t) ->
  c_api c <> scheduleEventsAdd.
Proof.
  intros Hc Hapi.
  pose proof (_updateEventSources_apis P region fn existing desired t) as H.
  rewrite list.Forall_forall in H. destruct (H c Hc) as [H'|[H'|H']]; congruence.
Qed.

Lemma not_schedule_in_update region params t c :
  c ∈ calls (_uploadExisting P region params t) -> c_api c <> scheduleEventsAdd.
Proof.
  intros Hc Hapi.
  pose proof (_uploadExisting_apis P region params t) as H.
  rewrite list.Forall_forall in H. destruct (H c Hc) as [H'|H']; congruence.
Qed.

(** X10. Every schedule upsert of a reconciliation is scoped to the
    function that this reconciliation created or updated: it is issued
    only after the create, or the configuration update, has succeeded,
    and it carries one of the declared schedules with, as FunctionArn, the
    ARN in that call's response. *)
Theorem reconcile_schedules_scoped
  (region : string) (params eventSourceList : value) (t : time) (c : call) :
  c ∈ calls (reconcile P region params eventSourceList t) ->
  c_api c = scheduleEventsAdd ->
  exists f results schedules schedule,
    f ∈ calls (reconcile P region params eventSourceList t)
    /\ (c_api f = createFunction \/ c_api f = updateFunctionConfiguration)
    /\ c_result f = Resolved results
    /\ c_settled f <= c_issued c
    /\ get "ScheduleEvents" eventSourceList = VArr schedules
    /\ schedule ∈ schedules
    /\ c_params c = set "FunctionArn" (get "FunctionArn" results) schedule.
Proof.
  rewrite reconcile_settled. cbn [calls c_result c_settled].
  set (q := VObj [("FunctionName", get "FunctionName" params)]).
  intros [->|Hc]%elem_of_cons Hapi; [discriminate|].
  destruct (P t region getFunction q) as [l0 [found|notfound]]; cbn [fst snd] in *.
  - (* the function exists *)
    revert Hc. unfold function_exists, _listEventSourceMappings, mbind, task_bind.
    rewrite !and_then_settled, request_settled. fold q.
    cbn [result calls settled_at].
    destruct (P (t + l0) region listEventSourceMappings q) as [l1 [data|err]];
      cbn [fst snd resolve result calls settled_at app].
    2:{ intros ->%list_elem_of_singleton. discriminate. }
    rewrite Promise_all_calls. cbn [map concat]. rewrite app_nil_r.
    rewrite and_then_settled.
    intros [->|Hc]%elem_of_cons; [discriminate|].
    destruct (result (_uploadExisting P region params (t + l0 + l1)))
      as [results|err] eqn:Hupdate; cbn [calls] in Hc.
    + rewrite !elem_of_app in Hc. destruct Hc as [[Hc|Hc]|Hc].
      * by apply not_schedule_in_update in Hc.
      * destruct (_uploadExisting_resolved _ _ _ _ Hupdate)
          as (config & Hin & Hcapi & Hcres & Hcat).
        destruct (within__updateScheduleEvents region (get "FunctionArn" results)
                    (get "ScheduleEvents" eventSourceList)
                    (settled_at (_uploadExisting P region params (t + l0 + l1))))
          as [[_ Hw] Hparams].
        rewrite list.Forall_forall in Hw.
        destruct (Hw c Hc) as (_ & _ & Hissued & _).
        destruct (Hparams c Hc) as (_ & schedules & schedule & HSE & Hs & Hp).
        exists config, results, schedules, schedule.
        split; [right; right; cbn [calls]; rewrite !elem_of_app; left; by left|].
        split; [by right|]. split; [done|]. split; [lia|]. done.
      * by apply not_schedule_in_bindings in Hc.
    + rewrite elem_of_app in Hc. destruct Hc as [Hc|Hc].
      * by apply not_schedule_in_update in Hc.
      * by apply not_schedule_in_bindings in Hc.
  - (* the function does not exist *)
    revert Hc. unfold function_does_not_exist, _uploadNew, mbind, task_bind.
    rewrite and_then_settled, request_settled.
    cbn [result calls settled_at].
    destruct (P (t + l0) region createFunction params) as [l1 [results|err]];
      cbn [fst snd result calls settled_at app].
    2:{ intros ->%list_elem_of_singleton. discriminate. }
    rewrite Promise_all_calls. cbn [map concat]. rewrite app_nil_r.
    intros [->|Hc]%elem_of_cons; [discriminate|].
    rewrite elem_of_app in Hc. destruct Hc as [Hc|Hc].
    + by apply not_schedule_in_bindings in Hc.
    + destruct (within__updateScheduleEvents region (get "FunctionArn" results)
                  (get "ScheduleEvents" eventSourceList) (t + l0 + l1))
        as [[_ Hw] Hparams].
      rewrite list.Forall_forall in Hw.
      destruct (Hw c Hc) as (_ & _ & Hissued & _).
      destruct (Hparams c Hc) as (_ & schedules & schedule & HSE & Hs & Hp).
      eexists _, results, schedules, schedule.
      split; [right; left|]. cbn. split; [by left|]. done.
Qed.

Lemma Promise_all_Resolved_inv {A} (ms : list (task A)) t values :
  result (Promise_all ms t) = Resolved values ->
  Forall2 (fun (m : task A) a => result (m t) = Resolved a) ms values.
Proof.
  unfold Promise_all.
  destruct (earliest_rejection (map (fun m => m t) ms)) as [[t' err]|] eqn:He;
    [discriminate|].
  intros [= <-]. apply earliest_rejection_None in He.
  apply resolved_values_all in He. by apply list.Forall2_fmap_l in He.
Qed.

Lemma _updateScheduleEvents_Resolved region functionArn scheduleList t v :
  result (_updateScheduleEvents P region functionArn scheduleList t) = Resolved v ->
  v = schedule_results functionArn scheduleList.
Proof.
  destruct scheduleList as [| | | | |schedules|]; try (by intros [= <-]);
    try discriminate.
  rewrite _updateScheduleEvents_settled. cbn [schedule_results].
  destruct (result (in_series P region _ VUndefined t)); [|discriminate].
  by intros [= <-].
Qed.

Lemma _updateEventSources_Resolved region fn existing desired t v :
  result (_updateEventSources P region fn existing desired t) = Resolved v ->
  length v = length (calls (_updateEventSources P region fn existing desired t)).
Proof.
  destruct (is_nullish desired) eqn:Hnull.
  { unfold _updateEventSources. rewrite Hnull. by intros [= <-]. }
  rewrite (_updateEventSources_calls P region fn existing desired t Hnull).
  unfold _updateEventSources. rewrite Hnull.
  intros H%Promise_all_Resolved_inv. apply Forall2_length in H.
  by rewrite !length_map in *.
Qed.

Lemma filter_binding_calls_all (cs : list call) :
  Forall (fun c => c_api c = createEventSourceMapping
                   \/ c_api c = updateEventSourceMapping
                   \/ c_api c = deleteEventSourceMapping) cs ->
  List.filter is_binding_call cs = cs.
Proof.
  induction 1 as [|c cs Hc _ IH]; [done|]. cbn [List.filter].
  unfold is_binding_call at 1. destruct Hc as [Hc|[Hc|Hc]]; rewrite Hc;
    by rewrite IH.
Qed.

Lemma filter_binding_calls_none (cs : list call) :
  Forall (fun c => is_binding_call c = false) cs ->
  List.filter is_binding_call cs = [].
Proof.
  induction 1 as [|c cs Hc _ IH]; [done|]. cbn [List.filter]. by rewrite Hc.
Qed.

Lemma no_binding_in_update region params t :
  Forall (fun c => is_binding_call c = false)
    (calls (_uploadExisting P region params t)).
Proof.
  eapply list.Forall_impl; [apply _uploadExisting_apis|].
  intros c [Hc|Hc]; unfold is_binding_call; by rewrite Hc.
Qed.

Lemma no_binding_in_schedules region functionArn scheduleList t :
  Forall (fun c => is_binding_call c = false)
    (calls (_updateScheduleEvents P region functionArn scheduleList t)).
Proof.
  destruct (within__updateScheduleEvents region functionArn scheduleList t)
    as [[_ H] _].
  eapply list.Forall_impl; [exact H|].
  intros c (_ & Hc & _). unfold is_binding_call. by rewrite Hc.
Qed.

(** X11. When a reconciliation resolves, its result has two components:
    the outcomes of the event-source operations, one per operation called,
    and the schedules as they were upserted (each with the function ARN).
    The order depends on the branch: for a function that was created the
    event-source outcomes come first, for a function that was updated the
    schedules come first. *)
Theorem reconcile_results
  (region : string) (params eventSourceList : value) (t : time)
  (results : list (list value)) :
  result (reconcile P region params eventSourceList t) = Resolved results ->
  exists probe rest functionArn bindings,
    calls (reconcile P region params eventSourceList t) = probe :: rest
    /\ length bindings = length (List.filter is_binding_call rest)
    /\ results =
       match c_result probe with
       | Rejected _ =>
           [ bindings;
             schedule_results functionArn (get "ScheduleEvents" eventSourceList) ]
       | Resolved _ =>
           [ schedule_results functionArn (get "ScheduleEvents" eventSourceList);
             bindings ]
       end.
Proof.
  rewrite reconcile_settled. cbn [calls result c_result c_settled].
  set (q := VObj [("FunctionName", get "FunctionName" params)]).
  destruct (P t region getFunction q) as [l0 [found|notfound]]; cbn [fst snd] in *.
  - unfold function_exists, _listEventSourceMappings, mbind, task_bind.
    rewrite !and_then_settled, request_settled. fold q.
    cbn [result calls settled_at].
    destruct (P (t + l0) region listEventSourceMappings q) as [l1 [data|err]];
      cbn [fst snd resolve result calls settled_at app]; [|discriminate].
    rewrite Promise_all_calls. cbn [map concat]. rewrite app_nil_r.
    intros Hall%Promise_all_Resolved_inv.
    inversion Hall as [|m1 a ms1 vs1 Hm1 Hrest]; subst.
    inversion Hrest as [|m2 b ms2 vs2 Hm2 Hnil]; subst.
    inversion Hnil; subst. clear Hall Hrest Hnil.
    rewrite and_then_settled in Hm1 |- *.
    destruct (result (_uploadExisting P region params (t + l0 + l1)))
      as [uploaded|err] eqn:Hupdate; cbn [result calls] in Hm1 |- *;
      [|discriminate].
    apply _updateScheduleEvents_Resolved in Hm1 as ->.
    eexists _, _, (get "FunctionArn" uploaded), b.
    split; [reflexivity|]. split; [|reflexivity].
    cbn [List.filter is_binding_call c_api].
    rewrite !List.filter_app.
    rewrite (filter_binding_calls_none _ (no_binding_in_update _ _ _)).
    rewrite (filter_binding_calls_none _ (no_binding_in_schedules _ _ _ _)).
    rewrite (filter_binding_calls_all _ (_updateEventSources_apis P _ _ _ _ _)).
    cbn [app]. by apply _updateEventSources_Resolved.
  - unfold function_does_not_exist, _uploadNew, mbind, task_bind.
    rewrite and_then_settled, request_settled.
    cbn [result calls settled_at].
    destruct (P (t + l0) region createFunction params) as [l1 [created|err]];
      cbn [fst snd result calls settled_at app]; [|discriminate].
    rewrite Promise_all_calls. cbn [map concat]. rewrite app_nil_r.
    intros Hall%Promise_all_Resolved_inv.
    inversion Hall as [|m1 a ms1 vs1 Hm1 Hrest]; subst.
    inversion Hrest as [|m2 b ms2 vs2 Hm2 Hnil]; subst.
    inversion Hnil; subst. clear Hall Hrest Hnil.
    apply _updateScheduleEvents_Resolved in Hm2 as ->.
    eexists _, _, (get "FunctionArn" created), a.
    split; [reflexivity|]. split; [|reflexivity].
    cbn [List.filter is_binding_call c_api].
    rewrite !List.filter_app.
    rewrite (filter_binding_calls_none _ (no_binding_in_schedules _ _ _ _)).
    rewrite (filter_binding_calls_all _ (_updateEventSources_apis P _ _ _ _ _)).
    rewrite app_nil_r. by apply _updateEventSources_Resolved.
Qed.

(** ** What a deployment calls and reports *)

Lemma _params_Code h p buffer params :
  _params h p buffer = Returned params ->
  get "ZipFile" (get "Code" params) = buffer.
Proof.
  unfold _params. destruct (truthy (configFile p)).
  - destruct (readConfig h (configFile p)); [|discriminate].
    by intros [= <-].
  - by intros [= <-].
Qed.

Lemma map_throwing_Thrown {A B} (f : A -> completion B) err a l :
  (forall a, f a = Thrown err) -> map_throwing f (a :: l) = Thrown err.
Proof. intros H. cbn. by rewrite H. Qed.

(** How [deploy] can end: with an exception before any call, or with the
    report on the regions. *)
Lemma deploy_cases h p :
  (exists err,
     deploy P h p = Deployment [] (Uncaught err)
     /\ (archive h = Rejected err
         \/ (exists buffer, archive h = Resolved buffer
                            /\ _params h p buffer = Thrown err)
         \/ (exists buffer params,
               archive h = Resolved buffer
               /\ _params h p buffer = Returned params
               /\ _eventSourceList h p = Thrown err)))
  \/ (exists buffer params eventSourceList,
        archive h = Resolved buffer
        /\ _params h p buffer = Returned params
        /\ _eventSourceList h p = Returned eventSourceList
        /\ let all :=
             Promise_all
               (map (fun region => reconcile P region params eventSourceList)
                  (split_on "," (region p))) 0 in
           deploy P h p =
           Deployment (calls all)
             match result all with
             | Resolved results =>
                 if resultsIsEmpty results then Nothing else Results results
             | Rejected err => Error err
             end).
Proof.
  destruct (archive h) as [buffer|err] eqn:Ha.
  2:{ left. exists err. unfold deploy. rewrite Ha. split; [done|by left]. }
  destruct (_params h p buffer) as [params|err] eqn:Hp.
  2:{ left. exists err. unfold deploy. rewrite Ha, Hp.
      split; [done|]. right. left. by exists buffer. }
  destruct (_eventSourceList h p) as [eventSourceList|err] eqn:HES.
  - right. exists buffer, params, eventSourceList.
    split; [done|]. split; [done|]. split; [done|].
    by apply (deploy_regions_settled P h p buffer).
  - left. exists err. unfold deploy. rewrite Ha, Hp.
    destruct (split_on_cons "," (region p)) as (r & rs & ->).
    rewrite (map_throwing_Thrown _ err).
    + split; [done|]. right. right. by exists buffer, params.
    + intros region. unfold _deployToRegion. by rewrite HES.
Qed.

Lemma filter_probe_reconcile region params eventSourceList t :
  exists probe,
    List.filter is_probe (calls (reconcile P region params eventSourceList t))
    = [probe]
    /\ c_region probe = region /\ c_issued probe = t.
Proof.
  rewrite reconcile_settled. cbn [calls c_result c_settled List.filter].
  set (q := VObj [("FunctionName", get "FunctionName" params)]).
  unfold is_probe at 1. cbn [c_api].
  assert (H : forall cs : list call,
            Forall (fun c => c_api c <> getFunction) cs ->
            List.filter is_probe cs = []).
  { induction 1 as [|c cs Hc _ IH]; [done|]. cbn [List.filter].
    unfold is_probe at 1. by destruct (c_api c). }
  exists (Call region getFunction q t (t + fst (P t region getFunction q))
            (snd (P t region getFunction q))).
  split; [|split; reflexivity]. rewrite H; [reflexivity|].
  destruct (snd (P t region getFunction q)).
  - destruct (within_function_exists region params eventSourceList
                (t + fst (P t region getFunction q))) as [_ Hw].
    eapply list.Forall_impl; [exact Hw|]. by intros c (_ & [[? _] _] & _).
  - destruct (within_function_does_not_exist region params eventSourceList
                (t + fst (P t region getFunction q))) as [_ Hw].
    eapply list.Forall_impl; [exact Hw|].
    intros c (_ & [Hc _] & _). destruct Hc as [Hc|[Hc|Hc]]; by rewrite Hc.
Qed.

(** X13. When nothing is thrown, every region of the list is probed
    exactly once, at the start and in the order of the list (a region
    listed twice is reconciled twice), every call is made by the client of
    a listed region, and the archive shipped is the same everywhere: each
    create and each code update carries the archive that was built. *)
Theorem deploy_regions_and_archive
  (h : host) (p : program) (buffer params eventSourceList : value) :
  archive h = Resolved buffer ->
  _params h p buffer = Returned params ->
  _eventSourceList h p = Returned eventSourceList ->
  map c_region (List.filter is_probe (d_calls (deploy P h p)))
  = split_on "," (region p)
  /\ Forall (fun c => c_issued c = 0)
       (List.filter is_probe (d_calls (deploy P h p)))
  /\ Forall (fun c =>
               c_region c ∈ split_on "," (region p)
               /\ (c_api c = createFunction ->
                   get "ZipFile" (get "Code" (c_params c)) = buffer)
               /\ (c_api c = updateFunctionCode ->
                   get "ZipFile" (c_params c) = buffer))
       (d_calls (deploy P h p)).
Proof.
  intros Ha Hp HES.
  rewrite (deploy_regions_settled P h p buffer params eventSourceList Ha Hp HES).
  cbn [d_calls]. rewrite Promise_all_calls, map_map.
  pose proof (_params_Code h p buffer params Hp) as Hzip.
  generalize (split_on "," (region p)). intros regions.
  split; [|split].
  - induction regions as [|region regions IH]; [done|]. cbn [map concat].
    rewrite List.filter_app, map_app, IH.
    destruct (filter_probe_reconcile region params eventSourceList 0)
      as (probe & -> & <- & _). done.
  - induction regions as [|region regions IH]; [constructor|]. cbn [map concat].
    rewrite List.filter_app. apply Forall_app. split; [|done].
    destruct (filter_probe_reconcile region params eventSourceList 0)
      as (probe & -> & _ & Hi). by repeat constructor.
  - apply list.Forall_forall. intros c Hc.
    apply list_elem_of_In, in_concat in Hc as (cs & Hcs & Hc).
    apply in_map_iff in Hcs as (region & <- & Hregion).
    pose proof (reconcile_calls_sent region params eventSourceList 0) as Hs.
    rewrite list.Forall_forall in Hs.
    destruct (Hs c (proj2 (list_elem_of_In _ _) Hc)) as (Hr & Hsent & _).
    split; [rewrite Hr; by apply list_elem_of_In|].
    split; intros Hapi; rewrite Hapi in Hsent; cbn in Hsent.
    + by rewrite Hsent.
    + destruct Hsent as [_ Hz]. by rewrite Hz.
Qed.

Lemma length_filter_zero {A} (f : A -> bool) (l : list A) :
  length (List.filter f l) = 0 <-> Forall (fun a => f a = false) l.
Proof.
  induction l as [|a l IH]; cbn [List.filter].
  - split; [constructor|done].
  - rewrite list.Forall_cons. destruct (f a); cbn [length]; [|tauto].
    split; [lia|]. intros [? _]. discriminate.
Qed.

Lemma resultsIsEmpty_spec (results : list (list (list value))) :
  resultsIsEmpty results = true <->
  Forall (Forall (fun res => res = [])) results.
Proof.
  unfold resultsIsEmpty. rewrite Nat.eqb_eq, length_filter_zero.
  apply list.Forall_iff. intros result.
  rewrite Nat.ltb_ge, Nat.le_0_r, length_filter_zero.
  apply list.Forall_iff. intros res.
  rewrite Nat.ltb_ge, Nat.le_0_r. by destruct res.
Qed.

Lemma length_filter_pos {A} (f : A -> bool) (l : list A) :
  0 < length (List.filter f l) <-> Exists (fun a => f a = true) l.
Proof.
  induction l as [|a l IH]; cbn [List.filter].
  - cbn. rewrite Exists_nil. lia.
  - rewrite Exists_cons. destruct (f a) eqn:Hf; cbn [length].
    + split; [by left|lia].
    + rewrite IH. split; [by right|]. by intros [?|?].
Qed.

Lemma resultsIsEmpty_false (results : list (list (list value))) :
  resultsIsEmpty results = false ->
  Exists (Exists (fun l => l <> [])) results.
Proof.
  unfold resultsIsEmpty. rewrite Nat.eqb_neq. intros H.
  assert (H' : 0 < length (List.filter
    (fun result : list (list value) =>
       (0 <? length (List.filter
          (fun res : list value => (0 <? length res)%nat) result))%nat)
    results)) by lia.
  apply length_filter_pos in H'.
  eapply List.Exists_impl; [|exact H'].
  intros result Hr. cbn beta in Hr. apply Nat.ltb_lt, length_filter_pos in Hr.
  eapply List.Exists_impl; [|exact Hr].
  intros res Hl. cbn beta in Hl. apply Nat.ltb_lt in Hl.
  destruct res; [cbn in Hl; lia|done].
Qed.

(** X14. What is printed at the end. When nothing is thrown, nothing at
    all is printed exactly when every region resolved and no region has
    an outcome or a schedule to show; results are printed only when every
    region resolved, one result per region in the order of the list, and
    some region has something to show. *)
Theorem deploy_report
  (h : host) (p : program) (buffer params eventSourceList : value) :
  archive h = Resolved buffer ->
  _params h p buffer = Returned params ->
  _eventSourceList h p = Returned eventSourceList ->
  let runs :=
    map (fun region => reconcile P region params eventSourceList 0)
      (split_on "," (region p)) in
  (d_report (deploy P h p) = Nothing <->
   Forall (fun r => exists res, result r = Resolved res
                                /\ Forall (fun l => l = []) res) runs)
  /\ (forall results,
      d_report (deploy P h p) = Results results ->
      Forall2 (fun r res => result r = Resolved res) runs results
      /\ Exists (Exists (fun l => l <> [])) results).
Proof.
  intros Ha Hp HES runs.
  rewrite (deploy_regions_settled P h p buffer params eventSourceList Ha Hp HES).
  cbn [d_report].
  set (tasks := map (fun region => reconcile P region params eventSourceList)
                  (split_on "," (region p))).
  assert (Hruns : runs = map (fun m : task _ => m 0) tasks).
  { unfold runs, tasks. by rewrite map_map. }
  split.
  - split.
    + destruct (result (Promise_all tasks 0)) as [results|err] eqn:Hres;
        [|discriminate].
      destruct (resultsIsEmpty results) eqn:Hempty; [|discriminate].
      intros _. apply resultsIsEmpty_spec in Hempty.
      apply Promise_all_Resolved_inv in Hres. rewrite Hruns.
      apply (proj2 (list.Forall_fmap (fun m : task _ => m 0) _ tasks)).
      clear -Hres Hempty. induction Hres as [|m res ms rs Hm _ IH];
        [constructor|].
      apply list.Forall_cons in Hempty as [He Hes].
      constructor; [by exists res|by apply IH].
    + intros Hall. rewrite Hruns in Hall.
      apply (proj1 (list.Forall_fmap (fun m : task _ => m 0) _ tasks)) in Hall.
      destruct (Promise_all_resolved tasks 0) as (results & Hres & Hvals).
      { eapply list.Forall_impl; [exact Hall|].
        intros m (res & Hm & _). cbn in Hm. by rewrite Hm. }
      rewrite Hres.
      assert (Hempty : resultsIsEmpty results = true).
      { apply resultsIsEmpty_spec. clear -Hall Hvals.
        induction Hvals as [|m res ms rs Hm _ IH]; [constructor|].
        apply list.Forall_cons in Hall as [(res' & Hm' & He) Hall].
        cbn in Hm'. constructor; [congruence|by apply IH]. }
      by rewrite Hempty.
  - intros results.
    destruct (result (Promise_all tasks 0)) as [results'|err] eqn:Hres;
      [|discriminate].
    destruct (resultsIsEmpty results') eqn:Hempty; [discriminate|].
    intros [= <-]. split.
    + apply Promise_all_Resolved_inv in Hres. rewrite Hruns.
      by apply list.Forall2_fmap_l.
    + by apply resultsIsEmpty_false.
Qed.

(** ** Deployments without an event-source file *)

Lemma reconcile_without_sources region params t :
  let none := VObj [ ("EventSourceMappings", VNull); ("ScheduleEvents", VNull) ] in
  Forall (fun c => is_binding_call c = false /\ c_api c <> scheduleEventsAdd)
    (calls (reconcile P region params none t))
  /\ forall results,
       result (reconcile P region params none t) = Resolved results ->
       results = [ []; [] ].
Proof.
  intros none.
  assert (Hs : forall arn, _updateScheduleEvents P region arn
                 (get "ScheduleEvents" none) = resolve []) by done.
  assert (Hb : forall fn existing, _updateEventSources P region fn existing
                 (get "EventSourceMappings" none) = resolve []) by done.
  rewrite reconcile_settled. cbn [calls result c_result c_settled].
  set (q := VObj [("FunctionName", get "FunctionName" params)]).
  destruct (P t region getFunction q) as [l0 [found|notfound]]; cbn [fst snd].
  - unfold function_exists, _listEventSourceMappings, mbind, task_bind.
    rewrite !and_then_settled, request_settled. fold q.
    cbn [result calls settled_at].
    destruct (P (t + l0) region listEventSourceMappings q) as [l1 [data|err]];
      cbn [fst snd resolve result calls settled_at app].
    2:{ split; [|discriminate]. repeat constructor; done. }
    rewrite Promise_all_calls. cbn [map concat]. rewrite app_nil_r, Hb.
    cbn [resolve calls]. split.
    + constructor; [done|]. constructor; [done|].
      rewrite and_then_settled.
      assert (Hu : Forall (fun c => is_binding_call c = false
                                    /\ c_api c <> scheduleEventsAdd)
                     (calls (_uploadExisting P region params (t + l0 + l1)))).
      { apply list.Forall_forall. intros c Hc. split.
        - pose proof (no_binding_in_update region params (t + l0 + l1)) as H.
          rewrite list.Forall_forall in H. by apply H.
        - by eapply not_schedule_in_update. }
      destruct (result (_uploadExisting P region params (t + l0 + l1)));
        cbn [calls]; [|done].
      rewrite Hs. cbn [resolve calls]. by rewrite app_nil_r.
    + intros results Hall%Promise_all_Resolved_inv.
      inversion Hall as [|m1 a ms1 vs1 Hm1 Hrest]; subst.
      inversion Hrest as [|m2 b ms2 vs2 Hm2 Hnil]; subst.
      inversion Hnil; subst. clear Hall Hrest Hnil.
      rewrite and_then_settled in Hm1.
      destruct (result (_uploadExisting P region params (t + l0 + l1)));
        cbn [result] in Hm1; [|discriminate].
      rewrite Hs in Hm1. cbn in Hm1, Hm2. congruence.
  - unfold function_does_not_exist, _uploadNew, mbind, task_bind.
    rewrite and_then_settled, request_settled.
    cbn [result calls settled_at].
    destruct (P (t + l0) region createFunction params) as [l1 [created|err]];
      cbn [fst snd result calls settled_at app].
    2:{ split; [|discriminate]. repeat constructor; done. }
    rewrite Promise_all_calls. cbn [map concat]. rewrite Hb, Hs.
    cbn [resolve calls app]. split.
    + repeat constructor; done.
    + intros results Hall%Promise_all_Resolved_inv.
      inversion Hall as [|m1 a ms1 vs1 Hm1 Hrest]; subst.
      inversion Hrest as [|m2 b ms2 vs2 Hm2 Hnil]; subst.
      inversion Hnil; subst. cbn in Hm1, Hm2. congruence.
Qed.

(** X15. Without an event-source file a deployment touches functions
    only: it never creates, updates or deletes an event-source mapping,
    never upserts a schedule, and never prints results, whatever the
    platform answers. *)
Theorem deploy_without_event_source_file (h : host) (p : program) :
  truthy (eventSourceFile p) = false ->
  Forall (fun c => is_binding_call c = false /\ c_api c <> scheduleEventsAdd)
    (d_calls (deploy P h p))
  /\ forall results, d_report (deploy P h p) <> Results results.
Proof.
  intros Hfile.
  destruct (deploy_cases h p) as
    [(err & -> & _)|(buffer & params & ES & _ & _ & HES & ->)].
  { split; [constructor|done]. }
  unfold _eventSourceList in HES. rewrite Hfile in HES.
  cbn [negb] in HES. injection HES as <-.
  cbn [d_calls d_report]. split.
  - rewrite Promise_all_calls, map_map.
    induction (split_on "," (region p)) as [|region regions IH];
      [constructor|].
    cbn [map concat]. apply Forall_app. split; [|exact IH].
    apply reconcile_without_sources.
  - intros results.
    match goal with
    | |- context [result ?all] => destruct (result all) as [rs|err] eqn:Hall
    end; [|done].
    apply Promise_all_Resolved_inv in Hall.
    assert (Hempty : resultsIsEmpty rs = true).
    { apply resultsIsEmpty_spec.
      apply list.Forall2_fmap_l in Hall.
      clear -Hall.
      induction Hall as [|region res regions rs Hm _ IH]; [constructor|].
      constructor; [|exact IH]. cbn in Hm.
      apply reconcile_without_sources in Hm as ->.
      repeat constructor. }
    by rewrite Hempty.
Qed.

(** ** The runtime, from the options to the platform *)

Lemma runtime__updateEventSources runtime region fn existing desired t :
  within region (forwards_runtime runtime) t
    (_updateEventSources P region fn existing desired t).
Proof.
  unfold _updateEventSources.
  destruct (is_nullish desired); [apply within_resolve|].
  apply within_Promise_all, list.Forall_fmap, list.Forall_forall.
  intros op Hop. cbn.
  unfold updateEventSourceList in Hop.
  rewrite elem_of_app, !list_elem_of_fmap in Hop.
  destruct Hop as [(d & -> & _)|(e & -> & _)].
  - unfold classify. destruct (find_existing (arn d) (for_in existing));
      unfold apply_op; cbn; by apply within_request.
  - unfold apply_op; cbn; by apply within_request.
Qed.

Lemma runtime__updateScheduleEvents runtime region functionArn scheduleList t :
  within region (forwards_runtime runtime) t
    (_updateScheduleEvents P region functionArn scheduleList t).
Proof.
  eapply within_weaken; [|apply within__updateScheduleEvents].
  by intros op q ->.
Qed.

Lemma runtime_reconcile region params eventSourceList t :
  Forall (fun c => forwards_runtime (get "Runtime" params) (c_api c) (c_params c))
    (calls (reconcile P region params eventSourceList t)).
Proof.
  assert (Hexists : forall t',
    within region (forwards_runtime (get "Runtime" params)) t'
      (function_exists P region params eventSourceList t')).
  { intros t'. apply within_and_then.
    { apply within_and_then; [|intros; apply within_resolve].
      by apply within_request. }
    intros existing t''. apply within_Promise_all.
    constructor; [|constructor; [apply runtime__updateEventSources|constructor]].
    apply within_and_then; [|intros; apply runtime__updateScheduleEvents].
    apply within_and_then; [|intros _ t3]; by apply within_request. }
  assert (Hnew : forall t',
    within region (forwards_runtime (get "Runtime" params)) t'
      (function_does_not_exist P region params eventSourceList t')).
  { intros t'. apply within_and_then; [by apply within_request|].
    intros results t''. apply within_Promise_all.
    constructor; [apply runtime__updateEventSources|].
    constructor; [apply runtime__updateScheduleEvents|constructor]. }
  rewrite reconcile_settled. cbn [calls c_result c_settled].
  constructor; [done|].
  destruct (snd (P t region getFunction _)).
  - destruct (Hexists (t + fst (P t region getFunction
                 (VObj [("FunctionName", get "FunctionName" params)])))) as [_ H].
    eapply list.Forall_impl; [exact H|]. by intros c (_ & ? & _).
  - destruct (Hnew (t + fst (P t region getFunction
                 (VObj [("FunctionName", get "FunctionName" params)])))) as [_ H].
    eapply list.Forall_impl; [exact H|]. by intros c (_ & ? & _).
Qed.

(** A reconciliation always calls the platform: it probes, and after a
    failed probe it asks for the function to be created with the
    parameters as they are. *)
Lemma reconcile_probes_and_creates region params eventSourceList t :
  exists probe rest,
    calls (reconcile P region params eventSourceList t) = probe :: rest
    /\ c_api probe = getFunction /\ c_region probe = region
    /\ forall err, c_result probe = Rejected err ->
         exists c, c ∈ rest /\ c_api c = createFunction
                   /\ c_region c = region /\ c_params c = params.
Proof.
  rewrite reconcile_settled. cbn [calls c_result c_settled].
  eexists _, _. split; [reflexivity|]. split; [done|]. split; [done|].
  cbn [c_result]. intros err Hprobe. rewrite Hprobe.
  unfold function_does_not_exist, _uploadNew, mbind, task_bind.
  rewrite and_then_settled, request_settled. cbn [result calls settled_at].
  match goal with
  | |- context [Call region createFunction params ?i ?s ?o] =>
      exists (Call region createFunction params i s o)
  end.
  split; [|done].
  destruct (snd (P _ region createFunction params)); cbn [calls]; by left.
Qed.

End Reconciliation.

(** C6 as amended. A [run] whose runtime is neither of the two supported
    ones reports the runtime and exits with status 254 before it does
    anything else: no file is written, no module loaded, no handler or
    child process run. [deploy] has no such check. With the same runtime
    [_params] forwards it as the [Runtime] of the function, and the
    platform is called all the same: unless the build, the parameters or
    the desired state fail, every region is probed, every failed probe is
    followed by the request to create the function, and every
    [createFunction] and every [updateFunctionConfiguration] that [deploy]
    sends carries the runtime as it was given. *)
Theorem run_rejects_unsupported_runtime
  (P : platform) (h : host) (p : program) :
  runtime p <> VStr "nodejs4.3" -> runtime p <> VStr "nodejs6.10" ->
  run h p = [UnsupportedRuntime (runtime p); ProcessExit 254]
  /\ (forall buffer params,
        _params h p buffer = Returned params -> get "Runtime" params = runtime p)
  /\ Forall (fun c => forwards_runtime (runtime p) (c_api c) (c_params c))
       (d_calls (deploy P h p))
  /\ (forall buffer params eventSourceList,
        archive h = Resolved buffer ->
        _params h p buffer = Returned params ->
        _eventSourceList h p = Returned eventSourceList ->
        forall r, r ∈ split_on "," (region p) ->
          exists probe,
            probe ∈ d_calls (deploy P h p)
            /\ c_api probe = getFunction /\ c_region probe = r
            /\ forall err, c_result probe = Rejected err ->
                 exists c, c ∈ d_calls (deploy P h p)
                           /\ c_api c = createFunction
                           /\ c_region c = r
                           /\ get "Runtime" (c_params c) = runtime p).
Proof.
  intros H4 H6.
  assert (Hparams : forall buffer params,
    _params h p buffer = Returned params -> get "Runtime" params = runtime p).
  { intros buffer params. unfold _params.
    destruct (truthy (configFile p)).
    - destruct (readConfig h (configFile p)); intros [= <-]; reflexivity.
    - intros [= <-]; reflexivity. }
  split; [|split; [exact Hparams|split]].
  - unfold run. cbn [existsb].
    destruct (strict_eq (runtime p) (VStr "nodejs4.3")) eqn:E4.
    { by apply strict_eq_to_str in E4. }
    destruct (strict_eq (runtime p) (VStr "nodejs6.10")) eqn:E6.
    { by apply strict_eq_to_str in E6. }
    reflexivity.
  - destruct (deploy_cases P h p) as
      [(err & -> & _)|(buffer & params & ES & _ & Hp & _ & ->)];
      [constructor|].
    cbn [d_calls]. rewrite Promise_all_calls, map_map.
    rewrite <- (Hparams buffer params Hp).
    induction (split_on "," (region p)) as [|region regions IH];
      [constructor|].
    cbn [map concat]. apply Forall_app. split; [|exact IH].
    apply runtime_reconcile.
  - intros buffer params ES Ha Hp HES r Hregion.
    rewrite (deploy_regions_settled P h p buffer params ES Ha Hp HES).
    cbn [d_calls]. rewrite Promise_all_calls, map_map.
    destruct (reconcile_probes_and_creates P r params ES 0)
      as (probe & rest & Hcalls & Hapi & Hreg & Hcreate).
    assert (Hsub : forall c,
      c ∈ calls (reconcile P r params ES 0) ->
      c ∈ concat (map (fun r' => calls (reconcile P r' params ES 0))
                    (split_on "," (region p)))).
    { intros c Hc. apply list_elem_of_In, in_concat.
      exists (calls (reconcile P r params ES 0)).
      split; [|by apply list_elem_of_In].
      apply (in_map (fun r' => calls (reconcile P r' params ES 0))).
      by apply list_elem_of_In. }
    exists probe. split; [apply Hsub; rewrite Hcalls; by left|].
    split; [done|]. split; [done|].
    intros err Herr. destruct (Hcreate err Herr) as (c & Hc & Hc1 & Hc2 & Hc3).
    exists c. split; [apply Hsub; rewrite Hcalls; by right|].
    split; [done|]. split; [done|]. rewrite Hc3. by apply (Hparams buffer).
Qed.

(** A run with a Python runtime, and a deployment with it. *)
Lemma run_rejects_unsupported_runtime_sample :
  run (laptop (Thrown (VStr "ENOENT"))) (options (VStr "python2.7") VUndefined "us-east-1")
  = [ UnsupportedRuntime (VStr "python2.7"); ProcessExit 254 ]
  /\ Forall (fun c => forwards_runtime (VStr "python2.7") (c_api c) (c_params c))
       (d_calls (deploy established (laptop (Thrown (VStr "ENOENT")))
                   (options (VStr "python2.7") VUndefined "us-east-1"))).
Proof.
  assert (H4 : runtime (options (VStr "python2.7") VUndefined "us-east-1")
               <> VStr "nodejs4.3") by discriminate.
  assert (H6 : runtime (options (VStr "python2.7") VUndefined "us-east-1")
               <> VStr "nodejs6.10") by discriminate.
  destruct (run_rejects_unsupported_runtime established
              (laptop (Thrown (VStr "ENOENT")))
              (options (VStr "python2.7") VUndefined "us-east-1") H4 H6)
    as (Hrun & _ & Hcalls & _).
  split; [exact Hrun|exact Hcalls].
Defined.

(** ** The schedule chain and what [scheduleEvents.add] returns *)

Lemma chain_of_continuations P region (paramsList : list value)
  (a : task value) :
  fold_left (fun a b => match b with
                        | Continuation upsert => and_then a upsert
                        | Started _ => a
                        end)
    (map (deferred_add P region) paramsList) a
  = fold_left (fun a b => and_then a b)
      (map (scheduleEvents_add P region) paramsList) a.
Proof.
  revert a. induction paramsList as [|params rest IH]; intros a; [done|].
  cbn [map fold_left deferred_add]. apply IH.
Qed.

Lemma chain_of_promises P region (paramsList : list value) (a : task value) :
  fold_left (fun a b => match b with
                        | Continuation upsert => and_then a upsert
                        | Started _ => a
                        end)
    (map (eager_add P region) paramsList) a
  = a.
Proof.
  revert a. induction paramsList as [|params rest IH]; intros a; [done|].
  cbn [map fold_left eager_add]. apply IH.
Qed.

(** With continuations the parametric chain is [_updateScheduleEvents] as
    it is used for a region. *)
Lemma _updateScheduleEvents_with_deferred P region functionArn scheduleList t :
  _updateScheduleEvents_with (deferred_add P region) functionArn scheduleList t
  = _updateScheduleEvents P region functionArn scheduleList t.
Proof.
  unfold _updateScheduleEvents_with, _updateScheduleEvents.
  destruct (is_nullish scheduleList); [done|].
  destruct scheduleList as [| | | | |schedules|]; try done.
  cbv zeta. rewrite chain_of_continuations.
  assert (Hnone : forall l : list value,
    concat (map (fun b => match b with
                          | Started upsert => calls (upsert t)
                          | Continuation _ => []
                          end) (map (deferred_add P region) l)) = []).
  { induction l as [|x l IH]; [done|]. cbn [map concat deferred_add]. apply IH. }
  rewrite Hnone. cbn [app].
  match goal with
  | |- Settled (calls ?r) (settled_at ?r) (result ?r) = _ => by destruct r
  end.
Qed.

(** With promises every upsert is started when the operation starts, in
    declared order, and the operation resolves at once with the parameter
    sets, whatever becomes of the upserts. *)
Lemma _updateScheduleEvents_with_eager P region functionArn schedules t :
  let paramsList := map (set "FunctionArn" functionArn) schedules in
  let r := _updateScheduleEvents_with (eager_add P region) functionArn
             (VArr schedules) t in
  map c_params (calls r) = paramsList
  /\ Forall (fun c => c_api c = scheduleEventsAdd /\ c_region c = region
                      /\ c_issued c = t) (calls r)
  /\ result r = Resolved paramsList
  /\ settled_at r = t.
Proof.
  intros paramsList r. unfold r, _updateScheduleEvents_with.
  cbn [is_nullish]. cbv zeta. fold paramsList.
  rewrite chain_of_promises.
  unfold mbind, task_bind. rewrite and_then_settled.
  cbn [resolve result calls settled_at app]. rewrite app_nil_r.
  split; [|split; [|done]].
  - induction paramsList as [|params rest IH]; [done|].
    cbn [map concat eager_add]. rewrite request_settled. cbn [calls app map].
    by rewrite IH.
  - induction paramsList as [|params rest IH]; [constructor|].
    cbn [map concat eager_add]. rewrite request_settled. cbn [calls app].
    by constructor.
Qed.

(** C4. The claim describes the series that the chain of
    [_updateScheduleEvents] is written to be; the code does not make it.
    [add] is called for every schedule before the chain exists, and the
    chain is given what the calls returned. With [add] returning the
    promise of its upsert, two schedules on an account where an upsert
    takes five instants and the first one fails: both upserts are issued
    at the start, the second before the first has completed and although
    it fails, and the operation resolves at once with both parameter
    sets. *)
Theorem _updateScheduleEvents_not_in_series :
  let r := _updateScheduleEvents_with (eager_add rule_denied "us-east-1")
             (VStr "arn:fn") (VArr two_schedules) 0 in
  map (fun c => (c_issued c, c_settled c, is_resolved (c_result c))) (calls r)
  = [ (0, 5, false); (0, 5, true) ]
  /\ ~ sequential 0 (calls r)
  /\ result r = Resolved (map (set "FunctionArn" (VStr "arn:fn")) two_schedules)
  /\ settled_at r = 0.
Proof.
  intros r.
  destruct (_updateScheduleEvents_with_eager rule_denied "us-east-1"
              (VStr "arn:fn") two_schedules 0) as (_ & _ & Hres & Hat).
  split; [reflexivity|]. split; [|split; [exact Hres|exact Hat]].
  intros (_ & _ & Hok & _). cbn in Hok.
  assert (H : false = true) by (by apply Hok). discriminate.
Qed.

(** ** The environment of a local run *)

Lemma fold_set_config (config : value) (ks : list string)
  (e : list (string * value)) :
  exists e',
    fold_left (fun env k => set k (get k config) env) ks (VObj e) = VObj e'
    /\ forall k, assoc k e' =
                 if bool_decide (k ∈ ks) then get k config else assoc k e.
Proof.
  revert e. induction ks as [|k0 ks IH]; intros e.
  - exists e. split; [done|]. intros k. rewrite bool_decide_eq_false_2; [done|].
    apply not_elem_of_nil.
  - cbn [fold_left set]. destruct (IH (assoc_set k0 (get k0 config) e))
      as (e' & He' & Hget).
    exists e'. split; [done|]. intros k. rewrite Hget.
    destruct (decide (k ∈ ks)) as [Hin|Hin].
    + rewrite !bool_decide_eq_true_2; [done| |done]. by right.
    + rewrite (bool_decide_eq_false_2 _ Hin).
      destruct (decide (k = k0)) as [->|Hne].
      * rewrite assoc_set_eq. rewrite bool_decide_eq_true_2; [done|by left].
      * rewrite assoc_set_ne by done.
        rewrite bool_decide_eq_false_2; [done|].
        intros [?|?]%elem_of_cons; done.
Qed.

(** X16. The variables of the configuration file override the
    environment and leave the rest of it alone: after
    [_setRunTimeEnvironmentVars], a variable that the file defines has
    the file's value, and every other variable is as it was. *)
Theorem _setRunTimeEnvironmentVars_overrides
  (h : host) (p : program) (e : list (string * value)) (env' : value) :
  _setRunTimeEnvironmentVars h p (VObj e) = Returned env' ->
  exists config,
    readConfig h (configFile p) = Returned config
    /\ forall k, get k env' =
                 if bool_decide (k ∈ keys config) then get k config
                 else get k (VObj e).
Proof.
  unfold _setRunTimeEnvironmentVars.
  destruct (readConfig h (configFile p)) as [config|err]; [|discriminate].
  intros [= <-]. exists config. split; [done|].
  destruct (fold_set_config config (keys config) e) as (e' & -> & Hget).
  exact Hget.
Qed.

(** ** The sample files *)

Section SampleFiles.

Variable path_join : string -> string -> string.
Variables cwd dirname : string.
Variable write_error : gmap string node -> string -> option value.

Local Abbreviation createSampleFile :=
  (_createSampleFile path_join cwd dirname write_error).

Lemma existsSync_true fs path : existsSync fs path = true <-> is_Some (fs !! path).
Proof. unfold existsSync. apply bool_decide_eq_true. Qed.

Lemma _createSampleFile_Returned file boilerplateName fs fs' :
  createSampleFile file boilerplateName fs = Returned fs' ->
  fs ⊆ fs'
  /\ is_Some (fs' !! path_join cwd file)
  /\ forall path, is_Some (fs' !! path) ->
                  is_Some (fs !! path) \/ path = path_join cwd file.
Proof.
  unfold _createSampleFile.
  destruct (existsSync fs (path_join cwd file)) eqn:Hex; cbn [negb].
  - intros [= <-]. apply existsSync_true in Hex.
    split; [done|]. split; [done|]. intros path Hpath. by left.
  - assert (Hnone : fs !! path_join cwd file = None).
    { apply eq_None_not_Some. intros H%existsSync_true. congruence. }
    destruct (readFileSync fs _) as [content|err]; cbn [when_returned];
      [|discriminate].
    unfold writeFileSync. destruct (write_error fs _); [discriminate|].
    intros [= <-]. split; [by apply insert_subseteq|]. split.
    + rewrite lookup_insert_eq. by eexists.
    + intros path Hpath.
      destruct (decide (path = path_join cwd file)) as [->|Hne]; [by right|].
      left. by rewrite lookup_insert_ne in Hpath.
Qed.

Lemma _createSampleFile_exists dirname' write_error' file boilerplateName fs :
  is_Some (fs !! path_join cwd file) ->
  _createSampleFile path_join cwd dirname' write_error' file boilerplateName fs
  = Returned fs.
Proof.
  intros H%existsSync_true. unfold _createSampleFile. by rewrite H.
Qed.

Lemma _createSampleFile_creates dirname' write_error' file boilerplateName fs
  content :
  fs !! path_join cwd file = None ->
  fs !! path_join dirname'
          ((if truthy (VStr boilerplateName) then boilerplateName else file)
           ++ ".example")
  = Some (File content) ->
  write_error' fs (path_join cwd file) = None ->
  _createSampleFile path_join cwd dirname' write_error' file boilerplateName fs
  = Returned (<[ path_join cwd file := File content ]> fs).
Proof.
  intros Hnone Hboiler Hwrite. unfold _createSampleFile.
  assert (Hex : existsSync fs (path_join cwd file) = false).
  { apply not_true_iff_false. intros [x Hx]%existsSync_true. congruence. }
  rewrite Hex. cbn [negb]. unfold readFileSync. rewrite Hboiler.
  cbn [when_returned]. unfold writeFileSync. by rewrite Hwrite.
Qed.

Lemma setup_Returned p fs fs' :
  setup path_join cwd dirname write_error p fs = Returned fs' ->
  exists fs1 fs2 fs3 fs4,
    createSampleFile ".env" ".env" fs = Returned fs1
    /\ createSampleFile (eventFile p) "event.json" fs1 = Returned fs2
    /\ createSampleFile "deploy.env" "deploy.env" fs2 = Returned fs3
    /\ createSampleFile (contextFile p) "context.json" fs3 = Returned fs4
    /\ createSampleFile "event_sources.json" "event_sources.json" fs4
       = Returned fs'.
Proof.
  unfold setup.
  destruct (createSampleFile ".env" ".env" fs) as [fs1|] eqn:H1;
    [|discriminate].
  cbn [when_returned].
  destruct (createSampleFile (eventFile p) _ fs1) as [fs2|] eqn:H2;
    [|discriminate].
  cbn [when_returned].
  destruct (createSampleFile "deploy.env" _ fs2) as [fs3|] eqn:H3;
    [|discriminate].
  cbn [when_returned].
  destruct (createSampleFile (contextFile p) _ fs3) as [fs4|] eqn:H4;
    [|discriminate].
  cbn [when_returned]. intros H5. by exists fs1, fs2, fs3, fs4.
Qed.

Lemma setup_Returned_files p fs fs' :
  setup path_join cwd dirname write_error p fs = Returned fs' ->
  fs ⊆ fs'
  /\ Forall (fun path => is_Some (fs' !! path)) (sample_files path_join cwd p)
  /\ forall path, is_Some (fs' !! path) ->
                  is_Some (fs !! path) \/ path ∈ sample_files path_join cwd p.
Proof.
  intros (fs1 & fs2 & fs3 & fs4 & H1 & H2 & H3 & H4 & H5)%setup_Returned.
  apply _createSampleFile_Returned in H1 as (S1 & E1 & D1).
  apply _createSampleFile_Returned in H2 as (S2 & E2 & D2).
  apply _createSampleFile_Returned in H3 as (S3 & E3 & D3).
  apply _createSampleFile_Returned in H4 as (S4 & E4 & D4).
  apply _createSampleFile_Returned in H5 as (S5 & E5 & D5).
  assert (Hup : forall (a b : gmap string node) path,
             a ⊆ b -> is_Some (a !! path) -> is_Some (b !! path)).
  { intros a b path Hab [x Hx]. exists x.
    by eapply lookup_weaken. }
  split; [by repeat (etrans; [eassumption|])|]. split.
  - unfold sample_files. cbn [map]. repeat constructor; eauto 10.
  - intros path Hpath. unfold sample_files. cbn [map].
    rewrite !elem_of_cons.
    destruct (D5 _ Hpath) as [H| ->]; [|tauto].
    destruct (D4 _ H) as [H'| ->]; [|tauto]. clear H.
    destruct (D3 _ H') as [H| ->]; [|tauto]. clear H'.
    destruct (D2 _ H) as [H'| ->]; [|tauto]. clear H.
    destruct (D1 _ H') as [H| ->]; tauto.
Qed.

(** X17. [setup] only adds files. When it returns, every file or
    directory that was there is untouched, the five sample files exist,
    and nothing else was created. *)
Theorem setup_only_adds (p : program) (fs fs' : gmap string node) :
  setup path_join cwd dirname write_error p fs = Returned fs' ->
  fs ⊆ fs'
  /\ Forall (fun path => is_Some (fs' !! path)) (sample_files path_join cwd p)
  /\ forall path, is_Some (fs' !! path) ->
                  is_Some (fs !! path) \/ path ∈ sample_files path_join cwd p.
Proof. apply setup_Returned_files. Qed.

(** X18. [setup] is idempotent: run again on the files it left, it
    returns without changing or reading anything more, whatever the
    boilerplates and the permissions have become. *)
Theorem setup_idempotent (p : program) (fs fs' : gmap string node)
  (write_error' : gmap string node -> string -> option value)
  (dirname' : string) :
  setup path_join cwd dirname write_error p fs = Returned fs' ->
  setup path_join cwd dirname' write_error' p fs' = Returned fs'.
Proof.
  intros (_ & Hall & _)%setup_Returned_files.
  unfold sample_files in Hall. cbn [map] in Hall.
  repeat match goal with
         | H : Forall _ (_ :: _) |- _ => apply list.Forall_cons in H as [? H]
         end.
  unfold setup.
  repeat (rewrite _createSampleFile_exists by done; cbn [when_returned]).
  done.
Qed.

End SampleFiles.

(** ** The build *)

Section Build.

Variable path_join : string -> string -> string.
Variable cwd : string.

Local Abbreviation codeDirectory := (_codeDirectory path_join cwd).



Ltac run_step :=
  match goal with
  | |- context [perform ?m ?h ?a] => destruct (perform m h a) eqn:?
  end.

(** X20. A deployment archive that exists is read and nothing is built.
    One that does not exist is ignored without an error: the build goes
    on exactly as if no archive had been named. *)
Theorem _archive_zipfile (m : machine) (p : program) (b : packaging) :
  let without :=
    Packaging VUndefined (prebuiltDirectory b) (sourceDirectory b)
      (dockerImage b) in
  if truthy (deployZipfile b) && exists_after m [] (deployZipfile b) then
    archived path_join cwd m p b
    = Build [ ReadFile (deployZipfile b) ]
        (CalledBack (perform m [] (ReadFile (deployZipfile b))))
  else
    archived path_join cwd m p b = archived path_join cwd m p without.
Proof.
  intros without. unfold archived, _archive.
  destruct (truthy (deployZipfile b) && exists_after m [] (deployZipfile b))
    eqn:Hzip.
  - apply andb_true_iff in Hzip as [_ Hex].
    unfold _readArchive. by rewrite Hex.
  - cbn [without deployZipfile truthy andb prebuiltDirectory].
    destruct (truthy (prebuiltDirectory b)); [done|].
    unfold _buildAndArchive, lambdaSrcDirectory, _npmInstall, npm_params.
    reflexivity.
Qed.

Ltac copy_step :=
  match goal with
  | |- context [copy_throws ?m ?h ?a] => destruct (copy_throws m h a) eqn:?
  end.

Ltac last_action :=
  eexists _, _; split; [reflexivity|]; try done.

Ltac earlier_succeeded :=
  cbn in *;
  repeat match goal with
         | H : perform _ _ _ = _ |- _ => rewrite H; clear H
         end;
  done.

(** X21. The build stops at the first action that fails: every action
    made before the last one succeeded. The callback receives an archive
    only from the last action, the zip or the read of the archive file;
    it receives an error only from the last action, when that is the
    read, a copy that did not throw, the install or the post-install
    script (whose error is wrapped). A failure of cleaning the code
    directory or of zipping is never handed to the callback: it escapes
    as an exception, as do a copy that throws and, before anything is
    done, a source directory that is not a string. *)
Theorem archived_ending (m : machine) (p : program) (b : packaging) :
  let r := archived path_join cwd m p b in
  stops_at_first_failure m [] (b_actions r) = true
  /\ match b_ending r with
     | CalledBack (Resolved data) =>
         exists init last,
           b_actions r = init ++ [last]
           /\ perform m init last = Resolved data
           /\ (last = Zip codeDirectory \/ last = ReadFile (deployZipfile b))
     | CalledBack (Rejected err) =>
         exists init last,
           b_actions r = init ++ [last]
           /\ match last with
              | ReadFile _ | ExecFile _ _ =>
                  perform m init last = Rejected err
              | Copy _ _ _ _ =>
                  perform m init last = Rejected err
                  /\ copy_throws m init last = false
              | Exec _ _ =>
                  exists failure,
                    perform m init last = Rejected failure
                    /\ err = post_install_error failure
              | Remove _ | Mkdirs _ | Zip _ => False
              end
     | Raised err =>
         (b_actions r = [] /\ lambdaSrcDirectory b = Thrown err)
         \/ exists init last,
              b_actions r = init ++ [last]
              /\ perform m init last = Rejected err
              /\ match last with
                 | Remove _ | Mkdirs _ | Zip _ => True
                 | Copy _ _ _ _ => copy_throws m init last = true
                 | _ => False
                 end
     end.
Proof.
  intros r. unfold r, archived, _archive.
  destruct (truthy (deployZipfile b) && exists_after m [] (deployZipfile b))
    eqn:Hzip.
  { apply andb_true_iff in Hzip as [_ Hex].
    unfold _readArchive. rewrite Hex. cbn [negb b_actions b_ending].
    split; [done|].
    destruct (perform m [] (ReadFile (deployZipfile b))) eqn:Hread.
    - exists [], (ReadFile (deployZipfile b)). split; [done|]. split; [done|].
      by right.
    - by exists [], (ReadFile (deployZipfile b)). }
  destruct (truthy (prebuiltDirectory b)).
  { unfold _archivePrebuilt, copying, zipping.
    repeat (first [run_step | copy_step]; cbn [b_actions b_ending]);
      (split; [earlier_succeeded|]).
    all: try (right; last_action).
    all: try (last_action; first [by eexists|split; [done|by left]]). }
  unfold _buildAndArchive.
  destruct (lambdaSrcDirectory b) as [src|err] eqn:Hsrc.
  2:{ cbn [b_actions b_ending]. split; [done|]. by left. }
  unfold _cleanDirectory, copying, _npmInstall, _postInstallScript, zipping.
  repeat (first [run_step | copy_step]; cbn [b_actions b_ending]);
    repeat match goal with
           | |- context [if negb (exists_after ?m ?h ?f) then _ else _] =>
               destruct (exists_after m h f); cbn [negb]
           end;
    repeat (first [run_step | copy_step]; cbn [b_actions b_ending]).
  all: split; [earlier_succeeded|].
  all: try (right; last_action).
  all: try (last_action; first [by eexists|split; [done|by left]]).
Qed.

(** X22. With a prebuilt directory (and no archive to read) the build
    copies that directory, node modules included, and zips: the code
    directory is neither removed nor created anew, nothing is installed
    and no post-install script is run. *)
Theorem _archivePrebuilt_actions (m : machine) (p : program) (b : packaging) :
  truthy (deployZipfile b) && exists_after m [] (deployZipfile b) = false ->
  truthy (prebuiltDirectory b) = true ->
  let copy :=
    Copy (copyFunction m) (prebuiltDirectory b) codeDirectory false in
  b_actions (archived path_join cwd m p b)
  = if is_resolved (perform m [] copy) then [ copy; Zip codeDirectory ]
    else [ copy ].
Proof.
  intros Hzip Hprebuilt copy. unfold archived, _archive.
  rewrite Hzip, Hprebuilt. unfold _archivePrebuilt, copying, zipping.
  fold copy. destruct (perform m [] copy); cbn [is_resolved app];
    [|by destruct (copy_throws m [] copy)].
  by destruct (perform m [copy] (Zip codeDirectory)).
Qed.

(** X23. A build from the sources makes its actions in one order: the
    code directory is removed, created, filled by the copy of the source
    directory (node modules excluded), npm installs into it, the
    post-install script is run if the code directory holds one by then,
    and the directory is zipped. The actions made are a prefix of that
    sequence. *)
Theorem _buildAndArchive_order
  (m : machine) (p : program) (b : packaging) (src : string) :
  truthy (deployZipfile b) && exists_after m [] (deployZipfile b) = false ->
  truthy (prebuiltDirectory b) = false ->
  lambdaSrcDirectory b = Returned src ->
  let params := npm_params m b codeDirectory in
  let script := path_join codeDirectory "post_install.sh" in
  let first :=
    [ Remove codeDirectory; Mkdirs codeDirectory;
      Copy (copyFunction m) (VStr src) codeDirectory true;
      ExecFile (fst params) (snd params) ] in
  b_actions (archived path_join cwd m p b)
  `prefix_of`
  first
  ++ (if exists_after m first (VStr script)
      then [ Exec (script ++ " " ++ environment p) codeDirectory ] else [])
  ++ [ Zip codeDirectory ].
Proof.
  intros Hzip Hprebuilt Hsrc params script first. unfold archived, _archive.
  rewrite Hzip, Hprebuilt. unfold _buildAndArchive. rewrite Hsrc.
  unfold _cleanDirectory, copying, _npmInstall, _postInstallScript, zipping.
  fold params. fold script. cbn [app]. fold first.
  destruct (exists_after m first (VStr script)); cbn [negb];
    repeat (first [run_step | copy_step]; cbn [b_actions app]);
    unfold first; by eexists.
Qed.

End Build.

(** * The further properties on the sample inputs *)

(** The scenario, whose bindings are objects: one operation for the
    desired binding, and one delete. *)
Lemma updateEventSourceList_counts_sample :
  Forall (fun e => is_nullish e = false) existing_AB
  /\ Forall (fun d => is_nullish d = false) desired_A
  /\ count_type "create" (updateEventSourceList (VStr "fn") existing_AB desired_A)
     + count_type "update" (updateEventSourceList (VStr "fn") existing_AB desired_A)
     = 1
  /\ length (updateEventSourceList (VStr "fn") existing_AB desired_A)
     = 1 + count_type "delete"
             (updateEventSourceList (VStr "fn") existing_AB desired_A).
Proof.
  assert (HE : Forall (fun e => is_nullish e = false) existing_AB)
    by (repeat constructor).
  assert (HD : Forall (fun d => is_nullish d = false) desired_A)
    by (repeat constructor).
  split; [exact HE|]. split; [exact HD|].
  destruct (updateEventSourceList_counts (VStr "fn") existing_AB desired_A
              HE HD) as (Hops & _ & Hlen).
  split; [exact Hops|exact Hlen].
Defined.

(** Desired bindings that all exist already: two updates, nothing else. *)
Lemma updateEventSourceList_idempotent_sample :
  keyed desired_AB /\ keyed existing_AB /\ arns desired_AB = arns existing_AB
  /\ count_type "create" (updateEventSourceList (VStr "fn") existing_AB desired_AB) = 0
  /\ count_type "delete" (updateEventSourceList (VStr "fn") existing_AB desired_AB) = 0
  /\ count_type "update" (updateEventSourceList (VStr "fn") existing_AB desired_AB) = 2.
Proof.
  assert (HD : keyed desired_AB).
  { split; [repeat constructor; by eexists|repeat constructor; set_solver]. }
  assert (HE : keyed existing_AB).
  { split; [repeat constructor; by eexists|repeat constructor; set_solver]. }
  assert (Harns : arns desired_AB = arns existing_AB) by reflexivity.
  split; [exact HD|]. split; [exact HE|]. split; [exact Harns|].
  destruct (updateEventSourceList_idempotent (VStr "fn") desired_AB existing_AB
              HD HE Harns) as (Hc & Hd & Hu & _).
  split; [exact Hc|]. split; [exact Hd|exact Hu].
Defined.

(** The delete of the scenario is the delete of the mapping u2, whose
    source no desired binding names. *)
Lemma updateEventSourceList_provenance_sample :
  VObj [ ("type", VStr "delete"); ("UUID", VStr "u2") ]
    ∈ updateEventSourceList (VStr "fn") existing_AB desired_A
  /\ ((has_type "delete" (VObj [ ("type", VStr "delete"); ("UUID", VStr "u2") ])
       = true /\
       exists e, e ∈ existing_AB
         /\ VObj [ ("type", VStr "delete"); ("UUID", VStr "u2") ] = delete_op e
         /\ forall d, d ∈ desired_A -> strict_eq (arn d) (arn e) = false)
      \/ (has_type "update" (VObj [ ("type", VStr "delete"); ("UUID", VStr "u2") ])
          = true /\
          exists d e, d ∈ desired_A /\ e ∈ existing_AB
            /\ VObj [ ("type", VStr "delete"); ("UUID", VStr "u2") ]
               = update_op (VStr "fn") d e
            /\ strict_eq (arn d) (arn e) = true)
      \/ (has_type "create" (VObj [ ("type", VStr "delete"); ("UUID", VStr "u2") ])
          = true
          /\ get "UUID" (VObj [ ("type", VStr "delete"); ("UUID", VStr "u2") ])
             = VUndefined /\
          exists d, d ∈ desired_A
            /\ VObj [ ("type", VStr "delete"); ("UUID", VStr "u2") ]
               = create_op (VStr "fn") d
            /\ forall e, e ∈ existing_AB -> strict_eq (arn d) (arn e) = false)).
Proof.
  assert (Hop : VObj [ ("type", VStr "delete"); ("UUID", VStr "u2") ]
                ∈ updateEventSourceList (VStr "fn") existing_AB desired_A).
  { right. left. }
  split; [exact Hop|].
  exact (updateEventSourceList_provenance (VStr "fn") existing_AB desired_A _ Hop).
Defined.

(** The function name of the sample options. *)
Lemma _params_FunctionName_sample :
  exists params,
    _params (laptop (Returned (VArr desired_A)))
      (options (VStr "nodejs6.10") VUndefined "us-east-1") (VStr "zip")
    = Returned params
    /\ exists name,
         get "FunctionName" params = VStr name /\ valid_name name = true.
Proof.
  eexists. split; [reflexivity|].
  destruct (_params_FunctionName (laptop (Returned (VArr desired_A)))
              (options (VStr "nodejs6.10") VUndefined "us-east-1") (VStr "zip")
              _ eq_refl) as (name & Hname & Hvalid & _).
  exists name. split; [exact Hname|exact Hvalid].
Defined.

(** The first build of the samples, walked from the code directory
    itself: the entry of [index.js]. *)
Lemma _zip_relative_names_sample :
  Forall (fun file => w_isDirectory file = false ->
            exists rel, w_path file = ("/w/.lambda" ++ "/" ++ rel)%string)
    whole_walk
  /\ NoDup (map w_path whole_walk)
  /\ snd (_zip "/w/.lambda" whole_walk zip_new) !! "index.js" = Some "v1".
Proof.
  assert (Hbelow : Forall (fun file => w_isDirectory file = false ->
            exists rel, w_path file = ("/w/.lambda" ++ "/" ++ rel)%string)
            whole_walk).
  { repeat constructor; cbn; intros Hd; try discriminate Hd;
      [by exists "lib/old.js"|by exists "index.js"]. }
  assert (Hnodup : NoDup (map w_path whole_walk)).
  { repeat constructor; set_solver. }
  split; [exact Hbelow|]. split; [exact Hnodup|].
  refine (proj1 (_zip_relative_names "/w/.lambda" whole_walk zip_new
                   Hbelow Hnodup)
            (WalkItem "/w/.lambda/index.js" false "v1") "index.js" _
            eq_refl eq_refl).
  right. right. right. left.
Defined.

(** A new function with one schedule: the upsert is made for the ARN
    that the create returned, once the create has completed. *)
Lemma reconcile_schedules_scoped_sample :
  Call "us-east-1" scheduleEventsAdd
    (set "FunctionArn" (VStr "arn:fn") nightly) 4 5 (Resolved (VObj []))
    ∈ calls (reconcile west_denied "us-east-1" fn_params nightly_only 0)
  /\ exists f results schedules schedule,
       f ∈ calls (reconcile west_denied "us-east-1" fn_params nightly_only 0)
       /\ (c_api f = createFunction \/ c_api f = updateFunctionConfiguration)
       /\ c_result f = Resolved results
       /\ c_settled f <= 4
       /\ get "ScheduleEvents" nightly_only = VArr schedules
       /\ schedule ∈ schedules
       /\ set "FunctionArn" (VStr "arn:fn") nightly
          = set "FunctionArn" (get "FunctionArn" results) schedule.
Proof.
  assert (Hc : Call "us-east-1" scheduleEventsAdd
                 (set "FunctionArn" (VStr "arn:fn") nightly) 4 5
                 (Resolved (VObj []))
               ∈ calls (reconcile west_denied "us-east-1" fn_params
                          nightly_only 0)).
  { right. right. left. }
  split; [exact Hc|].
  exact (reconcile_schedules_scoped west_denied "us-east-1" fn_params
           nightly_only 0 _ Hc eq_refl).
Defined.

(** An existing function with the mappings of the scenario: the result
    has the schedules first, then the outcomes of the two operations. *)
Lemma reconcile_results_sample :
  exists results,
    result (reconcile established "us-east-1" fn_params
              (VObj [ ("EventSourceMappings", VArr desired_A);
                      ("ScheduleEvents", VArr [ nightly ]) ]) 0)
    = Resolved results
    /\ exists probe rest functionArn bindings,
         calls (reconcile established "us-east-1" fn_params
                  (VObj [ ("EventSourceMappings", VArr desired_A);
                          ("ScheduleEvents", VArr [ nightly ]) ]) 0)
         = probe :: rest
         /\ length bindings = length (List.filter is_binding_call rest)
         /\ results =
            match c_result probe with
            | Rejected _ =>
                [ bindings; schedule_results functionArn (VArr [ nightly ]) ]
            | Resolved _ =>
                [ schedule_results functionArn (VArr [ nightly ]); bindings ]
            end.
Proof.
  eexists. split; [reflexivity|].
  exact (reconcile_results established "us-east-1" fn_params
           (VObj [ ("EventSourceMappings", VArr desired_A);
                   ("ScheduleEvents", VArr [ nightly ]) ]) 0 _ eq_refl).
Defined.

(** Two regions: one probe each, at the start; every create carries the
    archive. *)
Lemma deploy_regions_and_archive_sample :
  archive (laptop (Returned (VArr desired_A))) = Resolved (VStr "zip")
  /\ (exists params,
        _params (laptop (Returned (VArr desired_A)))
          (options (VStr "nodejs6.10") (VStr "event_sources.json")
             "us-east-1,us-west-2") (VStr "zip")
        = Returned params)
  /\ (exists eventSourceList,
        _eventSourceList (laptop (Returned (VArr desired_A)))
          (options (VStr "nodejs6.10") (VStr "event_sources.json")
             "us-east-1,us-west-2")
        = Returned eventSourceList)
  /\ map c_region
       (List.filter is_probe
          (d_calls (deploy west_denied (laptop (Returned (VArr desired_A)))
                      (options (VStr "nodejs6.10") (VStr "event_sources.json")
                         "us-east-1,us-west-2"))))
     = [ "us-east-1"; "us-west-2" ].
Proof.
  split; [reflexivity|]. split; [eexists; reflexivity|].
  split; [eexists; reflexivity|].
  exact (proj1 (deploy_regions_and_archive west_denied
                  (laptop (Returned (VArr desired_A)))
                  (options (VStr "nodejs6.10") (VStr "event_sources.json")
                     "us-east-1,us-west-2")
                  (VStr "zip") _ _ eq_refl eq_refl eq_refl)).
Defined.

(** Two regions where the function is created and no mapping is
    desired: nothing is printed, every region resolved with nothing to
    show. *)
Lemma deploy_report_sample :
  archive (laptop (Returned (VArr []))) = Resolved (VStr "zip")
  /\ exists params eventSourceList,
       _params (laptop (Returned (VArr [])))
         (options (VStr "nodejs6.10") (VStr "event_sources.json")
            "us-east-1,us-west-2") (VStr "zip")
       = Returned params
       /\ _eventSourceList (laptop (Returned (VArr [])))
            (options (VStr "nodejs6.10") (VStr "event_sources.json")
               "us-east-1,us-west-2")
          = Returned eventSourceList
       /\ d_report (deploy probe_denied (laptop (Returned (VArr [])))
                      (options (VStr "nodejs6.10") (VStr "event_sources.json")
                         "us-east-1,us-west-2"))
          = Nothing
       /\ Forall (fun r => exists res, result r = Resolved res
                                       /\ Forall (fun l => l = []) res)
            (map (fun region => reconcile probe_denied region params
                                  eventSourceList 0)
               [ "us-east-1"; "us-west-2" ]).
Proof.
  split; [reflexivity|]. eexists _, _.
  split; [reflexivity|]. split; [reflexivity|].
  assert (H : d_report (deploy probe_denied (laptop (Returned (VArr [])))
                          (options (VStr "nodejs6.10")
                             (VStr "event_sources.json") "us-east-1,us-west-2"))
              = Nothing) by (vm_compute; reflexivity).
  split; [exact H|].
  exact (proj1 (proj1 (deploy_report probe_denied
                         (laptop (Returned (VArr [])))
                         (options (VStr "nodejs6.10")
                            (VStr "event_sources.json") "us-east-1,us-west-2")
                         (VStr "zip") _ _ eq_refl eq_refl eq_refl)) H).
Defined.

(** Without an event-source file: functions are created in both regions
    and nothing is printed. *)
Lemma deploy_without_event_source_file_sample :
  truthy (eventSourceFile (options (VStr "nodejs6.10") VUndefined
                             "us-east-1,eu-west-1")) = false
  /\ length (d_calls (deploy west_denied (laptop (Thrown (VStr "ENOENT")))
                        (options (VStr "nodejs6.10") VUndefined
                           "us-east-1,eu-west-1"))) = 4
  /\ Forall (fun c => is_binding_call c = false /\ c_api c <> scheduleEventsAdd)
       (d_calls (deploy west_denied (laptop (Thrown (VStr "ENOENT")))
                   (options (VStr "nodejs6.10") VUndefined
                      "us-east-1,eu-west-1")))
  /\ forall results,
       d_report (deploy west_denied (laptop (Thrown (VStr "ENOENT")))
                   (options (VStr "nodejs6.10") VUndefined "us-east-1,eu-west-1"))
       <> Results results.
Proof.
  split; [reflexivity|]. split; [reflexivity|].
  exact (deploy_without_event_source_file west_denied
           (laptop (Thrown (VStr "ENOENT")))
           (options (VStr "nodejs6.10") VUndefined "us-east-1,eu-west-1")
           eq_refl).
Defined.

(** A configuration file that sets STAGE: it replaces the value of the
    environment, and HOME stays. *)
Lemma _setRunTimeEnvironmentVars_overrides_sample :
  truthy (configFile options_with_config) = true
  /\ exists env',
       _setRunTimeEnvironmentVars configured options_with_config
         (VObj [ ("HOME", VStr "/root"); ("STAGE", VStr "test") ])
       = Returned env'
       /\ get "STAGE" env' = VStr "dev" /\ get "HOME" env' = VStr "/root".
Proof.
  split; [reflexivity|].
  eexists. split; [reflexivity|].
  destruct (_setRunTimeEnvironmentVars_overrides configured options_with_config
              [ ("HOME", VStr "/root"); ("STAGE", VStr "test") ] _ eq_refl)
    as (config & Hconfig & Hget).
  injection Hconfig as <-.
  split; [exact (Hget "STAGE")|exact (Hget "HOME")].
Defined.

(** [setup] on the sample project, step by step. *)
Lemma project_setup :
  setup posix_join "/w" "/lib" (fun _ _ => None)
    (options (VStr "nodejs6.10") VUndefined "us-east-1") project_files
  = Returned project_after_setup.
Proof.
  unfold setup.
  rewrite (_createSampleFile_exists posix_join "/w" "/lib" (fun _ _ => None)
             ".env" ".env" project_files)
    by (exists (File "AWS_REGION=eu-west-1"); vm_compute; reflexivity).
  cbn [when_returned].
  rewrite (_createSampleFile_creates posix_join "/w" "/lib" (fun _ _ => None)
             _ "event.json" project_files "{}")
    by (vm_compute; reflexivity).
  cbn [when_returned].
  rewrite (_createSampleFile_creates posix_join "/w" "/lib" (fun _ _ => None)
             "deploy.env" "deploy.env" _ "")
    by (vm_compute; reflexivity).
  cbn [when_returned].
  rewrite (_createSampleFile_creates posix_join "/w" "/lib" (fun _ _ => None)
             _ "context.json" _ "{}")
    by (vm_compute; reflexivity).
  cbn [when_returned].
  rewrite (_createSampleFile_creates posix_join "/w" "/lib" (fun _ _ => None)
             "event_sources.json" "event_sources.json" _ "[]")
    by (vm_compute; reflexivity).
  reflexivity.
Qed.

(** [setup] in a project that has its own [.env]: that file is kept and
    the four others are created. *)
Lemma setup_only_adds_sample :
  setup posix_join "/w" "/lib" (fun _ _ => None)
    (options (VStr "nodejs6.10") VUndefined "us-east-1") project_files
  = Returned project_after_setup
  /\ project_files ⊆ project_after_setup
  /\ Forall (fun path => is_Some (project_after_setup !! path))
       (sample_files posix_join "/w"
          (options (VStr "nodejs6.10") VUndefined "us-east-1")).
Proof.
  split; [exact project_setup|].
  destruct (setup_only_adds posix_join "/w" "/lib" (fun _ _ => None)
              (options (VStr "nodejs6.10") VUndefined "us-east-1")
              project_files project_after_setup project_setup)
    as (Hsub & Hall & _).
  split; [exact Hsub|exact Hall].
Defined.

(** A second [setup], with the boilerplates gone and the directory
    read-only, changes nothing. *)
Lemma setup_idempotent_sample :
  setup posix_join "/w" "/lib" (fun _ _ => None)
    (options (VStr "nodejs6.10") VUndefined "us-east-1") project_files
  = Returned project_after_setup
  /\ setup posix_join "/w" "/gone" (fun _ _ => Some (VStr "EACCES"))
       (options (VStr "nodejs6.10") VUndefined "us-east-1") project_after_setup
     = Returned project_after_setup.
Proof.
  split; [exact project_setup|].
  exact (setup_idempotent posix_join "/w" "/lib" (fun _ _ => None)
           (options (VStr "nodejs6.10") VUndefined "us-east-1")
           project_files project_after_setup
           (fun _ _ => Some (VStr "EACCES")) "/gone" project_setup).
Defined.

(** A prebuilt directory on a machine where everything succeeds: one
    copy, one zip. *)
Lemma _archivePrebuilt_actions_sample :
  truthy VUndefined && exists_after build_host [] VUndefined = false
  /\ truthy (VStr "dist") = true
  /\ b_actions (archived posix_join "/w" build_host
                  (options (VStr "nodejs6.10") VUndefined "us-east-1")
                  (Packaging VUndefined (VStr "dist") VUndefined VUndefined))
     = [ Copy "_fileCopy" (VStr "dist") "/w/.lambda" false; Zip "/w/.lambda" ].
Proof.
  split; [reflexivity|]. split; [reflexivity|].
  exact (_archivePrebuilt_actions posix_join "/w" build_host
           (options (VStr "nodejs6.10") VUndefined "us-east-1")
           (Packaging VUndefined (VStr "dist") VUndefined VUndefined)
           eq_refl eq_refl).
Defined.

(** A build from [src/] on a machine where everything succeeds: the five
    actions, in order, without a post-install script. *)
Lemma _buildAndArchive_order_sample :
  truthy VUndefined && exists_after build_host [] VUndefined = false
  /\ truthy VUndefined = false
  /\ lambdaSrcDirectory (Packaging VUndefined VUndefined (VStr "src/") VUndefined)
     = Returned "src"
  /\ b_actions (archived posix_join "/w" build_host
                  (options (VStr "nodejs6.10") VUndefined "us-east-1")
                  (Packaging VUndefined VUndefined (VStr "src/") VUndefined))
     `prefix_of`
     [ Remove "/w/.lambda"; Mkdirs "/w/.lambda";
       Copy "_fileCopy" (VStr "src") "/w/.lambda" true;
       ExecFile "npm"
         [ VStr "-s"; VStr "install"; VStr "--production"; VStr "--prefix";
           VStr "/w/.lambda" ];
       Zip "/w/.lambda" ].
Proof.
  split; [reflexivity|]. split; [reflexivity|]. split; [reflexivity|].
  exact (_buildAndArchive_order posix_join "/w" build_host
           (options (VStr "nodejs6.10") VUndefined "us-east-1")
           (Packaging VUndefined VUndefined (VStr "src/") VUndefined)
           "src" eq_refl eq_refl eq_refl).
Defined.
